(** * content_replace: rule engine, load balancer and header policy

    A shallow embedding of the Go sources of the rewriting proxy
    (packages [config], [replacer] and [proxy]) together with the
    properties of its design document that can be settled on it.

    Go strings are byte sequences, so they are [string] values here
    (one [ascii] per byte).  The libraries the program calls that are
    not part of the repository ([regexp], [encoding/json], [net/url])
    are interfaces (type classes); the program is embedded over any
    implementation of them, and small reference instances are given
    at the end of the definitions so that everything can be run. *)

From Stdlib Require Import String Ascii List Bool Arith ZArith NArith Lia.
From Stdlib Require Import DecimalString.
Import ListNotations.

Local Open Scope list_scope.
Local Open Scope string_scope.

Set Implicit Arguments.

(** ** Results of Go calls

    A Go call either returns or panics.  [Ret] carries what is
    returned (for a [(T, error)] signature, a pair or a sum). *)

Inductive outcome (A : Type) : Type :=
| Ret (a : A)
| Panic.

Arguments Panic {A}.

Definition bind {A B : Type} (m : outcome A) (k : A -> outcome B) : outcome B :=
  match m with
  | Ret a => k a
  | Panic => Panic
  end.

Notation "x <- m ;; k" := (bind m (fun x => k))
  (at level 61, m at next level, right associativity).

(** ** Package [strings] *)

Module GoStrings.

Definition byte_val (c : ascii) : N := N_of_ascii c.

(** [strings.HasPrefix(s, p)]. *)
Definition HasPrefix (s p : string) : bool := String.prefix p s.

(** [s[n:]] and [s[:n]] for [n <= len(s)]. *)
Fixpoint slice_from (n : nat) (s : string) : string :=
  match n, s with
  | O, _ => s
  | S n', String _ s' => slice_from n' s'
  | S _, EmptyString => EmptyString
  end.

Fixpoint slice_to (n : nat) (s : string) : string :=
  match n, s with
  | O, _ => EmptyString
  | S n', String c s' => String c (slice_to n' s')
  | S _, EmptyString => EmptyString
  end.

(** [strings.HasSuffix(s, p)]:
    [len(s) >= len(p) && s[len(s)-len(p):] == p]. *)
Definition HasSuffix (s p : string) : bool :=
  (String.length p <=? String.length s)%nat
  && String.eqb (slice_from (String.length s - String.length p) s) p.

(** [strings.Contains(s, p)]: [p] occurs at some offset of [s]. *)
Fixpoint Contains (s p : string) : bool :=
  HasPrefix s p
  || match s with
     | EmptyString => false
     | String _ s' => Contains s' p
     end.

(** Width of the first UTF-8 sequence of a non-empty string, as
    [utf8.DecodeRuneInString] reports it (1 for an invalid or
    truncated sequence). *)
Definition in_range (lo hi : N) (c : ascii) : bool :=
  (lo <=? byte_val c)%N && (byte_val c <=? hi)%N.

Definition cont (c : ascii) : bool := in_range 128 191 c.

Definition rune_width (c : ascii) (rest : string) : nat :=
  let x := byte_val c in
  let two := match rest with String c1 _ => cont c1 | _ => false end in
  let three lo hi :=
    match rest with
    | String c1 (String c2 _) => in_range lo hi c1 && cont c2
    | _ => false
    end in
  let four lo hi :=
    match rest with
    | String c1 (String c2 (String c3 _)) => in_range lo hi c1 && cont c2 && cont c3
    | _ => false
    end in
  if (x <? 194)%N then 1
  else if (x <=? 223)%N then (if two then 2 else 1)
  else if (x =? 224)%N then (if three 160%N 191%N then 3 else 1)
  else if (x =? 237)%N then (if three 128%N 159%N then 3 else 1)
  else if (x <=? 239)%N then (if three 128%N 191%N then 3 else 1)
  else if (x =? 240)%N then (if four 144%N 191%N then 4 else 1)
  else if (x <=? 243)%N then (if four 128%N 191%N then 4 else 1)
  else if (x =? 244)%N then (if four 128%N 143%N then 4 else 1)
  else 1.

(** [strings.ReplaceAll(s, old, new)].  Occurrences are replaced
    from the left and do not overlap; [skip] counts the bytes of
    the current occurrence (or rune) still to be passed over.  With
    an empty [old], [new] is inserted before every rune and at the
    end. *)
Fixpoint replace_nonempty (old new : string) (skip : nat) (s : string) : string :=
  match s with
  | EmptyString => EmptyString
  | String c s' =>
      match skip with
      | S k => replace_nonempty old new k s'
      | O =>
          if HasPrefix s old
          then new ++ replace_nonempty old new (String.length old - 1) s'
          else String c (replace_nonempty old new 0 s')
      end
  end.

Fixpoint replace_empty (new : string) (skip : nat) (s : string) : string :=
  match s with
  | EmptyString => new
  | String c s' =>
      match skip with
      | S k => String c (replace_empty new k s')
      | O => new ++ String c (replace_empty new (rune_width c s' - 1) s')
      end
  end.

Definition ReplaceAll (s old new : string) : string :=
  match old with
  | EmptyString => replace_empty new 0 s
  | _ => replace_nonempty old new 0 s
  end.

(** [strings.ToLower] on ASCII text (header names are ASCII tokens):
    the letters A-Z are mapped to a-z, every other byte is kept. *)
Definition lower_byte (c : ascii) : ascii :=
  if in_range 65 90 c then ascii_of_N (byte_val c + 32) else c.

Fixpoint ToLower (s : string) : string :=
  match s with
  | EmptyString => EmptyString
  | String c s' => String (lower_byte c) (ToLower s')
  end.

End GoStrings.

Import GoStrings.

(** ** Package [regexp] (interface)

    [regexp.Compile] is a function of the pattern text; a compiled
    expression can be searched for in a string ([MatchString],
    unanchored) and all its matches replaced ([ReplaceAllString]). *)

Class RegexpLib : Type := {
  Regexp : Type;
  regexp_Compile : string -> option Regexp;
  Regexp_MatchString : Regexp -> string -> bool;
  Regexp_ReplaceAllString : Regexp -> string -> string -> string
}.

(** [regexp.MustCompile] panics when [Compile] reports an error. *)
Definition regexp_MustCompile `{RegexpLib} (pattern : string) : outcome Regexp :=
  match regexp_Compile pattern with
  | Some re => Ret re
  | None => Panic
  end.

(** [regexp.MatchString(pattern, s)] returns [(false, err)] when the
    pattern does not compile; its callers here drop the error. *)
Definition regexp_MatchString `{RegexpLib} (pattern s : string) : bool :=
  match regexp_Compile pattern with
  | Some re => Regexp_MatchString re s
  | None => false
  end.

(** ** Package [encoding/json] (interface)

    What [json.Unmarshal] stores into an [interface{}]: [nil], [bool],
    [float64], [string], [[]interface{}] and [map[string]interface{}].
    A slice is [None] when it is the nil slice.  A map is a list of
    members with distinct keys; Go leaves the iteration order of a
    map unspecified and nothing below depends on it. *)

Unset Elimination Schemes.

Inductive GoVal (F : Type) : Type :=
| VNil
| VBool (b : bool)
| VNum (f : F)
| VStr (s : string)
| VSlice (s : option (list (GoVal F)))
| VMap (m : list (string * GoVal F)).

Set Elimination Schemes.

Arguments VNil {F}.
Arguments VBool {F} b.
Arguments VStr {F} s.

Class JsonLib : Type := {
  Float64 : Type;
  json_Unmarshal : string -> option (GoVal Float64);
  (** [json.MarshalIndent(v, prefix, indent)] *)
  json_MarshalIndent : GoVal Float64 -> string -> string -> option string
}.

(** [append(s, x)] on a possibly nil slice. *)
Definition go_append {A : Type} (s : option (list A)) (x : A) : option (list A) :=
  match s with
  | None => Some [x]
  | Some l => Some (l ++ [x])%list
  end.

(** [m[k] = v] on a map. *)
Fixpoint map_set {A : Type} (m : list (string * A)) (k : string) (v : A)
  : list (string * A) :=
  match m with
  | [] => [(k, v)]
  | (k', v') :: rest =>
      if String.eqb k' k then (k, v) :: rest else (k', v') :: map_set rest k v
  end.

(** The loops of [Rule.recursiveDelete] over the members of an
    object and over the elements of an array; [visit] is the
    recursive call, [modifiedMap] and [modifiedSlice] are the
    variables of those names. *)
Section WalkLoops.

Context {V : Type} (visit : V -> V * bool).

Fixpoint visit_members (l : list (string * V)) (modifiedMap : list (string * V))
  : list (string * V) :=
  match l with
  | [] => modifiedMap
  | (k, v) :: rest =>
      let (modifiedValue, deleteChild) := visit v in
      visit_members rest (if deleteChild then modifiedMap
                          else map_set modifiedMap k modifiedValue)
  end.

Fixpoint visit_items (l : list V) (modifiedSlice : option (list V))
  : option (list V) :=
  match l with
  | [] => modifiedSlice
  | item :: rest =>
      let (modifiedItem, deleteItem) := visit item in
      visit_items rest (if deleteItem then modifiedSlice
                        else go_append modifiedSlice modifiedItem)
  end.

End WalkLoops.

(** ** Package [config]: rules *)

Definition RuleMode := string.
Definition ModePrefix : RuleMode := "prefix".
Definition ModeSuffix : RuleMode := "suffix".
Definition ModeContains : RuleMode := "contains".
Definition ModeRegex : RuleMode := "regex".

Definition RuleAction := string.
Definition ActionReplace : RuleAction := "replace".
Definition ActionDelete : RuleAction := "delete".
Definition ActionDeleteJsonField : RuleAction := "delete_json_field".

Record Rule : Type := mkRule {
  Name : string;
  Enabled : bool;
  Mode : RuleMode;
  Pattern : string;
  Action : RuleAction;
  Value : string
}.

(** The errors of the program, by the place that builds them (the
    source formats a message; what identifies it is kept). *)
Inductive RuleDefect : Type :=
| NameEmpty | ModeEmpty | ModeInvalid | PatternEmpty
| ActionEmpty | ActionInvalid | ReplaceValueEmpty | RegexInvalid.

Inductive error : Type :=
| ErrRule (number : nat) (name : string) (why : RuleDefect)
| ErrNotExist (path : string)
| ErrRead (path : string)
| ErrDecode (msg : string)
| ErrURL (text : string)
| ErrLoadFile (path : string) (cause : error)
| ErrValidation (cause : error)
| ErrLoadRules (cause : error)
| ErrEngineStopped.

Section Rules.

Context `{RE : RegexpLib} `{JS : JsonLib}.

(** [validateRule(rule, index)]: [None] is the nil error. *)
Definition validateRule (rule : Rule) (index : nat) : option error :=
  if String.eqb (Name rule) "" then Some (ErrRule (index + 1) "" NameEmpty)
  else if String.eqb (Mode rule) "" then Some (ErrRule (index + 1) (Name rule) ModeEmpty)
  else if negb (String.eqb (Mode rule) ModePrefix || String.eqb (Mode rule) ModeSuffix
                || String.eqb (Mode rule) ModeContains || String.eqb (Mode rule) ModeRegex)
  then Some (ErrRule (index + 1) (Name rule) ModeInvalid)
  else if String.eqb (Pattern rule) "" then Some (ErrRule (index + 1) (Name rule) PatternEmpty)
  else if String.eqb (Action rule) "" then Some (ErrRule (index + 1) (Name rule) ActionEmpty)
  else if negb (String.eqb (Action rule) ActionReplace || String.eqb (Action rule) ActionDelete
                || String.eqb (Action rule) ActionDeleteJsonField)
  then Some (ErrRule (index + 1) (Name rule) ActionInvalid)
  else if String.eqb (Action rule) ActionReplace && String.eqb (Value rule) ""
  then Some (ErrRule (index + 1) (Name rule) ReplaceValueEmpty)
  else if String.eqb (Mode rule) ModeRegex
  then match regexp_Compile (Pattern rule) with
       | None => Some (ErrRule (index + 1) (Name rule) RegexInvalid)
       | Some _ => None
       end
  else None.

(** [validateRules(rules)]: the first error, in list order. *)
Fixpoint validateRules_from (i : nat) (rules : list Rule) : option error :=
  match rules with
  | [] => None
  | rule :: rest =>
      match validateRule rule i with
      | Some err => Some err
      | None => validateRules_from (S i) rest
      end
  end.

Definition validateRules (rules : list Rule) : option error :=
  validateRules_from 0 rules.

(** [Rule.matchString] *)
Definition matchString (r : Rule) (s : string) : bool :=
  if String.eqb (Mode r) ModeContains then Contains s (Pattern r)
  else if String.eqb (Mode r) ModePrefix then HasPrefix s (Pattern r)
  else if String.eqb (Mode r) ModeSuffix then HasSuffix s (Pattern r)
  else if String.eqb (Mode r) ModeRegex then regexp_MatchString (Pattern r) s
  else false.

(** [Rule.Match] *)
Definition Match (r : Rule) (content : string) : bool :=
  if negb (Enabled r) then false else matchString r content.

(** [Rule.deleteContent] *)
Definition deleteContent (r : Rule) (content : string) : outcome string :=
  if String.eqb (Mode r) ModePrefix then
    if HasPrefix content (Pattern r)
    then Ret (slice_from (String.length (Pattern r)) content)
    else Ret content
  else if String.eqb (Mode r) ModeSuffix then
    if HasSuffix content (Pattern r)
    then Ret (slice_to (String.length content - String.length (Pattern r)) content)
    else Ret content
  else if String.eqb (Mode r) ModeContains then
    Ret (ReplaceAll content (Pattern r) "")
  else if String.eqb (Mode r) ModeRegex then
    re <- regexp_MustCompile (Pattern r) ;;
    Ret (Regexp_ReplaceAllString re content "")
  else Ret content.

(** [Rule.replaceContent] *)
Definition replaceContent (r : Rule) (content : string) : outcome string :=
  if String.eqb (Mode r) ModePrefix then
    if HasPrefix content (Pattern r)
    then Ret (Value r ++ slice_from (String.length (Pattern r)) content)
    else Ret content
  else if String.eqb (Mode r) ModeSuffix then
    if HasSuffix content (Pattern r)
    then Ret (slice_to (String.length content - String.length (Pattern r)) content ++ Value r)
    else Ret content
  else if String.eqb (Mode r) ModeContains then
    Ret (ReplaceAll content (Pattern r) (Value r))
  else if String.eqb (Mode r) ModeRegex then
    re <- regexp_MustCompile (Pattern r) ;;
    Ret (Regexp_ReplaceAllString re content (Value r))
  else Ret content.

(** The first loop of the object case of [recursiveDelete]: some
    member is a string that [matchString] accepts. *)
Definition is_matching_string (r : Rule) (v : GoVal Float64) : bool :=
  match v with
  | VStr s => matchString r s
  | _ => false
  end.

Definition has_matching_member (r : Rule) (n : list (string * GoVal Float64)) : bool :=
  existsb (fun kv => is_matching_string r (snd kv)) n.

(** [Rule.recursiveDelete]: the new node and the deleteSelf flag.
    Its two inner loops are [visit_members] and [visit_items]. *)
Fixpoint recursiveDelete (r : Rule) (node : GoVal Float64) {struct node}
  : GoVal Float64 * bool :=
  match node with
  | VMap n =>
      if has_matching_member r n then (VNil, true)
      else (VMap (visit_members (recursiveDelete r) n []), false)
  | VSlice n =>
      (VSlice (match n with
               | Some l => visit_items (recursiveDelete r) l None
               | None => None
               end), false)
  | n => (n, false)
  end.

(** The guard of [deleteJsonField]: the content starts with an
    opening brace and ends with a closing one, or the same with
    brackets. *)
Definition looks_like_json (content : string) : bool :=
  (HasPrefix content "{" && HasSuffix content "}")
  || (HasPrefix content "[" && HasSuffix content "]").

(** [Rule.deleteJsonField] *)
Definition deleteJsonField (r : Rule) (content : string) : string :=
  if negb (HasPrefix content "{" && HasSuffix content "}")
     && negb (HasPrefix content "[" && HasSuffix content "]")
  then content
  else
    match json_Unmarshal content with
    | None => content
    | Some data =>
        let (modifiedData, _) := recursiveDelete r data in
        match json_MarshalIndent modifiedData "" "  " with
        | None => content
        | Some modifiedBytes => modifiedBytes
        end
    end.

(** [Rule.Apply] *)
Definition Apply (r : Rule) (content : string) : outcome string :=
  if negb (String.eqb (Action r) ActionDeleteJsonField) && negb (Match r content)
  then Ret content
  else if String.eqb (Action r) ActionDelete then deleteContent r content
  else if String.eqb (Action r) ActionReplace then replaceContent r content
  else if String.eqb (Action r) ActionDeleteJsonField then Ret (deleteJsonField r content)
  else Ret content.

(** [Rule.IsEnabled] *)
Definition IsEnabled (r : Rule) : bool := Enabled r.

End Rules.

(** ** Package [config]: loading rule files

    The file system and the YAML decoder are outside the embedding.
    What they give at the time of a load is the interface: whether
    [os.Stat] finds the path, what [os.ReadFile] reads (or [None]
    when it fails), and what decoding the text of one file into rules
    gives (the two YAML forms and the conversion of the short form,
    which the later validation does not depend on). *)

Class RuleFiles : Type := {
  os_exists : string -> bool;
  os_ReadFile : string -> option string;
  decode_rules : string -> list Rule + error
}.

Section Loading.

Context `{RE : RegexpLib} `{FS : RuleFiles}.

(** [loadSingleRulesFile] *)
Definition loadSingleRulesFile (rulesPath : string) : list Rule + error :=
if negb (os_exists rulesPath) then inr (ErrNotExist rulesPath)
else
  match os_ReadFile rulesPath with
  | None => inr (ErrRead rulesPath)
  | Some data => decode_rules data
  end.

(** The loop of [LoadRulesFromPaths]. *)
Fixpoint load_paths (rulesPaths : list string) (allRules : list Rule)
  : list Rule + error :=
  match rulesPaths with
  | [] => inl allRules
  | rulesPath :: rest =>
      match loadSingleRulesFile rulesPath with
      | inr err => inr (ErrLoadFile rulesPath err)
      | inl rules => load_paths rest (allRules ++ rules)%list
      end
  end.

(** [config.LoadRulesFromPaths] *)
Definition LoadRulesFromPaths (rulesPaths : list string) : list Rule + error :=
  match load_paths rulesPaths [] with
  | inr err => inr err
  | inl allRules =>
      match validateRules allRules with
      | Some err => inr (ErrValidation err)
      | None => inl allRules
      end
  end.

(** [config.LoadRules] *)
Definition config_LoadRules (rulesPath : string) : list Rule + error :=
  LoadRulesFromPaths [rulesPath].

End Loading.

(** ** Package [replacer]: the engine

    The state of an [Engine]: the rule list, the configured paths and
    whether its context has been cancelled ([Stop]).  The lock makes
    every method below atomic with respect to the others; a call is
    modelled as one step on the state. *)

Record Engine : Type := mkEngine {
  rules : list Rule;
  rulesPath : string;
  rulesPaths : list string;
  ctx_done : bool
}.

Section EngineOps.

Context `{RE : RegexpLib} `{JS : JsonLib} `{FS : RuleFiles}.

(** [Engine.UpdateRules] *)
Definition UpdateRules (e : Engine) (newRules : list Rule) : Engine :=
  {| rules := newRules; rulesPath := rulesPath e;
     rulesPaths := rulesPaths e; ctx_done := ctx_done e |}.

(** [Engine.LoadRules]: the engine afterwards and the error. *)
Definition LoadRules (e : Engine) : Engine * option error :=
  let loaded :=
    if (1 <? List.length (rulesPaths e))%nat
    then LoadRulesFromPaths (rulesPaths e)
    else config_LoadRules (rulesPath e) in
  match loaded with
  | inr err => (e, Some (ErrLoadRules err))
  | inl newRules => (UpdateRules e newRules, None)
  end.

(** [Engine.ReloadRules] *)
Definition ReloadRules (e : Engine) : Engine * option error := LoadRules e.

(** [Engine.GetRules] *)
Definition GetRules (e : Engine) : list Rule := rules e.

(** [Engine.Stop] *)
Definition Stop (e : Engine) : Engine :=
  {| rules := rules e; rulesPath := rulesPath e;
     rulesPaths := rulesPaths e; ctx_done := true |}.

(** The loop of [Engine.Process] over the snapshot: a disabled rule
    is skipped; an enabled one is applied when [Match] accepts the
    current content; then the context is polled. *)
Fixpoint process_rules (done : bool) (snapshot : list Rule) (modifiedContent : string)
  : outcome (string * option error) :=
  match snapshot with
  | [] => Ret (modifiedContent, None)
  | rule :: rest =>
      if negb (IsEnabled rule) then process_rules done rest modifiedContent
      else
        let matched := Match rule modifiedContent in
        modifiedContent' <- (if matched then Apply rule modifiedContent
                             else Ret modifiedContent) ;;
        if done then Ret ("", Some ErrEngineStopped)
        else process_rules done rest modifiedContent'
  end.

(** [Engine.Process]: Go's [(string, error)] result. *)
Definition Process (e : Engine) (content : string) : outcome (string * option error) :=
  let snapshot := rules e in
  if (List.length snapshot =? 0)%nat then Ret (content, None)
  else process_rules (ctx_done e) snapshot content.

End EngineOps.

(** ** Package [net/url] (interface) *)

Class UrlLib : Type := {
  URL : Type;
  url_Parse : string -> option URL
}.

(** ** Package [proxy]: the load balancer

    A pointer to a [url.URL] is [Some u], or [None] for the nil
    pointer; a pointer to a [LoadBalancer] likewise.  Go's [int] is 64 bits wide. *)

Definition wrap_int (z : Z) : Z := ((z + 2 ^ 63) mod 2 ^ 64 - 2 ^ 63)%Z.

Definition max_int : Z := (2 ^ 63 - 1)%Z.

(** [l[i]]: panics when the index is out of range. *)
Definition go_index {A : Type} (l : list A) (i : Z) : outcome A :=
  if ((0 <=? i) && (i <? Z.of_nat (List.length l)))%Z
  then match nth_error l (Z.to_nat i) with
       | Some x => Ret x
       | None => Panic
       end
  else Panic.

Section Balancer.

Context `{UL : UrlLib}.

Record LoadBalancer : Type := mkLoadBalancer {
  targets : list (option URL);
  currentIndex : Z
}.

(** The parsing loop of [NewLoadBalancer]. *)
Fixpoint parse_targets (targetURLs : list string) (parsed : list (option URL))
  : list (option URL) + error :=
  match targetURLs with
  | [] => inl parsed
  | urlStr :: rest =>
      match url_Parse urlStr with
      | None => inr (ErrURL urlStr)
      | Some parsedURL => parse_targets rest (parsed ++ [Some parsedURL])%list
      end
  end.

(** [NewLoadBalancer]: the balancer pointer and the error. *)
Definition NewLoadBalancer (targetURLs : list string)
  : option LoadBalancer * option error :=
  if (List.length targetURLs =? 0)%nat then (None, None)
  else
    match parse_targets targetURLs [] with
    | inr err => (None, Some err)
    | inl parsed => (Some {| targets := parsed; currentIndex := 0 |}, None)
    end.

(** [LoadBalancer.GetNext]: the pointer returned and the receiver
    afterwards. *)
Definition GetNext (lb : option LoadBalancer)
  : outcome (option URL * option LoadBalancer) :=
  match lb with
  | None => Ret (None, None)
  | Some b =>
      if (List.length (targets b) =? 0)%nat then Ret (None, lb)
      else
        target <- go_index (targets b) (currentIndex b) ;;
        Ret (target,
             Some {| targets := targets b;
                     currentIndex :=
                       Z.rem (wrap_int (currentIndex b + 1))
                             (Z.of_nat (List.length (targets b))) |})
  end.

(** [n] consecutive calls of [GetNext]: what they return, in call
    order, and the receiver after the last one. *)
Fixpoint GetNext_times (n : nat) (lb : option LoadBalancer)
  : outcome (list (option URL) * option LoadBalancer) :=
  match n with
  | O => Ret ([], lb)
  | S n' =>
      r <- GetNext lb ;;
      rs <- GetNext_times n' (snd r) ;;
      Ret (fst r :: fst rs, snd rs)
  end.

(** [LoadBalancer.GetTargetCount] *)
Definition GetTargetCount (lb : option LoadBalancer) : nat :=
  match lb with
  | None => 0
  | Some b => List.length (targets b)
  end.

End Balancer.

(** ** Package [proxy]: header policy of the forwarder *)

Module Headers.

(** [http.Header]: header name to its values.  The server stores
    inbound names in canonical form, so they are distinct. *)
Definition Header := list (string * list string).

(** Bytes allowed in a header name (RFC 7230 token). *)
Definition validHeaderFieldByte (c : ascii) : bool :=
  in_range 48 57 c || in_range 65 90 c || in_range 97 122 c
  || existsb (Ascii.eqb c)
       (list_ascii_of_string "!#$%&'*+-.^_`|~").

Definition upper_byte (c : ascii) : ascii :=
  if in_range 97 122 c then ascii_of_N (byte_val c - 32) else c.

(** Upper case for the first letter and after each dash, lower
    case elsewhere. *)
Fixpoint canonical_case (upper : bool) (s : string) : string :=
  match s with
  | EmptyString => EmptyString
  | String c s' =>
      let c' := if upper then upper_byte c else lower_byte c in
      String c' (canonical_case (Ascii.eqb c' "-") s')
  end.

(** [textproto.CanonicalMIMEHeaderKey]: a name with a byte that is
    not allowed is returned unchanged. *)
Definition CanonicalMIMEHeaderKey (s : string) : string :=
  if forallb validHeaderFieldByte (list_ascii_of_string s)
  then canonical_case true s
  else s.

(** [h.Add(key, value)] *)
Fixpoint add_value (h : Header) (k value : string) : Header :=
  match h with
  | [] => [(k, [value])]
  | (k', vs) :: rest =>
      if String.eqb k' k then (k', vs ++ [value])%list :: rest
      else (k', vs) :: add_value rest k value
  end.

Definition Header_Add (h : Header) (key value : string) : Header :=
  add_value h (CanonicalMIMEHeaderKey key) value.

(** [h.Del(key)] *)
Definition Header_Del (h : Header) (key : string) : Header :=
  filter (fun kv => negb (String.eqb (fst kv) (CanonicalMIMEHeaderKey key))) h.

(** [h.Values(key)] *)
Fixpoint Header_Values (h : Header) (key : string) : list string :=
  match h with
  | [] => []
  | (k', vs) :: rest =>
      if String.eqb k' (CanonicalMIMEHeaderKey key) then vs else Header_Values rest key
  end.

(** Lookup in a [map[string]bool]: [false] for a missing key. *)
Fixpoint lookup_bool (m : list (string * bool)) (k : string) : bool :=
  match m with
  | [] => false
  | (k', b) :: rest => if String.eqb k' k then b else lookup_bool rest k
  end.

(** The table of [Forwarder.shouldSkipHeader]. *)
Definition skipHeaders : list (string * bool) :=
  [ ("Connection", true); ("Keep-Alive", true); ("Proxy-Authenticate", true);
    ("Proxy-Authorization", true); ("Te", true); ("Trailers", true);
    ("Transfer-Encoding", true); ("Upgrade", true); ("Proxy-Connection", true) ].

(** [Forwarder.shouldSkipHeader] *)
Definition shouldSkipHeader (key : string) : bool :=
  let lowerKey := ToLower key in
  lookup_bool skipHeaders lowerKey || HasPrefix lowerKey "proxy-".

(** [Forwarder.copyHeaders], on the entries of [src] in turn. *)
Fixpoint copyHeaders (src dst : Header) : Header :=
  match src with
  | [] => dst
  | (key, values) :: rest =>
      if shouldSkipHeader key then copyHeaders rest dst
      else copyHeaders rest
             (fold_left (fun d value => Header_Add d key value) values dst)
  end.

(** [Forwarder.removeProblematicHeaders] *)
Definition removeProblematicHeaders (headers : Header) : Header :=
  fold_left Header_Del ["Content-Length"] headers.

(** The header of the request [ForwardRequest] hands to the HTTP
    client: a fresh request, [copyHeaders] from the inbound one,
    then [removeProblematicHeaders]. *)
Definition ForwardRequest_headers (inbound : Header) : Header :=
  removeProblematicHeaders (copyHeaders inbound []).

End Headers.

(** ** Reference instances of the library interfaces

    Executable implementations of fragments of the libraries, used
    to run the program on concrete inputs.  The general theorems do
    not depend on them. *)

(** *** [regexp] on literal patterns

    A pattern without operators denotes itself: it is searched for
    as a substring, and replaced by a replacement text that has no
    dollar sign.  A pattern with an unclosed group is rejected, as by
    [regexp.Compile]; other patterns with operators are not part of
    this fragment and are rejected too. *)

Module LiteralRegexp.

Definition is_operator (c : ascii) : bool :=
  existsb (Ascii.eqb c) (list_ascii_of_string "\.+*?()|[]{}^$").

Definition Compile (pattern : string) : option string :=
  if existsb is_operator (list_ascii_of_string pattern) then None else Some pattern.

#[export] Instance lib : RegexpLib := {|
  Regexp := string;
  regexp_Compile := Compile;
  Regexp_MatchString := fun re s => Contains s re;
  Regexp_ReplaceAllString := fun re s repl => ReplaceAll s re repl
|}.

End LiteralRegexp.

(** *** [net/url] without decoding

    A URL is kept as its text; text with an ASCII control byte is
    rejected, as by [url.Parse]. *)

Module PlainUrl.

Definition Parse (s : string) : option string :=
  if existsb (fun c => (byte_val c <? 32)%N || (byte_val c =? 127)%N)
       (list_ascii_of_string s)
  then None else Some s.

#[export] Instance lib : UrlLib := {| URL := string; url_Parse := Parse |}.

End PlainUrl.

(** *** [encoding/json] on ASCII documents with integer numbers

    The fragment: ASCII text; numbers are integer literals other than
    [-0] of magnitude at most 2^53, held as [Z] (the [float64] they
    denote is that integer, and it is printed as that integer);
    string escapes for the quote, the backslash, the slash, newline,
    carriage return and tab.  A document outside the fragment is
    reported as undecodable. *)

Module JsonRef.

Definition value := GoVal Z.

Definition is_ws (c : ascii) : bool :=
  existsb (N.eqb (byte_val c)) [32; 9; 10; 13]%N.

Fixpoint skip_ws (s : string) : string :=
  match s with
  | String c s' => if is_ws c then skip_ws s' else s
  | EmptyString => EmptyString
  end.

Definition is_digit (c : ascii) : bool := in_range 48 57 c.

(** The double quote (byte 34). *)
Definition dquote : ascii := ascii_of_N 34.

Definition digit_val (c : ascii) : Z := Z.of_N (byte_val c - 48).

(** The rest of a string literal, after its opening quote. *)
Fixpoint parse_string (s : string) : option (string * string) :=
  match s with
  | EmptyString => None
  | String c s' =>
      if Ascii.eqb c dquote then Some (EmptyString, s')
      else if Ascii.eqb c "\" then
        match s' with
        | String e s'' =>
            let decoded :=
              if Ascii.eqb e dquote then Some e
              else if Ascii.eqb e "\" then Some e
              else if Ascii.eqb e "/" then Some e
              else if Ascii.eqb e "n" then Some (ascii_of_N 10)
              else if Ascii.eqb e "r" then Some (ascii_of_N 13)
              else if Ascii.eqb e "t" then Some (ascii_of_N 9)
              else None in
            match decoded, parse_string s'' with
            | Some d, Some (body, rest) => Some (String d body, rest)
            | _, _ => None
            end
        | EmptyString => None
        end
      else if (byte_val c <? 32)%N || (127 <? byte_val c)%N then None
      else
        match parse_string s' with
        | Some (body, rest) => Some (String c body, rest)
        | None => None
        end
  end.

(** Digits of an integer literal, most significant first. *)
Fixpoint parse_digits (acc : Z) (s : string) : Z * string :=
  match s with
  | String c s' =>
      if is_digit c then parse_digits (10 * acc + digit_val c)%Z s' else (acc, s)
  | EmptyString => (acc, s)
  end.

Definition ends_number (rest : string) : bool :=
  match rest with
  | String c _ => negb (Ascii.eqb c "." || Ascii.eqb c "e" || Ascii.eqb c "E")
  | EmptyString => true
  end.

Definition parse_number (s : string) : option (Z * string) :=
  let (negative, body) :=
    match s with
    | String "-" s' => (true, s')
    | _ => (false, s)
    end in
  match body with
  | String c s' =>
      if Ascii.eqb c "0" then
        if negative then None
        else match s' with
             | String d _ => if is_digit d || negb (ends_number s') then None
                             else Some (0%Z, s')
             | EmptyString => Some (0%Z, s')
             end
      else if is_digit c then
        let (n, rest) := parse_digits 0 body in
        if ends_number rest && (n <=? 2 ^ 53)%Z
        then Some (if negative then (- n)%Z else n, rest)
        else None
      else None
  | EmptyString => None
  end.

Definition expect (lit : string) (v : value) (s : string) : option (value * string) :=
  if HasPrefix s lit then Some (v, slice_from (String.length lit) s) else None.

(** A value, the elements of an array after its first one and the
    members of an object after its first one. *)
Fixpoint parse_value (fuel : nat) (s : string) : option (value * string) :=
  match fuel with
  | O => None
  | S fuel' =>
      match skip_ws s with
      | EmptyString => None
      | String c s' =>
          if Ascii.eqb c "{" then
            match skip_ws s' with
            | String "}" rest => Some (VMap [], rest)
            | inner => parse_members fuel' inner []
            end
          else if Ascii.eqb c "[" then
            match skip_ws s' with
            | String "]" rest => Some (VSlice (Some []), rest)
            | inner => parse_elements fuel' inner []
            end
          else if Ascii.eqb c dquote then
            match parse_string s' with
            | Some (str, rest) => Some (VStr str, rest)
            | None => None
            end
          else if Ascii.eqb c "t" then expect "true" (VBool true) (String c s')
          else if Ascii.eqb c "f" then expect "false" (VBool false) (String c s')
          else if Ascii.eqb c "n" then expect "null" VNil (String c s')
          else
            match parse_number (String c s') with
            | Some (n, rest) => Some (VNum n, rest)
            | None => None
            end
      end
  end

with parse_elements (fuel : nat) (s : string) (acc : list value)
  : option (value * string) :=
  match fuel with
  | O => None
  | S fuel' =>
      match parse_value fuel' s with
      | None => None
      | Some (v, rest) =>
          match skip_ws rest with
          | String "," rest' => parse_elements fuel' rest' (acc ++ [v])%list
          | String "]" rest' => Some (VSlice (Some (acc ++ [v])%list), rest')
          | _ => None
          end
      end
  end

with parse_members (fuel : nat) (s : string) (acc : list (string * value))
  : option (value * string) :=
  match fuel with
  | O => None
  | S fuel' =>
      match skip_ws s with
      | String c s' =>
          if negb (Ascii.eqb c dquote) then None
          else
            match parse_string s' with
            | None => None
            | Some (key, rest) =>
                match skip_ws rest with
                | String ":" rest' =>
                    match parse_value fuel' rest' with
                    | None => None
                    | Some (v, rest'') =>
                        match skip_ws rest'' with
                        | String "," more => parse_members fuel' more (map_set acc key v)
                        | String "}" more => Some (VMap (map_set acc key v), more)
                        | _ => None
                        end
                    end
                | _ => None
                end
            end
      | EmptyString => None
      end
  end.

(** [json.Unmarshal] into an [interface{}]: one value, then only
    white space. *)
Definition Unmarshal (data : string) : option value :=
  match parse_value (2 * String.length data + 2) data with
  | Some (v, rest) =>
      match skip_ws rest with
      | EmptyString => Some v
      | _ => None
      end
  | None => None
  end.

(** Text of a string value, as the encoder writes it: the quote and
    the backslash are escaped, so are control bytes, and the bytes
    [<], [>] and [&] are written as [\u00XX]. *)
Definition hex_digit (n : N) : ascii :=
  if (n <? 10)%N then ascii_of_N (48 + n) else ascii_of_N (87 + n).

Definition escape_byte (c : ascii) : string :=
  let x := byte_val c in
  if Ascii.eqb c dquote then String "\" (String dquote EmptyString)
  else if Ascii.eqb c "\" then "\\"
  else if (x =? 10)%N then "\n"
  else if (x =? 13)%N then "\r"
  else if (x =? 9)%N then "\t"
  else if (x =? 8)%N then "\b"
  else if (x =? 12)%N then "\f"
  else if (x <? 32)%N || Ascii.eqb c "<" || Ascii.eqb c ">" || Ascii.eqb c "&"
  then "\u00" ++ String (hex_digit (x / 16)) (String (hex_digit (x mod 16)) EmptyString)
  else String c EmptyString.

Fixpoint escape (s : string) : string :=
  match s with
  | EmptyString => EmptyString
  | String c s' => escape_byte c ++ escape s'
  end.

Definition encode_string (s : string) : string :=
  String dquote (escape s ++ String dquote EmptyString).

Definition encode_number (n : Z) : string := NilZero.string_of_int (Z.to_int n).

Fixpoint repeat_string (n : nat) (s : string) : string :=
  match n with
  | O => EmptyString
  | S n' => s ++ repeat_string n' s
  end.

(** A line break followed by the indentation of a nesting depth. *)
Definition newline (prefix indent : string) (depth : nat) : string :=
  String (ascii_of_N 10) (prefix ++ repeat_string depth indent).

(** Members are written in the order of their keys. *)
Fixpoint insert_member (kv : string * string) (l : list (string * string))
  : list (string * string) :=
  match l with
  | [] => [kv]
  | kv' :: rest =>
      if String.leb (fst kv) (fst kv') then kv :: l else kv' :: insert_member kv rest
  end.

Definition sort_members (l : list (string * string)) : list (string * string) :=
  fold_right insert_member [] l.

Definition join (sep : string) (parts : list string) : string := String.concat sep parts.

(** The text of a value at a nesting depth.  The nil slice is
    written [null]; an empty slice [[]]; an empty map [{}]. *)
Fixpoint encode (prefix indent : string) (depth : nat) (v : value) : string :=
  match v with
  | VNil => "null"
  | VBool true => "true"
  | VBool false => "false"
  | VNum n => encode_number n
  | VStr s => encode_string s
  | VSlice None => "null"
  | VSlice (Some []) => "[]"
  | VSlice (Some elems) =>
      let fix each (l : list value) : list string :=
        match l with
        | [] => []
        | x :: rest => encode prefix indent (S depth) x :: each rest
        end in
      "[" ++ newline prefix indent (S depth)
          ++ join ("," ++ newline prefix indent (S depth)) (each elems)
          ++ newline prefix indent depth ++ "]"
  | VMap [] => "{}"
  | VMap members =>
      let fix each (l : list (string * value)) : list (string * string) :=
        match l with
        | [] => []
        | (k, x) :: rest => (k, encode prefix indent (S depth) x) :: each rest
        end in
      "{" ++ newline prefix indent (S depth)
          ++ join ("," ++ newline prefix indent (S depth))
               (map (fun kv => encode_string (fst kv) ++ ": " ++ snd kv)
                    (sort_members (each members)))
          ++ newline prefix indent depth ++ "}"
  end.

(** [json.MarshalIndent] of a decoded value (it reports no error on
    such a value). *)
Definition MarshalIndent (v : value) (prefix indent : string) : option string :=
  Some (encode prefix indent 0 v).

#[export] Instance lib : JsonLib := {|
  Float64 := Z;
  json_Unmarshal := Unmarshal;
  json_MarshalIndent := MarshalIndent
|}.

(** JSON text is written below with apostrophes for its double
    quotes and a vertical bar for each line break. *)
Fixpoint json_text (s : string) : string :=
  match s with
  | EmptyString => EmptyString
  | String c s' =>
      String (if Ascii.eqb c "'" then dquote
              else if Ascii.eqb c "|" then ascii_of_N 10 else c)
             (json_text s')
  end.

End JsonRef.

(** *** Rule files held in tables

    The files that exist, with their text, and what each text decodes
    to; a text that is not listed does not decode. *)

Fixpoint lookup_text (files : list (string * string)) (path : string) : option string :=
  match files with
  | [] => None
  | (p, text) :: rest => if String.eqb p path then Some text else lookup_text rest path
  end.

Fixpoint lookup_decoded (decoded : list (string * list Rule)) (text : string)
  : list Rule + error :=
  match decoded with
  | [] => inr (ErrDecode text)
  | (t, rs) :: rest => if String.eqb t text then inl rs else lookup_decoded rest text
  end.

Definition files_of (files : list (string * string)) (decoded : list (string * list Rule))
  : RuleFiles :=
  {| os_exists := fun path => match lookup_text files path with
                              | Some _ => true
                              | None => false
                              end;
     os_ReadFile := lookup_text files;
     decode_rules := lookup_decoded decoded |}.

(** ** Definitions used to state the properties *)

(** [strings.TrimSpace] on ASCII text: leading and trailing white
    space (tab, line feed, vertical tab, form feed, carriage return,
    space) removed. *)
Definition is_space (c : ascii) : bool :=
  in_range 9 13 c || (byte_val c =? 32)%N.

Fixpoint TrimLeft (s : string) : string :=
  match s with
  | String c s' => if is_space c then TrimLeft s' else s
  | EmptyString => EmptyString
  end.

Fixpoint TrimRight (s : string) : string :=
  match s with
  | EmptyString => EmptyString
  | String c s' =>
      match TrimRight s' with
      | EmptyString => if is_space c then EmptyString else String c EmptyString
      | t => String c t
      end
  end.

Definition TrimSpace (s : string) : string := TrimRight (TrimLeft s).

(** The check the design document describes: the outer braces or
    brackets are looked for after trimming. *)
Definition looks_like_json_after_trim (content : string) : bool :=
  looks_like_json (TrimSpace content).

Section WalkSpec.

Context `{RE : RegexpLib} `{JS : JsonLib}.

(** The members an object keeps: those whose visited value does not
    signal deleteSelf, with the visited value. *)
Fixpoint kept_members (r : Rule) (n : list (string * GoVal Float64))
  : list (string * GoVal Float64) :=
  match n with
  | [] => []
  | (k, v) :: rest =>
      if snd (recursiveDelete r v) then kept_members r rest
      else (k, fst (recursiveDelete r v)) :: kept_members r rest
  end.

(** The elements an array keeps, likewise. *)
Fixpoint kept_items (r : Rule) (l : list (GoVal Float64)) : list (GoVal Float64) :=
  match l with
  | [] => []
  | item :: rest =>
      if snd (recursiveDelete r item) then kept_items r rest
      else fst (recursiveDelete r item) :: kept_items r rest
  end.

(** Some direct member is a string that the rule matches (by
    [matchString], the mode-dependent test that [Match] makes for
    an enabled rule). *)
Definition member_matches (r : Rule) (n : list (string * GoVal Float64)) : Prop :=
  exists k s, In (k, VStr s) n /\ matchString r s = true.

(** The left fold of [Apply] over a rule list, each rule on the
    output of the one before. *)
Definition apply_all (rs : list Rule) (content : string) : outcome string :=
  fold_left (fun acc r => c <- acc ;; Apply r c) rs (Ret content).

(** What the loop of [Process] does with one enabled rule. *)
Definition gated_Apply (r : Rule) (content : string) : outcome string :=
  if Match r content then Apply r content else Ret content.

End WalkSpec.

(** A rule that an engine would not load. *)
Definition rule_defective `{RE : RegexpLib} (r : Rule) : Prop :=
  Name r = "" \/ Mode r = "" \/ Pattern r = "" \/ Action r = ""
  \/ (Action r = ActionReplace /\ Value r = "")
  \/ (Mode r = ModeRegex /\ regexp_Compile (Pattern r) = None).

(** A rule file that is missing, cannot be read, or does not decode. *)
Definition file_unusable `{FS : RuleFiles} (path : string) : Prop :=
  os_exists path = false
  \/ os_ReadFile path = None
  \/ (exists data err, os_ReadFile path = Some data /\ decode_rules data = inr err).

(** The paths [Engine.LoadRules] reads. *)
Definition paths_read (e : Engine) : list string :=
  if (1 <? List.length (rulesPaths e))%nat then rulesPaths e else [rulesPath e].

(** Balancer states: what [NewLoadBalancer] builds, and what calls of
    [GetNext] make of it. *)
Inductive reachable `{UL : UrlLib} (targetURLs : list string) : LoadBalancer -> Prop :=
| reach_new lb :
    NewLoadBalancer targetURLs = (Some lb, None) -> reachable targetURLs lb
| reach_next lb target lb' :
    reachable targetURLs lb ->
    GetNext (Some lb) = Ret (target, Some lb') ->
    reachable targetURLs lb'.

(** The invariant of a balancer built from [targetURLs]: the targets
    are the parsed URLs in configured order, none is nil, and the
    cursor is an index of the list. *)
Definition balancer_inv `{UL : UrlLib} (targetURLs : list string) (lb : LoadBalancer)
  : Prop :=
  targets lb = map url_Parse targetURLs
  /\ Forall (fun s => url_Parse s <> None) targetURLs
  /\ (0 <= currentIndex lb < Z.of_nat (List.length targetURLs))%Z.

(** *** Inputs of the examples *)

Module Examples.

Import JsonRef.

Definition mk_delete_json (mode : RuleMode) (pattern : string) : Rule :=
  {| Name := "strip"; Enabled := true; Mode := mode; Pattern := pattern;
     Action := ActionDeleteJsonField; Value := "" |}.

Definition secret_doc : string := json_text "{'a': {'x': 'secret', 'y': 1}, 'b': 2}".
Definition secret_doc_result : string := json_text "{|  'b': 2|}".

Definition drop_doc : string := json_text "[{'k':'drop-me'}, {'k':'keep'}]".
Definition drop_doc_result : string := json_text "[|  {|    'k': 'keep'|  }|]".

Definition all_drop_doc : string := json_text "[{'k':'drop-me'}]".

Definition padded_doc : string := json_text " {'a': {'x': 'secret', 'y': 1}, 'b': 2}|".

Definition engine_of (rs : list Rule) (done : bool) : Engine :=
  {| rules := rs; rulesPath := "configs/rules.yaml";
     rulesPaths := ["configs/rules.yaml"]; ctx_done := done |}.

Definition rule_a_to_b : Rule :=
  {| Name := "a-to-b"; Enabled := true; Mode := ModeContains; Pattern := "a";
     Action := ActionReplace; Value := "b" |}.

Definition rule_drop_b : Rule :=
  {| Name := "drop-b"; Enabled := true; Mode := ModeContains; Pattern := "b";
     Action := ActionDelete; Value := "" |}.

Definition rule_regex (pattern : string) : Rule :=
  {| Name := "re"; Enabled := true; Mode := ModeRegex; Pattern := pattern;
     Action := ActionDelete; Value := "" |}.

Definition inbound_headers : Headers.Header :=
  [ ("Connection", ["close"]); ("Content-Type", ["application/json"]);
    ("Content-Length", ["17"]); ("Proxy-Authorization", ["Basic Zm9v"]) ].

Definition three_urls : list string :=
  ["http://one:8080"; "http://two:8080"; "http://three:8080"].

(** Texts of rule files and the rules they hold. *)
Definition decoded_texts : list (string * list Rule) :=
  [ ("rules: [a-to-b]", [rule_a_to_b]);
    ("rules: [a-to-b, re]", [rule_a_to_b; rule_regex "(unclosed"]) ].

Definition good_files : RuleFiles :=
  files_of [ ("configs/rules.yaml", "rules: [a-to-b]") ] decoded_texts.

Definition bad_regex_files : RuleFiles :=
  files_of [ ("configs/rules.yaml", "rules: [a-to-b, re]") ] decoded_texts.

Definition malformed_files : RuleFiles :=
  files_of [ ("configs/rules.yaml", "rules: [") ] decoded_texts.

Definition no_files : RuleFiles := files_of [] decoded_texts.

End Examples.

(** * Further parts of the program *)

(** ** Package [replacer]: the other methods of the engine *)

Inductive engine_error : Type :=
| ErrRuleNotFound (name : string).

(** The three counters of [Engine.GetStats]. *)
Record EngineStats : Type := mkEngineStats {
  total_rules : Z;
  enabled_rules : Z;
  disabled_rules : Z
}.

(** [Rule.SetEnabled] *)
Definition SetEnabled (r : Rule) (enabled : bool) : Rule :=
  {| Name := Name r; Enabled := enabled; Mode := Mode r; Pattern := Pattern r;
     Action := Action r; Value := Value r |}.

(** The loop of [EnableRule] and [DisableRule]: the first rule of
    the name gets the flag; [None] when no rule has the name. *)
Fixpoint set_enabled_first (name : string) (enabled : bool) (rs : list Rule)
  : option (list Rule) :=
  match rs with
  | [] => None
  | r :: rest =>
      if String.eqb (Name r) name then Some (SetEnabled r enabled :: rest)
      else match set_enabled_first name enabled rest with
           | Some rest' => Some (r :: rest')
           | None => None
           end
  end.

(** The loop of [GetRuleByName]. *)
Fixpoint find_rule (name : string) (rs : list Rule) : option Rule :=
  match rs with
  | [] => None
  | r :: rest => if String.eqb (Name r) name then Some r else find_rule name rest
  end.

(** The counting loop of [GetStats]. *)
Fixpoint count_rules (rs : list Rule) (enabled disabled : Z) : Z * Z :=
  match rs with
  | [] => (enabled, disabled)
  | r :: rest =>
      if IsEnabled r then count_rules rest (wrap_int (enabled + 1)) disabled
      else count_rules rest enabled (wrap_int (disabled + 1))
  end.

Section EngineMore.

Context `{RE : RegexpLib} `{JS : JsonLib} `{FS : RuleFiles}.

(** [Engine.GetEnabledRules] *)
Definition GetEnabledRules (e : Engine) : list Rule := filter IsEnabled (rules e).

(** [Engine.GetRuleByName]: the rule, or [None] for [(nil, false)]. *)
Definition GetRuleByName (e : Engine) (name : string) : option Rule :=
  find_rule name (rules e).

Definition set_rule_enabled (e : Engine) (name : string) (enabled : bool)
  : Engine * option engine_error :=
  match set_enabled_first name enabled (rules e) with
  | Some rs =>
      ({| rules := rs; rulesPath := rulesPath e;
          rulesPaths := rulesPaths e; ctx_done := ctx_done e |}, None)
  | None => (e, Some (ErrRuleNotFound name))
  end.

(** [Engine.EnableRule] *)
Definition EnableRule (e : Engine) (name : string) : Engine * option engine_error :=
  set_rule_enabled e name true.

(** [Engine.DisableRule] *)
Definition DisableRule (e : Engine) (name : string) : Engine * option engine_error :=
  set_rule_enabled e name false.

(** [Engine.GetStats] *)
Definition GetStats (e : Engine) : EngineStats :=
  let (enabled, disabled) := count_rules (rules e) 0 0 in
  {| total_rules := Z.of_nat (List.length (rules e));
     enabled_rules := enabled;
     disabled_rules := disabled |}.

(** [NewEngineFromPaths]: [rulesPaths[0]] panics on an empty list;
    the error of the first load is logged and dropped. *)
Definition NewEngineFromPaths (paths : list string) : outcome Engine :=
  first <- go_index paths 0 ;;
  Ret (fst (LoadRules {| rules := []; rulesPath := first;
                         rulesPaths := paths; ctx_done := false |})).

(** [NewEngine] *)
Definition NewEngine (path : string) : outcome Engine := NewEngineFromPaths [path].

(** ** Package [watcher]: loading and reloading

    The rules and the absolute paths of a [Watcher]. *)

Record Watcher : Type := mkWatcher {
  w_rules : list Rule;
  w_rulesPath : list string
}.

(** [Watcher.loadRules] *)
Definition Watcher_loadRules (w : Watcher) : Watcher * option error :=
  match LoadRulesFromPaths (w_rulesPath w) with
  | inr err => (w, Some (ErrLoadRules err))
  | inl allRules => ({| w_rules := allRules; w_rulesPath := w_rulesPath w |}, None)
  end.

(** [Watcher.reloadRules]: the callback, when there is one, runs on
    the state [S] it closes over; its error is only logged. *)
Definition Watcher_reloadRules {S : Type}
  (callback : option (list Rule -> S -> S * option error)) (w : Watcher) (s : S)
  : Watcher * S :=
  match Watcher_loadRules w with
  | (w', Some _) => (w', s)
  | (w', None) =>
      match callback with
      | Some cb => (w', fst (cb (w_rules w') s))
      | None => (w', s)
      end
  end.

(** The callback that [main] registers: [Server.UpdateRules], which
    is [Engine.UpdateRules] on the engine of the server. *)
Definition main_callback (newRules : list Rule) (e : Engine) : Engine * option error :=
  (UpdateRules e newRules, None).

End EngineMore.

(** ** Package [config]: the configuration *)

Record HealthCheckConfig : Type := mkHealthCheckConfig {
  hc_Enabled : bool;
  hc_Interval : Z;
  hc_Path : string;
  hc_Timeout : Z
}.

Record TargetConfig : Type := mkTargetConfig {
  BaseURL : string;
  URLs : list string;
  Timeout : Z;
  Strategy : string;
  HealthCheck : HealthCheckConfig
}.

Record RulesConfig : Type := mkRulesConfig {
  File : string;
  Files : list string;
  AutoReload : bool
}.

Inductive config_error : Type :=
| ErrNoTarget
| ErrBadBaseURL
| ErrBadURL (index : nat)
| ErrStrategy (strategy : string).

(** [TargetConfig.GetTargetURLs] *)
Definition GetTargetURLs (t : TargetConfig) : list string :=
  if (0 <? List.length (URLs t))%nat then URLs t
  else if negb (String.eqb (BaseURL t) "") then [BaseURL t]
  else [].

(** [TargetConfig.IsMultiTarget] *)
Definition IsMultiTarget (t : TargetConfig) : bool := (1 <? List.length (URLs t))%nat.

(** [TargetConfig.GetStrategy] *)
Definition GetStrategy (t : TargetConfig) : string :=
  if String.eqb (Strategy t) "" then "round_robin" else Strategy t.

Section TargetValidation.

Context `{UL : UrlLib}.

(** The loop of [validateTargetConfig] over the URL list. *)
Fixpoint validate_urls (i : nat) (urls : list string) : option config_error :=
  match urls with
  | [] => None
  | urlStr :: rest =>
      match url_Parse urlStr with
      | None => Some (ErrBadURL i)
      | Some _ => validate_urls (S i) rest
      end
  end.

(** [validateTargetConfig]: [None] is the nil error. *)
Definition validateTargetConfig (target : TargetConfig) : option config_error :=
  if String.eqb (BaseURL target) "" && (List.length (URLs target) =? 0)%nat
  then Some ErrNoTarget
  else
    match (if negb (String.eqb (BaseURL target) "")
           then match url_Parse (BaseURL target) with
                | None => Some ErrBadBaseURL
                | Some _ => None
                end
           else None) with
    | Some err => Some err
    | None =>
        match validate_urls 0 (URLs target) with
        | Some err => Some err
        | None =>
            if String.eqb (Strategy target) "round_robin"
               || String.eqb (Strategy target) "weighted_round_robin"
               || String.eqb (Strategy target) "least_connections"
            then None
            else Some (ErrStrategy (Strategy target))
        end
    end.

End TargetValidation.

(** The rule files [NewServer] builds the engine from, and the rule
    files [main] hands to the watcher when auto reload is on. *)
Definition server_rule_paths (c : RulesConfig) : list string :=
  if (0 <? List.length (Files c))%nat then Files c else [File c].

Definition watcher_rule_paths (c : RulesConfig) : list string :=
  if negb (String.eqb (File c) "") then (Files c ++ [File c])%list else Files c.

Record ServerConfig : Type := mkServerConfig {
  Host : string;
  Port : Z
}.

Record LoggingConfig : Type := mkLoggingConfig {
  Level : string;
  LogFile : string
}.

Record DebugConfig : Type := mkDebugConfig {
  dbg_Enabled : bool;
  ShowOriginal : bool;
  ShowModified : bool;
  ShowRuleMatches : bool
}.

Record Config : Type := mkConfig {
  Server : ServerConfig;
  Target : TargetConfig;
  Logging : LoggingConfig;
  Rules : RulesConfig;
  Debug : DebugConfig
}.

(** ** Package [proxy]: the forwarder *)

(** The fields of a parsed URL that [NewForwarder] reads. *)
Class UrlParts `{UL : UrlLib} : Type := {
  url_Scheme : URL -> string;
  url_Host : URL -> string
}.

Inductive forwarder_error : Type :=
| ErrNoTargetURL
| ErrCreateBalancer (cause : error)
| ErrEmptyTargetURL
| ErrParseTargetURL
| ErrNoScheme (text : string)
| ErrNoHost (text : string).

Section ForwarderOps.

Context `{UP : UrlParts}.

(** The fields of a [Forwarder] that choose the target (the HTTP
    client is outside the embedding). *)
Record Forwarder : Type := mkForwarder {
  targetURL : option URL;
  loadBalancer : option LoadBalancer;
  f_config : Config;
  isMultiTarget : bool
}.

(** [NewForwarder]: the forwarder pointer and the error. *)
Definition NewForwarder (cfg : Config) : option Forwarder * option forwarder_error :=
  let targetURLs := GetTargetURLs (Target cfg) in
  match targetURLs with
  | [] => (None, Some ErrNoTargetURL)
  | targetURLStr :: _ =>
      if (1 <? List.length targetURLs)%nat then
        match NewLoadBalancer targetURLs with
        | (_, Some err) => (None, Some (ErrCreateBalancer err))
        | (lb, None) =>
            (Some {| targetURL := None; loadBalancer := lb;
                     f_config := cfg; isMultiTarget := true |}, None)
        end
      else if String.eqb targetURLStr "" then (None, Some ErrEmptyTargetURL)
      else
        match url_Parse targetURLStr with
        | None => (None, Some ErrParseTargetURL)
        | Some parsed =>
            if String.eqb (url_Scheme parsed) "" then (None, Some (ErrNoScheme targetURLStr))
            else if String.eqb (url_Host parsed) "" then (None, Some (ErrNoHost targetURLStr))
            else (Some {| targetURL := Some parsed; loadBalancer := None;
                          f_config := cfg; isMultiTarget := false |}, None)
        end
  end.

(** The first step of [ForwardRequest]: the base URL of the request
    and the forwarder afterwards.  The URL is dereferenced at once
    (for the log line, then by [buildTargetURL]), which panics on a
    nil pointer. *)
Definition ForwardRequest_baseURL (f : Forwarder) : outcome (URL * Forwarder) :=
  if isMultiTarget f then
    r <- GetNext (loadBalancer f) ;;
    match fst r with
    | None => Panic
    | Some baseURL =>
        Ret (baseURL, {| targetURL := targetURL f; loadBalancer := snd r;
                         f_config := f_config f; isMultiTarget := isMultiTarget f |})
    end
  else
    match targetURL f with
    | None => Panic
    | Some baseURL => Ret (baseURL, f)
    end.

(** The base URLs of [n] requests in a row. *)
Fixpoint ForwardRequest_baseURLs (n : nat) (f : Forwarder) : outcome (list URL * Forwarder) :=
  match n with
  | O => Ret ([], f)
  | S n' =>
      r <- ForwardRequest_baseURL f ;;
      rs <- ForwardRequest_baseURLs n' (snd r) ;;
      Ret (fst r :: fst rs, snd rs)
  end.

(** [Forwarder.GetTargetURL] *)
Definition GetTargetURL (f : Forwarder) : outcome (option URL) :=
  if isMultiTarget f then
    match loadBalancer f with
    | Some lb => go_index (targets lb) 0
    | None => Ret (targetURL f)
    end
  else Ret (targetURL f).

End ForwarderOps.

Module ResponseHeaders.

Import Headers.

(** The table of [Forwarder.shouldSkipResponseHeader]. *)
Definition skipResponseHeaders : list (string * bool) :=
  [ ("Connection", true); ("Keep-Alive", true); ("Proxy-Authenticate", true);
    ("Proxy-Authorization", true); ("Te", true); ("Trailers", true);
    ("Transfer-Encoding", true); ("Upgrade", true) ].

(** [Forwarder.shouldSkipResponseHeader] *)
Definition shouldSkipResponseHeader (key : string) : bool :=
  let lowerKey := ToLower key in
  lookup_bool skipResponseHeaders lowerKey || HasPrefix lowerKey "proxy-".

(** [Forwarder.copyResponseHeaders], on the entries of [src] in turn. *)
Fixpoint copyResponseHeaders (src dst : Header) : Header :=
  match src with
  | [] => dst
  | (key, values) :: rest =>
      if shouldSkipResponseHeader key then copyResponseHeaders rest dst
      else copyResponseHeaders rest
             (fold_left (fun d value => Header_Add d key value) values dst)
  end.

End ResponseHeaders.

(** ** Package [proxy]: the request handler

    [Handler.ServeHTTP] on a request whose body read gives [body]
    (the text, or the read error).  [forward] is
    [Forwarder.ForwardRequest] on the modified body, acting on the
    state [U] of the upstream side; the result is what the caller
    gets: an error status, or the upstream response copied back. *)

Inductive served (R : Type) : Type :=
| Failed (status : Z)
| Copied (resp : R).

Arguments Failed {R} status.

Definition StatusInternalServerError : Z := 500.
Definition StatusBadGateway : Z := 502.

Section HandlerOps.

Context `{RE : RegexpLib} `{JS : JsonLib}.

Definition ServeHTTP {R U : Type} (e : Engine) (body : string + error)
  (forward : string -> U -> (R + error) * U) (u : U) : outcome (served R * U) :=
  match body with
  | inr _ => Ret (Failed StatusInternalServerError, u)
  | inl body =>
      processed <- (if (0 <? String.length body)%nat then Process e body
                    else Ret (body, None)) ;;
      match snd processed with
      | Some _ => Ret (Failed StatusInternalServerError, u)
      | None =>
          match forward (fst processed) u with
          | (inr _, u') => Ret (Failed StatusBadGateway, u')
          | (inl resp, u') => Ret (Copied resp, u')
          end
      end
  end.

End HandlerOps.

(** ** Package [logger] *)

(** [s[:hi]]: panics unless [0 <= hi <= len(s)]. *)
Definition go_slice_to (s : string) (hi : Z) : outcome string :=
  if ((0 <=? hi) && (hi <=? Z.of_nat (String.length s)))%Z
  then Ret (slice_to (Z.to_nat hi) s)
  else Panic.

(** [truncateString] *)
Definition truncateString (s : string) (maxLength : Z) : outcome string :=
  if (Z.of_nat (String.length s) <=? maxLength)%Z then Ret s
  else if (maxLength <=? 30)%Z then go_slice_to s maxLength
  else
    cut <- go_slice_to s (maxLength - 30) ;;
    Ret (cut ++ "...").

(** ** Package [config]: the short form of rule files

    A section that is absent is a nil pointer ([None]).  A Go map is
    the list of its entries in the order the loop meets them (Go
    leaves that order unspecified).  The three types
    [EasyPrefixRules], [EasySuffixRules] and [EasyRegexRules] have
    the same two fields and share one record. *)

Record EasyDeleteRules : Type := mkEasyDeleteRules {
  ed_Contains : list string;
  ed_Prefix : list string;
  ed_Suffix : list string;
  ed_Regex : list string
}.

Record EasyReplaceRules : Type := mkEasyReplaceRules {
  er_Contains : list (string * string);
  er_Prefix : list (string * string);
  er_Suffix : list (string * string);
  er_Regex : list (string * string)
}.

Record EasyModeRules : Type := mkEasyModeRules {
  em_Delete : list string;
  em_Replace : list (string * string)
}.

Record EasyRules : Type := mkEasyRules {
  easy_Delete : option EasyDeleteRules;
  easy_Replace : option EasyReplaceRules;
  easy_Prefix : option EasyModeRules;
  easy_Suffix : option EasyModeRules;
  easy_Regex : option EasyModeRules
}.

(** [%d] of a non-negative number. *)
Definition itoa (n : nat) : string := NilZero.string_of_uint (Nat.to_uint n).

(** A loop that turns the patterns of a list into delete rules
    named by position, and one that turns the entries of a map into
    replace rules named by the first ten bytes of the pattern. *)
Fixpoint delete_rules (name : string) (mode : RuleMode) (i : nat) (patterns : list string)
  : list Rule :=
  match patterns with
  | [] => []
  | pattern :: rest =>
      {| Name := name ++ itoa (i + 1); Enabled := true; Mode := mode;
         Pattern := pattern; Action := ActionDelete; Value := "" |}
      :: delete_rules name mode (S i) rest
  end.

Fixpoint replace_rules (name : string) (mode : RuleMode) (entries : list (string * string))
  : list Rule :=
  match entries with
  | [] => []
  | (pattern, value) :: rest =>
      {| Name := name ++ slice_to (Nat.min 10 (String.length pattern)) pattern;
         Enabled := true; Mode := mode; Pattern := pattern;
         Action := ActionReplace; Value := value |}
      :: replace_rules name mode rest
  end.

(** [convertDeleteRules] *)
Definition convertDeleteRules (d : EasyDeleteRules) : list Rule :=
  (delete_rules "批量删除-contains-" ModeContains 0 (ed_Contains d)
   ++ delete_rules "批量删除-prefix-" ModePrefix 0 (ed_Prefix d)
   ++ delete_rules "批量删除-suffix-" ModeSuffix 0 (ed_Suffix d)
   ++ delete_rules "批量删除-regex-" ModeRegex 0 (ed_Regex d))%list.

(** [convertReplaceRules] *)
Definition convertReplaceRules (r : EasyReplaceRules) : list Rule :=
  (replace_rules "批量替换-contains-" ModeContains (er_Contains r)
   ++ replace_rules "批量替换-prefix-" ModePrefix (er_Prefix r)
   ++ replace_rules "批量替换-suffix-" ModeSuffix (er_Suffix r)
   ++ replace_rules "批量替换-regex-" ModeRegex (er_Regex r))%list.

(** [convertPrefixRules], [convertSuffixRules], [convertRegexRules] *)
Definition convertPrefixRules (p : EasyModeRules) : list Rule :=
  (delete_rules "前缀删除-" ModePrefix 0 (em_Delete p)
   ++ replace_rules "前缀替换-" ModePrefix (em_Replace p))%list.

Definition convertSuffixRules (p : EasyModeRules) : list Rule :=
  (delete_rules "后缀删除-" ModeSuffix 0 (em_Delete p)
   ++ replace_rules "后缀替换-" ModeSuffix (em_Replace p))%list.

Definition convertRegexRules (p : EasyModeRules) : list Rule :=
  (delete_rules "正则删除-" ModeRegex 0 (em_Delete p)
   ++ replace_rules "正则替换-" ModeRegex (em_Replace p))%list.

Definition section_rules {A : Type} (convert : A -> list Rule) (section : option A)
  : list Rule :=
  match section with
  | Some s => convert s
  | None => []
  end.

(** [convertEasyRules] *)
Definition convertEasyRules (easy : EasyRules) : list Rule :=
  (section_rules convertDeleteRules (easy_Delete easy)
   ++ section_rules convertReplaceRules (easy_Replace easy)
   ++ section_rules convertPrefixRules (easy_Prefix easy)
   ++ section_rules convertSuffixRules (easy_Suffix easy)
   ++ section_rules convertRegexRules (easy_Regex easy))%list.

Definition nonempty {A : Type} (l : list A) : bool := (0 <? List.length l)%nat.

(** [hasEasyRules] *)
Definition hasEasyRules (easyRules : option EasyRules) : bool :=
  match easyRules with
  | None => false
  | Some easy =>
      match easy_Delete easy with
      | Some d => nonempty (ed_Contains d) || nonempty (ed_Prefix d)
                  || nonempty (ed_Suffix d) || nonempty (ed_Regex d)
      | None => false
      end
      || match easy_Replace easy with
         | Some r => nonempty (er_Contains r) || nonempty (er_Prefix r)
                     || nonempty (er_Suffix r) || nonempty (er_Regex r)
         | None => false
         end
      || match easy_Prefix easy with
         | Some p => nonempty (em_Delete p) || nonempty (em_Replace p)
         | None => false
         end
      || match easy_Suffix easy with
         | Some p => nonempty (em_Delete p) || nonempty (em_Replace p)
         | None => false
         end
      || match easy_Regex easy with
         | Some p => nonempty (em_Delete p) || nonempty (em_Replace p)
         | None => false
         end
  end.

(** The number of entries of the short form. *)
Definition easy_entries (easy : EasyRules) : nat :=
  match easy_Delete easy with
  | Some d => List.length (ed_Contains d) + List.length (ed_Prefix d)
              + List.length (ed_Suffix d) + List.length (ed_Regex d)
  | None => 0
  end
  + match easy_Replace easy with
    | Some r => List.length (er_Contains r) + List.length (er_Prefix r)
                + List.length (er_Suffix r) + List.length (er_Regex r)
    | None => 0
    end
  + match easy_Prefix easy with
    | Some p => List.length (em_Delete p) + List.length (em_Replace p)
    | None => 0
    end
  + match easy_Suffix easy with
    | Some p => List.length (em_Delete p) + List.length (em_Replace p)
    | None => 0
    end
  + match easy_Regex easy with
    | Some p => List.length (em_Delete p) + List.length (em_Replace p)
    | None => 0
    end.

(** What every rule made from the short form looks like. *)
Definition easy_shaped (r : Rule) : Prop :=
  Enabled r = true
  /\ Name r <> ""
  /\ In (Mode r) [ModePrefix; ModeSuffix; ModeContains; ModeRegex]
  /\ ((Action r = ActionDelete /\ Value r = "") \/ Action r = ActionReplace).

(** ** Predicates on decoded JSON *)

Section TreePredicates.

Context `{RE : RegexpLib} `{JS : JsonLib}.

(** No object of the tree has a direct member that is a string the
    rule matches. *)
Fixpoint clean (r : Rule) (v : GoVal Float64) {struct v} : bool :=
  match v with
  | VMap m =>
      negb (has_matching_member r m)
      && (fix all (l : list (string * GoVal Float64)) : bool :=
            match l with
            | [] => true
            | (_, x) :: rest => clean r x && all rest
            end) m
  | VSlice (Some l) =>
      (fix all (l : list (GoVal Float64)) : bool :=
         match l with
         | [] => true
         | x :: rest => clean r x && all rest
         end) l
  | _ => true
  end.

End TreePredicates.

(** The keys of every object of the tree are distinct, as in a Go
    map. *)
Fixpoint keys_distinct {F : Type} (v : GoVal F) {struct v} : Prop :=
  match v with
  | VMap m =>
      NoDup (map fst m)
      /\ (fix all (l : list (string * GoVal F)) : Prop :=
            match l with
            | [] => True
            | (_, x) :: rest => keys_distinct x /\ all rest
            end) m
  | VSlice (Some l) =>
      (fix all (l : list (GoVal F)) : Prop :=
         match l with
         | [] => True
         | x :: rest => keys_distinct x /\ all rest
         end) l
  | _ => True
  end.

(** The tree with every empty array turned into the nil slice. *)
Fixpoint nil_empty {F : Type} (v : GoVal F) {struct v} : GoVal F :=
  match v with
  | VMap m =>
      VMap ((fix each (l : list (string * GoVal F)) : list (string * GoVal F) :=
               match l with
               | [] => []
               | (k, x) :: rest => (k, nil_empty x) :: each rest
               end) m)
  | VSlice (Some []) => VSlice None
  | VSlice (Some l) =>
      VSlice (Some ((fix each (l : list (GoVal F)) : list (GoVal F) :=
                       match l with
                       | [] => []
                       | x :: rest => nil_empty x :: each rest
                       end) l))
  | other => other
  end.

(** *** Scheme and host of the URLs of the examples

    For the reference URLs (kept as text): the scheme is [http] or
    [https] when the text starts with it and a colon and two
    slashes, and the host is what follows up to the first slash. *)

Module PlainUrlParts.

Fixpoint up_to_slash (s : string) : string :=
  match s with
  | EmptyString => EmptyString
  | String c s' => if Ascii.eqb c "/" then EmptyString else String c (up_to_slash s')
  end.

Definition Scheme (u : @URL PlainUrl.lib) : string :=
  if HasPrefix u "http://" then "http"
  else if HasPrefix u "https://" then "https"
  else "".

Definition HostOf (u : @URL PlainUrl.lib) : string :=
  if HasPrefix u "http://" then up_to_slash (slice_from 7 u)
  else if HasPrefix u "https://" then up_to_slash (slice_from 8 u)
  else "".

#[export] Instance parts : @UrlParts PlainUrl.lib :=
  {| url_Scheme := Scheme; url_Host := HostOf |}.

(** A configuration with the given target settings. *)
Definition config_of (base : string) (urls : list string) (strategy : string) : Config :=
  {| Server := {| Host := "0.0.0.0"; Port := 8080 |};
     Target := {| BaseURL := base; URLs := urls; Timeout := 30000000000;
                  Strategy := strategy;
                  HealthCheck := {| hc_Enabled := true; hc_Interval := 30000000000;
                                    hc_Path := "/health"; hc_Timeout := 5000000000 |} |};
     Logging := {| Level := "info"; LogFile := "logs/proxy.log" |};
     Rules := {| File := "configs/rules.yaml"; Files := []; AutoReload := true |};
     Debug := {| dbg_Enabled := false; ShowOriginal := true; ShowModified := true;
                 ShowRuleMatches := true |} |}.

End PlainUrlParts.

(** ** Package [config]: defaults and validation *)

(** [time.Second], in nanoseconds. *)
Definition Second : Z := 1000000000.

(** [setDefaults] *)
Definition setDefaults (config : Config) : Config :=
  let server := Server config in
  let target := Target config in
  let hc := HealthCheck target in
  let logging := Logging config in
  {| Server := {| Host := if String.eqb (Host server) "" then "0.0.0.0" else Host server;
                  Port := if (Port server =? 0)%Z then 8080%Z else Port server |};
     Target := {| BaseURL := BaseURL target;
                  URLs := URLs target;
                  Timeout := if (Timeout target =? 0)%Z then (30 * Second)%Z
                             else Timeout target;
                  Strategy := if String.eqb (Strategy target) "" then "round_robin"
                              else Strategy target;
                  HealthCheck :=
                    {| hc_Enabled := hc_Enabled hc;
                       hc_Interval := if (hc_Interval hc =? 0)%Z then (30 * Second)%Z
                                      else hc_Interval hc;
                       hc_Path := if String.eqb (hc_Path hc) "" then "/health"
                                  else hc_Path hc;
                       hc_Timeout := if (hc_Timeout hc =? 0)%Z then (5 * Second)%Z
                                     else hc_Timeout hc |} |};
     Logging := {| Level := if String.eqb (Level logging) "" then "info" else Level logging;
                   LogFile := if String.eqb (LogFile logging) "" then "logs/proxy.log"
                              else LogFile logging |};
     Rules := Rules config;
     Debug := Debug config |}.

Inductive validate_error : Type :=
| ErrPort
| ErrTarget (cause : config_error)
| ErrNoRulesPath
| ErrRulesFileMissing (path : string).

Section ConfigValidation.

Context `{UL : UrlLib} `{FS : RuleFiles}.

(** The loop of [validate] over the rule files. *)
Fixpoint first_missing (files : list string) : option validate_error :=
  match files with
  | [] => None
  | file :: rest =>
      if negb (os_exists file) then Some (ErrRulesFileMissing file)
      else first_missing rest
  end.

(** [validate]: [None] is the nil error. *)
Definition validate (config : Config) : option validate_error :=
  if ((Port (Server config) <? 1) || (65535 <? Port (Server config)))%Z
  then Some ErrPort
  else
    match validateTargetConfig (Target config) with
    | Some err => Some (ErrTarget err)
    | None =>
        if String.eqb (File (Rules config)) ""
           && (List.length (Files (Rules config)) =? 0)%nat
        then Some ErrNoRulesPath
        else if negb (String.eqb (File (Rules config)) "")
                && negb (os_exists (File (Rules config)))
        then Some (ErrRulesFileMissing (File (Rules config)))
        else if (0 <? List.length (Files (Rules config)))%nat
        then first_missing (Files (Rules config))
        else None
    end.

End ConfigValidation.


(** * Properties *)

(** ** Header policy *)

Module HeaderFacts.

Import Headers.

Lemma lower_byte_not_upper (c : ascii) : in_range 65 90 (lower_byte c) = false.
Proof.
  destruct c as [[] [] [] [] [] [] [] []]; reflexivity.
Qed.

Lemma ToLower_head (key : string) (c : ascii) (t : string) :
  in_range 65 90 c = true -> ToLower key <> String c t.
Proof.
  intros Hup Heq. destruct key as [|a key']; simpl in Heq.
  - discriminate.
  - injection Heq as Hc _. subst c.
    rewrite lower_byte_not_upper in Hup. discriminate.
Qed.

Lemma eqb_ToLower_upper (key : string) (c : ascii) (t : string) :
  in_range 65 90 c = true -> String.eqb (String c t) (ToLower key) = false.
Proof.
  intro Hup. apply String.eqb_neq. intro Heq.
  symmetry in Heq. exact (ToLower_head key Hup Heq).
Qed.

(** No lower-cased name is a key of the table: its keys are
    capitalised. *)
Lemma skipHeaders_never_hit (key : string) :
  lookup_bool skipHeaders (ToLower key) = false.
Proof.
  unfold skipHeaders. cbn [lookup_bool].
  repeat (rewrite eqb_ToLower_upper by reflexivity). reflexivity.
Qed.

(** What [shouldSkipHeader] computes: the prefix test alone. *)
Lemma shouldSkipHeader_is_prefix_test (key : string) :
  shouldSkipHeader key = HasPrefix (ToLower key) "proxy-".
Proof.
  unfold shouldSkipHeader. now rewrite skipHeaders_never_hit.
Qed.

(** C1 (the code departs from it).  The forwarder is to leave out
    the hop-by-hop headers, [Connection] among them.  On a request
    with [Connection: close] the header reaches the outbound
    request: [shouldSkipHeader] looks the lower-cased name up in a
    table of capitalised names, so only names that start with
    [proxy-] are left out ([Content-Length] is removed later). *)
Theorem ForwardRequest_forwards_Connection :
  shouldSkipHeader "Connection" = false
  /\ Header_Values (ForwardRequest_headers Examples.inbound_headers) "Connection"
     = ["close"]
  /\ ForwardRequest_headers Examples.inbound_headers
     = [ ("Connection", ["close"]); ("Content-Type", ["application/json"]) ]
  /\ (forall key, In key ["Connection"; "Keep-Alive"; "Te"; "Trailers";
                          "Transfer-Encoding"; "Upgrade"] ->
                  shouldSkipHeader key = false).
Proof.
  repeat split; try reflexivity.
  intros key Hin. simpl in Hin.
  repeat (destruct Hin as [<- | Hin]; [reflexivity|]). contradiction.
Qed.

End HeaderFacts.

(** ** Load balancer *)

Section BalancerFacts.

Context `{UL : UrlLib}.

Lemma parse_targets_inl (targetURLs : list string) :
  forall parsed out,
    parse_targets targetURLs parsed = inl out ->
    out = (parsed ++ map url_Parse targetURLs)%list
    /\ Forall (fun s => url_Parse s <> None) targetURLs.
Proof.
  induction targetURLs as [|u us IH]; intros parsed out Hp; simpl in Hp.
  - injection Hp as <-. now rewrite app_nil_r.
  - destruct (url_Parse u) as [p|] eqn:Hu; [|discriminate].
    apply IH in Hp as [-> Hall]. split.
    + rewrite <- app_assoc. simpl. now rewrite Hu.
    + constructor; [congruence | exact Hall].
Qed.

Lemma NewLoadBalancer_inv (targetURLs : list string) (lb : LoadBalancer) :
  NewLoadBalancer targetURLs = (Some lb, None) ->
  balancer_inv targetURLs lb /\ currentIndex lb = 0%Z.
Proof.
  unfold NewLoadBalancer. intro Hnew.
  destruct targetURLs as [|u us]; [discriminate|].
  cbn [List.length Nat.eqb] in Hnew.
  destruct (parse_targets (u :: us) []) as [parsed|err] eqn:Hp; [|discriminate].
  injection Hnew as <-. apply parse_targets_inl in Hp as [-> Hall].
  repeat split; try assumption; cbn [currentIndex List.length]; lia.
Qed.

Lemma wrap_int_small (z : Z) : (0 <= z <= max_int)%Z -> wrap_int z = z.
Proof.
  unfold wrap_int, max_int. intro Hz.
  rewrite Z.mod_small; lia.
Qed.

Lemma go_index_in_range {A : Type} (l : list A) (i : Z) (d : A) :
  (0 <= i < Z.of_nat (List.length l))%Z ->
  go_index l i = Ret (nth (Z.to_nat i) l d).
Proof.
  intro Hi. unfold go_index.
  replace ((0 <=? i)%Z && (i <? Z.of_nat (List.length l))%Z) with true
    by (symmetry; apply andb_true_iff; split; [apply Z.leb_le | apply Z.ltb_lt]; lia).
  rewrite (nth_error_nth' l d) by lia. reflexivity.
Qed.

(** One call on a balancer that satisfies the invariant. *)
Lemma GetNext_step (targetURLs : list string) (lb : LoadBalancer) :
  (Z.of_nat (List.length targetURLs) <= max_int)%Z ->
  balancer_inv targetURLs lb ->
  let N := Z.of_nat (List.length targetURLs) in
  let lb' := {| targets := targets lb;
                currentIndex := ((currentIndex lb + 1) mod N)%Z |} in
  GetNext (Some lb)
  = Ret (nth (Z.to_nat (currentIndex lb)) (targets lb) None, Some lb')
  /\ balancer_inv targetURLs lb'.
Proof.
  intros Hmax (Ht & Hall & Hi) N lb'.
  assert (Hlen : List.length (targets lb) = List.length targetURLs)
    by (rewrite Ht; apply length_map).
  split.
  - unfold GetNext.
    destruct (List.length (targets lb) =? 0)%nat eqn:Hz.
    + apply Nat.eqb_eq in Hz. lia.
    + rewrite (go_index_in_range (targets lb) None) by lia.
      cbn [bind]. rewrite wrap_int_small by lia.
      rewrite Z.rem_mod_nonneg by lia. rewrite Hlen. reflexivity.
  - unfold balancer_inv, lb'; cbn [targets currentIndex].
    repeat split; try assumption; apply Z.mod_pos_bound; lia.
Qed.

Lemma nth_parsed_not_nil (targetURLs : list string) (i : nat) :
  Forall (fun s => url_Parse s <> None) targetURLs ->
  (i < List.length targetURLs)%nat ->
  exists u, nth i (map url_Parse targetURLs) None = Some u
            /\ In (Some u) (map url_Parse targetURLs).
Proof.
  intros Hall Hi.
  assert (Hin : In (nth i (map url_Parse targetURLs) None) (map url_Parse targetURLs))
    by (apply nth_In; now rewrite length_map).
  destruct (nth i (map url_Parse targetURLs) None) as [u|] eqn:Hn.
  - now exists u.
  - apply in_map_iff in Hin as (s & Hs & Hins).
    rewrite Forall_forall in Hall. now apply Hall in Hins.
Qed.

Lemma reachable_inv (targetURLs : list string) (lb : LoadBalancer) :
  (Z.of_nat (List.length targetURLs) <= max_int)%Z ->
  reachable targetURLs lb -> balancer_inv targetURLs lb.
Proof.
  intros Hmax Hr. induction Hr as [lb Hnew | lb target lb' _ IH Hnext].
  - now apply NewLoadBalancer_inv.
  - destruct (GetNext_step Hmax IH) as [Hstep Hinv].
    rewrite Hstep in Hnext. injection Hnext as _ <-. exact Hinv.
Qed.

Lemma skipn_nth_cons {A : Type} (l : list A) (i : nat) (d : A) :
  (i < List.length l)%nat -> skipn i l = nth i l d :: skipn (S i) l.
Proof.
  revert i. induction l as [|x l IH]; intros i Hi; simpl in Hi; [lia|].
  destruct i as [|i]; [reflexivity|].
  cbn [skipn nth]. apply IH. lia.
Qed.

(** From cursor [i], the calls up to the end of the list return
    the targets from [i] on and bring the cursor back to 0. *)
Lemma GetNext_times_to_end (targetURLs : list string) :
  (Z.of_nat (List.length targetURLs) <= max_int)%Z ->
  forall (m i : nat) (lb : LoadBalancer),
    (i + S m = List.length targetURLs)%nat ->
    balancer_inv targetURLs lb ->
    currentIndex lb = Z.of_nat i ->
    GetNext_times (S m) (Some lb)
    = Ret (skipn i (targets lb),
           Some {| targets := targets lb; currentIndex := 0 |}).
Proof.
  intros Hmax m. induction m as [|m IH]; intros i lb Him Hinv Hidx.
  - destruct (GetNext_step Hmax Hinv) as [Hstep _].
    cbn [GetNext_times]. rewrite Hstep. cbn [bind fst snd].
    destruct Hinv as (Ht & _ & _).
    assert (Hlen : List.length (targets lb) = List.length targetURLs)
      by (rewrite Ht; apply length_map).
    rewrite (skipn_nth_cons (targets lb) None) by lia.
    rewrite (skipn_all2 (targets lb)) by lia.
    rewrite Hidx, Nat2Z.id.
    replace (Z.of_nat i + 1)%Z with (Z.of_nat (List.length targetURLs)) by lia.
    rewrite Z.mod_same by lia. reflexivity.
  - destruct (GetNext_step Hmax Hinv) as [Hstep Hinv'].
    change (GetNext_times (S (S m)) (Some lb))
      with (r <- GetNext (Some lb) ;;
            rs <- GetNext_times (S m) (snd r) ;;
            Ret (fst r :: fst rs, snd rs)).
    rewrite Hstep. cbn [bind fst snd].
    assert (Hidx' : ((currentIndex lb + 1) mod Z.of_nat (List.length targetURLs))%Z
                    = Z.of_nat (S i))
      by (rewrite Z.mod_small; lia).
    rewrite (IH (S i)); [| lia | exact Hinv' | exact Hidx'].
    cbn [bind fst snd targets].
    destruct Hinv as (Ht & _ & _).
    assert (Hlen : List.length (targets lb) = List.length targetURLs)
      by (rewrite Ht; apply length_map).
    rewrite (skipn_nth_cons (targets lb) None (i := i)) by lia.
    rewrite Hidx, Nat2Z.id. reflexivity.
Qed.

Lemma GetNext_times_succ_r (n : nat) :
  forall lb,
    GetNext_times (S n) lb
    = (rs <- GetNext_times n lb ;;
       r <- GetNext (snd rs) ;;
       Ret ((fst rs ++ [fst r])%list, snd r)).
Proof.
  induction n as [|n IH]; intro lb.
  - cbn [GetNext_times bind fst snd app].
    destruct (GetNext lb) as [[t lb']|]; reflexivity.
  - change (GetNext_times (S (S n)) lb)
      with (r <- GetNext lb ;;
            rs <- GetNext_times (S n) (snd r) ;;
            Ret (fst r :: fst rs, snd rs)).
    destruct (GetNext lb) as [[t lb1]|] eqn:H1; cbn [bind fst snd].
    + rewrite IH.
      change (GetNext_times (S n) lb)
        with (r <- GetNext lb ;;
              rs <- GetNext_times n (snd r) ;;
              Ret (fst r :: fst rs, snd rs)).
      rewrite H1. cbn [bind fst snd].
      destruct (GetNext_times n lb1) as [[rs lb2]|]; cbn [bind fst snd]; [|reflexivity].
      destruct (GetNext lb2) as [[t' lb3]|]; reflexivity.
    + change (GetNext_times (S n) lb)
        with (r <- GetNext lb ;;
              rs <- GetNext_times n (snd r) ;;
              Ret (fst r :: fst rs, snd rs)).
      rewrite H1. reflexivity.
Qed.

(** C7.  A balancer built by [NewLoadBalancer] from N URLs (which
    needs N >= 1) starts with the cursor at 0; N calls of [GetNext]
    return the configured targets, each once and in configured
    order, and leave the balancer as it was; call N+1 returns the
    first target again.  Each call moves the cursor by one modulo
    N. *)
Theorem GetNext_round_robin (targetURLs : list string) (lb : LoadBalancer) :
  NewLoadBalancer targetURLs = (Some lb, None) ->
  (Z.of_nat (List.length targetURLs) <= max_int)%Z ->
  let N := List.length targetURLs in
  (1 <= N)%nat
  /\ currentIndex lb = 0%Z
  /\ targets lb = map url_Parse targetURLs
  /\ GetNext_times N (Some lb) = Ret (targets lb, Some lb)
  /\ (exists lb', GetNext_times (S N) (Some lb)
                  = Ret ((targets lb ++ [hd None (targets lb)])%list, Some lb'))
  /\ (forall b, reachable targetURLs b ->
        exists t,
          GetNext (Some b)
          = Ret (t, Some {| targets := targets b;
                            currentIndex := ((currentIndex b + 1) mod Z.of_nat N)%Z |})).
Proof.
  intros Hnew Hmax N.
  destruct (NewLoadBalancer_inv _ Hnew) as [Hinv Hzero].
  assert (HN : (1 <= N)%nat) by (destruct Hinv as (_ & _ & Hi); subst N; lia).
  assert (Hrun : GetNext_times N (Some lb) = Ret (targets lb, Some lb)).
  { destruct N as [|m] eqn:HNm; [lia|].
    rewrite (@GetNext_times_to_end targetURLs Hmax m 0%nat lb);
      [| subst N; lia | exact Hinv | exact Hzero].
    destruct lb as [ts idx]. cbn [targets currentIndex skipn] in *.
    now subst idx. }
  repeat split; try assumption.
  - now destruct Hinv.
  - rewrite GetNext_times_succ_r, Hrun. cbn [bind fst snd].
    destruct (GetNext_step Hmax Hinv) as [Hstep _].
    rewrite Hstep. cbn [bind fst snd]. rewrite Hzero.
    eexists. f_equal. f_equal. f_equal.
    destruct (targets lb); reflexivity.
  - intros b Hb. eexists.
    exact (proj1 (GetNext_step Hmax (reachable_inv Hmax Hb))).
Qed.

(** C10.  [GetNext] returns nil on a nil receiver and on an empty
    target list, and never panics there.  On every balancer that
    [NewLoadBalancer] built, after any number of calls, it returns
    a target that is not nil and is an element of the list, keeps
    the list and leaves the cursor inside its bounds. *)
Theorem GetNext_total :
  GetNext None = Ret (None, None)
  /\ (forall i,
        GetNext (Some {| targets := []; currentIndex := i |})
        = Ret (None, Some {| targets := []; currentIndex := i |}))
  /\ (forall targetURLs lb,
        (Z.of_nat (List.length targetURLs) <= max_int)%Z ->
        reachable targetURLs lb ->
        exists u lb',
          GetNext (Some lb) = Ret (Some u, Some lb')
          /\ In (Some u) (targets lb)
          /\ targets lb <> []
          /\ targets lb' = targets lb
          /\ (0 <= currentIndex lb' < Z.of_nat (List.length (targets lb')))%Z).
Proof.
  split; [reflexivity|]. split; [reflexivity|].
  intros targetURLs lb Hmax Hr.
  pose proof (reachable_inv Hmax Hr) as Hinv.
  destruct (GetNext_step Hmax Hinv) as [Hstep Hinv'].
  destruct Hinv as (Ht & Hall & Hi).
  destruct (@nth_parsed_not_nil targetURLs (Z.to_nat (currentIndex lb)) Hall)
    as (u & Hu & Hin); [lia|].
  exists u. eexists. rewrite Hstep, Ht, Hu.
  split; [reflexivity|]. cbn [targets currentIndex].
  split; [exact Hin|]. split.
  - destruct targetURLs; [simpl in Hi; lia | discriminate].
  - split; [reflexivity|]. rewrite length_map.
    apply Z.mod_pos_bound. lia.
Qed.

End BalancerFacts.

(** C7 on three URLs. *)
Lemma GetNext_round_robin_three :
  exists lb,
    @NewLoadBalancer PlainUrl.lib Examples.three_urls = (Some lb, None)
    /\ GetNext_times 3 (Some lb)
       = Ret ([Some "http://one:8080"; Some "http://two:8080"; Some "http://three:8080"],
              Some lb)
    /\ exists lb', GetNext_times 4 (Some lb)
                   = Ret ([Some "http://one:8080"; Some "http://two:8080";
                           Some "http://three:8080"; Some "http://one:8080"], Some lb').
Proof.
  eexists. split; [reflexivity|].
  pose proof (@GetNext_round_robin PlainUrl.lib Examples.three_urls _ eq_refl) as H.
  assert (Hmax : (Z.of_nat (List.length Examples.three_urls) <= max_int)%Z)
    by (vm_compute; discriminate).
  destruct (H Hmax) as (_ & _ & _ & Hn & Hn1 & _).
  split; [exact Hn | exact Hn1].
Defined.

(** C10 on a balancer that has served one request. *)
Lemma GetNext_total_after_one_call :
  exists lb u lb',
    @reachable PlainUrl.lib Examples.three_urls lb
    /\ GetNext (Some lb) = Ret (Some u, Some lb')
    /\ In (Some u) (targets lb).
Proof.
  pose (lb0 := {| targets := map (@url_Parse PlainUrl.lib) Examples.three_urls;
                  currentIndex := 0 |}).
  pose (lb1 := {| targets := targets lb0; currentIndex := 1 |}).
  assert (Hr : @reachable PlainUrl.lib Examples.three_urls lb1).
  { apply (@reach_next PlainUrl.lib _ lb0 (Some "http://one:8080")).
    - apply reach_new. reflexivity.
    - reflexivity. }
  assert (Hmax : (Z.of_nat (List.length Examples.three_urls) <= max_int)%Z)
    by (vm_compute; discriminate).
  destruct (proj2 (proj2 (@GetNext_total PlainUrl.lib)) _ _ Hmax Hr)
    as (u & lb' & Hstep & Hin & _).
  exists lb1, u, lb'. repeat split; assumption.
Defined.

(** ** Strings *)

Section StringFacts.

Lemma HasSuffix_cons_byte (c d : ascii) (s : string) :
  HasSuffix (String c s) (String d EmptyString)
  = match s with
    | EmptyString => Ascii.eqb c d
    | String _ _ => HasSuffix s (String d EmptyString)
    end.
Proof.
  destruct s as [|c1 s'].
  - unfold HasSuffix. cbn. destruct (Ascii.eqb c d); reflexivity.
  - unfold HasSuffix. cbn [String.length Nat.leb Nat.sub slice_from andb].
    now rewrite Nat.sub_0_r.
Qed.

Lemma TrimRight_keeps (d : ascii) (s : string) :
  is_space d = false ->
  HasSuffix s (String d EmptyString) = true ->
  TrimRight s = s.
Proof.
  intros Hd. induction s as [|c s IH]; intro Hs; [reflexivity|].
  rewrite HasSuffix_cons_byte in Hs. destruct s as [|c1 s'].
  - apply Ascii.eqb_eq in Hs. subst d. cbn. now rewrite Hd.
  - cbn [TrimRight]. cbn [TrimRight] in IH. rewrite (IH Hs). reflexivity.
Qed.

Lemma TrimLeft_keeps (c : ascii) (s : string) :
  is_space c = false -> TrimLeft (String c s) = String c s.
Proof. intro Hc. cbn. now rewrite Hc. Qed.

Lemma HasPrefix_byte (s : string) (d : ascii) :
  HasPrefix s (String d EmptyString) = true -> exists s', s = String d s'.
Proof.
  unfold HasPrefix. destruct s as [|c s']; cbn; [discriminate|].
  destruct (ascii_dec d c) as [->|]; [|discriminate]. intros _. now exists s'.
Qed.

(** Content that passes the guard of [deleteJsonField] has no
    white space at either end. *)
Lemma looks_like_json_trimmed (content : string) :
  looks_like_json content = true -> TrimSpace content = content.
Proof.
  unfold looks_like_json, TrimSpace. intro H.
  apply orb_true_iff in H as [H | H]; apply andb_true_iff in H as [Hp Hs];
    apply HasPrefix_byte in Hp as [s' ->];
    rewrite TrimLeft_keeps by reflexivity;
    (eapply TrimRight_keeps; [|exact Hs]; reflexivity).
Qed.

End StringFacts.

(** ** Rules: the JSON walk *)

Section WalkFacts.

Context `{RE : RegexpLib} `{JS : JsonLib}.

Lemma Match_enabled (r : Rule) (s : string) :
  Enabled r = true -> Match r s = matchString r s.
Proof. unfold Match. now intros ->. Qed.

Lemma has_matching_member_iff (r : Rule) (n : list (string * GoVal Float64)) :
  has_matching_member r n = true
  <-> exists k s, In (k, VStr s) n /\ matchString r s = true.
Proof.
  unfold has_matching_member. rewrite existsb_exists. split.
  - intros ([k v] & Hin & Hm). cbn [snd] in Hm.
    destruct v as [| | | s | |]; try discriminate.
    now exists k, s.
  - intros (k & s & Hin & Hm). now exists (k, VStr s).
Qed.

Lemma map_set_fresh {A : Type} (m : list (string * A)) (k : string) (v : A) :
  ~ In k (map fst m) -> map_set m k v = (m ++ [(k, v)])%list.
Proof.
  induction m as [|[k' v'] m IH]; intro Hk; [reflexivity|].
  cbn [map_set app]. cbn [map fst In] in Hk.
  destruct (String.eqb_spec k' k) as [->|_].
  - exfalso. apply Hk. now left.
  - rewrite IH; [reflexivity|]. intro Hin. apply Hk. now right.
Qed.

(** The member loop on an object with distinct keys: the members
    kept so far, then the kept members of the rest. *)
Lemma visit_members_kept (r : Rule) (n : list (string * GoVal Float64)) :
  NoDup (map fst n) ->
  forall modifiedMap,
    (forall k, In k (map fst n) -> ~ In k (map fst modifiedMap)) ->
    visit_members (recursiveDelete r) n modifiedMap
    = (modifiedMap ++ kept_members r n)%list.
Proof.
  induction n as [|[k v] n IH]; intros Hnd acc Hfresh.
  - cbn. now rewrite app_nil_r.
  - cbn [map fst] in Hnd. inversion Hnd as [|? ? Hk Hnd']; subst.
    cbn [visit_members kept_members].
    destruct (recursiveDelete r v) as [mv del] eqn:Hv. cbn [fst snd].
    destruct del.
    + apply IH; [exact Hnd'|]. intros k' Hin. apply Hfresh. now right.
    + rewrite map_set_fresh by (apply Hfresh; now left).
      rewrite IH; [now rewrite <- app_assoc | exact Hnd' |].
      intros k' Hin. rewrite map_app, in_app_iff. cbn [map fst In].
      intros [Hacc | [-> | []]].
      * revert Hacc. apply Hfresh. now right.
      * contradiction.
Qed.

(** The element loop: a slice of the kept elements, or the slice
    it started from when none is kept. *)
Lemma visit_items_kept (r : Rule) (l : list (GoVal Float64)) :
  forall modifiedSlice,
    visit_items (recursiveDelete r) l modifiedSlice
    = match kept_items r l with
      | [] => modifiedSlice
      | ks => Some (match modifiedSlice with
                    | None => ks
                    | Some done => (done ++ ks)%list
                    end)
      end.
Proof.
  induction l as [|item l IH]; intro acc; [reflexivity|].
  cbn [visit_items kept_items].
  destruct (recursiveDelete r item) as [mi del]. cbn [fst snd].
  destruct del; [apply IH|].
  rewrite IH. destruct (kept_items r l) as [|k ks], acc as [done|]; cbn [go_append];
    try reflexivity.
  now rewrite <- app_assoc.
Qed.

(** The array case of the walk. *)
Lemma recursiveDelete_slice (r : Rule) (l : list (GoVal Float64)) :
  recursiveDelete r (VSlice (Some l))
  = (VSlice (match kept_items r l with
             | [] => None
             | ks => Some ks
             end), false).
Proof.
  cbn [recursiveDelete]. rewrite visit_items_kept.
  now destruct (kept_items r l).
Qed.

Lemma deleteJsonField_guard (r : Rule) (content : string) :
  looks_like_json content = false -> deleteJsonField r content = content.
Proof.
  unfold looks_like_json, deleteJsonField. intro H.
  apply orb_false_iff in H as [-> ->]. reflexivity.
Qed.

Lemma deleteJsonField_walk (r : Rule) (content : string) (data : GoVal Float64) :
  looks_like_json content = true ->
  json_Unmarshal content = Some data ->
  deleteJsonField r content
  = match json_MarshalIndent (fst (recursiveDelete r data)) "" "  " with
    | Some modifiedBytes => modifiedBytes
    | None => content
    end.
Proof.
  unfold looks_like_json, deleteJsonField. intros H ->.
  destruct (HasPrefix content "{" && HasSuffix content "}");
    destruct (HasPrefix content "[" && HasSuffix content "]");
    try discriminate; cbn [negb andb];
    now destruct (recursiveDelete r data).
Qed.

End WalkFacts.

(** C3 as worded fails.  The document is valid JSON behind one space
    and before a line break; trimmed it has the outer braces, and the
    decoder accepts it as it is.  [deleteJsonField] returns it
    unchanged all the same, where the walk of the trimmed text removes
    the member [a]. *)
Lemma deleteJsonField_padded_json_untouched :
  let r := Examples.mk_delete_json ModeContains "secret" in
  looks_like_json_after_trim Examples.padded_doc = true
  /\ JsonRef.Unmarshal Examples.padded_doc = JsonRef.Unmarshal Examples.secret_doc
  /\ JsonRef.Unmarshal Examples.padded_doc <> None
  /\ @deleteJsonField LiteralRegexp.lib JsonRef.lib r Examples.padded_doc
     = Examples.padded_doc
  /\ @deleteJsonField LiteralRegexp.lib JsonRef.lib r (TrimSpace Examples.padded_doc)
     = Examples.secret_doc_result
  /\ Examples.secret_doc_result <> Examples.padded_doc.
Proof.
  cbv zeta. repeat split; try (vm_compute; reflexivity); vm_compute; discriminate.
Qed.

(** C3 (amended).  The guard looks at the content as it is given,
    nothing is trimmed: content with white space at either end,
    content that does not start with an opening brace and end with a
    closing one (or the same with brackets), and content that does
    not decode are returned byte for byte.  Content that passes the
    guard and decodes becomes the text of the walked tree. *)
Theorem deleteJsonField_unchanged_unless_json :
  (forall (RE : RegexpLib) (JS : JsonLib) (r : Rule) (content : string),
      TrimSpace content <> content
      \/ looks_like_json content = false
      \/ json_Unmarshal content = None ->
      deleteJsonField r content = content)
  /\ (forall (RE : RegexpLib) (JS : JsonLib) (r : Rule) (content : string) data,
        looks_like_json content = true ->
        json_Unmarshal content = Some data ->
        deleteJsonField r content
        = match json_MarshalIndent (fst (recursiveDelete r data)) "" "  " with
          | Some modifiedBytes => modifiedBytes
          | None => content
          end).
Proof.
  split.
  - intros RE JS r content H.
    destruct (looks_like_json content) eqn:Hg.
    + destruct H as [Hpad | [Hno | Hparse]].
      * exfalso. apply Hpad. now apply looks_like_json_trimmed.
      * discriminate.
      * unfold deleteJsonField. rewrite Hparse.
        now destruct (negb _ && negb _).
    + now apply deleteJsonField_guard.
  - intros RE JS r content data. apply deleteJsonField_walk.
Qed.

(** C3 (amended) on plain text, on padded JSON and on broken JSON. *)
Lemma deleteJsonField_unchanged_examples :
  let r := Examples.mk_delete_json ModeContains "secret" in
  @deleteJsonField LiteralRegexp.lib JsonRef.lib r "a secret in plain text"
  = "a secret in plain text"
  /\ @deleteJsonField LiteralRegexp.lib JsonRef.lib r Examples.padded_doc
     = Examples.padded_doc
  /\ @deleteJsonField LiteralRegexp.lib JsonRef.lib r "{secret}" = "{secret}".
Proof.
  cbv zeta. split; [|split].
  - apply (proj1 deleteJsonField_unchanged_unless_json). right. left. reflexivity.
  - apply (proj1 deleteJsonField_unchanged_unless_json). left.
    vm_compute. discriminate.
  - apply (proj1 deleteJsonField_unchanged_unless_json). right. right. reflexivity.
Defined.

(** C4 (the code departs from it).  An array is never deleted as a
    whole: the walk returns a slice of the elements that do not
    signal deleteSelf, with the flag [false], and the example of the
    claim comes out as stated.  But the slice starts out nil and
    stays nil when no element is kept, and the encoder writes a nil
    slice as [null]: an array whose elements all match, and the empty
    array, come out as [null], not as an array. *)
Theorem deleteJsonField_emptied_array_is_null :
  (forall (RE : RegexpLib) (JS : JsonLib) (r : Rule) (l : list (GoVal Float64)),
      recursiveDelete r (VSlice (Some l))
      = (VSlice (match kept_items r l with
                 | [] => None
                 | ks => Some ks
                 end), false))
  /\ (forall RE : RegexpLib,
        let r := Examples.mk_delete_json ModeContains "drop-me" in
        @deleteJsonField RE JsonRef.lib r Examples.drop_doc = Examples.drop_doc_result
        /\ @deleteJsonField RE JsonRef.lib r Examples.all_drop_doc = "null"
        /\ @deleteJsonField RE JsonRef.lib r "[]" = "null").
Proof.
  split.
  - intros. apply recursiveDelete_slice.
  - intro RE. cbv zeta. repeat split; vm_compute; reflexivity.
Qed.

(** C5.  The object case of the walk, for an object (its keys are
    distinct): when some direct member is a string that the rule
    matches, the object signals deleteSelf and its value is nil;
    otherwise it is rebuilt from the members whose visited value does
    not signal deleteSelf, and signals [false].  The test on a leaf
    is [matchString], which is [Match] for an enabled rule.  An
    enclosing array leaves out the elements that signal deleteSelf,
    as an enclosing object does with its members.  On the document
    of the claim, with a contains rule for [secret], the result is
    the text of the object with the one member [b]; a matching
    object at the root, where the caller is [deleteJsonField], is
    written as its nil value. *)
Theorem recursiveDelete_object :
  (forall (RE : RegexpLib) (JS : JsonLib) (r : Rule) (n : list (string * GoVal Float64)),
      NoDup (map fst n) ->
      (member_matches r n -> recursiveDelete r (VMap n) = (VNil, true))
      /\ (~ member_matches r n ->
          recursiveDelete r (VMap n) = (VMap (kept_members r n), false)))
  /\ (forall (RE : RegexpLib) (r : Rule) (s : string),
        Enabled r = true -> Match r s = matchString r s)
  /\ (forall (RE : RegexpLib) (JS : JsonLib) (r : Rule) (l : list (GoVal Float64)),
        exists s, recursiveDelete r (VSlice (Some l)) = (VSlice s, false)
                  /\ match s with
                     | Some ks => ks = kept_items r l
                     | None => kept_items r l = []
                     end)
  /\ (forall RE : RegexpLib,
        let r := Examples.mk_delete_json ModeContains "secret" in
        @deleteJsonField RE JsonRef.lib r Examples.secret_doc = Examples.secret_doc_result
        /\ JsonRef.Unmarshal Examples.secret_doc_result = Some (VMap [("b", VNum 2%Z)])
        /\ @deleteJsonField RE JsonRef.lib r (JsonRef.json_text "{'x': 'secret'}")
           = "null").
Proof.
  split; [|split; [|split]]; cycle 2.
  - intros RE JS r l. rewrite recursiveDelete_slice.
    eexists. split; [reflexivity|]. now destruct (kept_items r l).
  - intro RE. cbv zeta. repeat split; vm_compute; reflexivity.
  - intros RE JS r n Hnd.
    pose proof (has_matching_member_iff r n) as Hiff. fold (member_matches r n) in Hiff.
    split; intro Hm; cbn [recursiveDelete].
    + apply Hiff in Hm. now rewrite Hm.
    + destruct (has_matching_member r n) eqn:Hh.
      * exfalso. apply Hm. now apply Hiff.
      * now rewrite visit_members_kept.
  - intros RE r s. apply Match_enabled.
Qed.

(** C5 on the inner and the outer object of the document. *)
Lemma recursiveDelete_object_secret :
  let r := Examples.mk_delete_json ModeContains "secret" in
  let inner := [("x", VStr "secret"); ("y", VNum 1%Z)] in
  @recursiveDelete LiteralRegexp.lib JsonRef.lib r (VMap inner) = (VNil, true)
  /\ @recursiveDelete LiteralRegexp.lib JsonRef.lib r
       (VMap [("a", VMap inner); ("b", VNum 2%Z)])
     = (VMap [("b", VNum 2%Z)], false).
Proof.
  cbv zeta.
  pose (r := Examples.mk_delete_json ModeContains "secret").
  pose (inner := [("x", @VStr Z "secret"); ("y", VNum 1%Z)]).
  assert (Hnd1 : NoDup (map fst inner))
    by (cbn; repeat constructor; cbn; intuition discriminate).
  assert (Hnd2 : NoDup (map fst [("a", VMap inner); ("b", @VNum Z 2%Z)]))
    by (cbn; repeat constructor; cbn; intuition discriminate).
  split.
  - apply (proj1 (proj1 recursiveDelete_object LiteralRegexp.lib JsonRef.lib
                    r inner Hnd1)).
    exists "x", "secret". split; [now left | reflexivity].
  - refine (eq_trans
              (proj2 (proj1 recursiveDelete_object LiteralRegexp.lib JsonRef.lib
                        r [("a", VMap inner); ("b", VNum 2%Z)] Hnd2)
                 _) _).
    + intros (k & s & [Hin | [Hin | []]] & _); discriminate.
    + reflexivity.
Defined.

(** ** Rules: panics *)

Section PanicFacts.

Context `{RE : RegexpLib} `{JS : JsonLib}.

Lemma validateRule_regex_compiles (r : Rule) (index : nat) :
  validateRule r index = None ->
  Mode r = ModeRegex ->
  exists re, regexp_Compile (Pattern r) = Some re.
Proof.
  unfold validateRule. intros Hv Hm. rewrite Hm in Hv.
  repeat match type of Hv with
         | (if ?b then _ else _) = None =>
             let E := fresh "E" in
             destruct b eqn:E; try discriminate; try (vm_compute in E; discriminate E)
         end.
  destruct (regexp_Compile (Pattern r)) as [re|]; [now exists re | discriminate].
Qed.

Lemma deleteContent_returns (r : Rule) (content : string) :
  (Mode r = ModeRegex -> exists re, regexp_Compile (Pattern r) = Some re) ->
  exists out, deleteContent r content = Ret out.
Proof.
  intro Hre. unfold deleteContent, regexp_MustCompile.
  repeat match goal with
         | |- exists out, (if ?b then _ else _) = _ => destruct b eqn:?
         end; try (eexists; reflexivity).
  destruct Hre as [re ->]; [now apply String.eqb_eq|].
  eexists; reflexivity.
Qed.

Lemma replaceContent_returns (r : Rule) (content : string) :
  (Mode r = ModeRegex -> exists re, regexp_Compile (Pattern r) = Some re) ->
  exists out, replaceContent r content = Ret out.
Proof.
  intro Hre. unfold replaceContent, regexp_MustCompile.
  repeat match goal with
         | |- exists out, (if ?b then _ else _) = _ => destruct b eqn:?
         end; try (eexists; reflexivity).
  destruct Hre as [re ->]; [now apply String.eqb_eq|].
  eexists; reflexivity.
Qed.

(** A regex rule that [Match] accepts has a pattern that compiles. *)
Lemma Match_regex_compiles (r : Rule) (content : string) :
  Match r content = true ->
  Mode r = ModeRegex ->
  exists re, regexp_Compile (Pattern r) = Some re.
Proof.
  unfold Match, matchString, regexp_MatchString. intros Hm Hmode.
  rewrite Hmode in Hm. cbn in Hm.
  destruct (negb (Enabled r)); [discriminate|].
  destruct (regexp_Compile (Pattern r)) as [re|]; [now exists re | discriminate].
Qed.

(** [Apply] returns on every rule, validated or not: the regex
    branches are entered only after [Match] has compiled the
    pattern. *)
Lemma Apply_returns (r : Rule) (content : string) :
  exists out, Apply r content = Ret out.
Proof.
  unfold Apply.
  destruct (String.eqb (Action r) ActionDeleteJsonField) eqn:Hj.
  - apply String.eqb_eq in Hj. rewrite Hj. cbn. eexists; reflexivity.
  - cbn [negb andb]. destruct (Match r content) eqn:Hm; cbn [negb].
    + destruct (String.eqb (Action r) ActionDelete);
        [apply deleteContent_returns; now apply Match_regex_compiles with content|].
      destruct (String.eqb (Action r) ActionReplace);
        [apply replaceContent_returns; now apply Match_regex_compiles with content|].
      eexists; reflexivity.
    + eexists; reflexivity.
Qed.

(** C9.  For a rule that [validateRule] accepts, [Apply] returns on
    every content, and so do [deleteContent] and [replaceContent]
    called on their own: when the mode is regex, [MustCompile]
    returns the compiled pattern. *)
Theorem Apply_returns_when_validated (r : Rule) (index : nat) (content : string) :
  validateRule r index = None ->
  (exists out, Apply r content = Ret out)
  /\ (exists out, deleteContent r content = Ret out)
  /\ (exists out, replaceContent r content = Ret out)
  /\ (Mode r = ModeRegex -> exists re, regexp_MustCompile (Pattern r) = Ret re).
Proof.
  intro Hv. pose proof (validateRule_regex_compiles r index Hv) as Hre.
  split; [apply Apply_returns|].
  split; [now apply deleteContent_returns|].
  split; [now apply replaceContent_returns|].
  intro Hm. destruct (Hre Hm) as [re Hc]. exists re.
  unfold regexp_MustCompile. now rewrite Hc.
Qed.

End PanicFacts.

(** C9 on a validated regex rule; the same call on a rule that was
    not validated, whose pattern does not compile, panics. *)
Lemma Apply_returns_when_validated_regex :
  let r := Examples.rule_regex "secret" in
  @validateRule LiteralRegexp.lib r 0 = None
  /\ @Apply LiteralRegexp.lib JsonRef.lib r "a secret here" = Ret "a  here"
  /\ @deleteContent LiteralRegexp.lib r "a secret here" = Ret "a  here"
  /\ @deleteContent LiteralRegexp.lib (Examples.rule_regex "(unclosed") "text" = Panic.
Proof.
  cbv zeta.
  destruct (@Apply_returns_when_validated LiteralRegexp.lib JsonRef.lib
              (Examples.rule_regex "secret") 0 "a secret here" eq_refl)
    as ([out Ha] & [out' Hd] & _).
  repeat split; reflexivity.
Defined.

(** ** Engine: [Process] *)

Section ProcessFacts.

Context `{RE : RegexpLib} `{JS : JsonLib}.

Lemma apply_all_Panic (rs : list Rule) :
  fold_left (fun acc r => c <- acc ;; Apply r c) rs Panic = Panic.
Proof. induction rs as [|r rs IH]; [reflexivity | exact IH]. Qed.

Lemma apply_all_cons (r : Rule) (rs : list Rule) (content : string) :
  apply_all (r :: rs) content = (c <- Apply r content ;; apply_all rs c).
Proof.
  unfold apply_all. cbn [fold_left bind].
  destruct (Apply r content) as [c|]; [reflexivity | apply apply_all_Panic].
Qed.

(** For an action other than delete_json_field, [Apply] consults
    [Match] itself, so the test in the loop of [Process] changes
    nothing. *)
Lemma gated_Apply_is_Apply (r : Rule) (content : string) :
  Action r <> ActionDeleteJsonField -> gated_Apply r content = Apply r content.
Proof.
  intro Ha. unfold gated_Apply, Apply.
  apply String.eqb_neq in Ha. rewrite Ha.
  now destruct (Match r content).
Qed.

(** What the loop of [Process] computes on an engine that has not
    been stopped: the fold of the gated steps over the enabled
    rules. *)
Lemma process_rules_gated (rs : list Rule) :
  forall content,
    process_rules false rs content
    = (c <- fold_left (fun acc r => c <- acc ;; gated_Apply r c)
              (filter IsEnabled rs) (Ret content) ;;
       Ret (c, None)).
Proof.
  induction rs as [|r rs IH]; intro content; [reflexivity|].
  cbn [process_rules filter]. destruct (IsEnabled r); cbn [negb]; [|apply IH].
  cbn [fold_left bind]. fold (gated_Apply r content).
  destruct (gated_Apply r content) as [c|]; cbn [bind]; [apply IH|].
  clear. induction (filter IsEnabled rs) as [|r' l IHl]; [reflexivity | exact IHl].
Qed.

Lemma process_rules_fold (rs : list Rule) :
  Forall (fun r => Enabled r = true -> Action r <> ActionDeleteJsonField) rs ->
  forall content,
    process_rules false rs content
    = (c <- apply_all (filter IsEnabled rs) content ;; Ret (c, None)).
Proof.
  induction rs as [|r rs IH]; intros Hall content; [reflexivity|].
  inversion Hall as [|? ? Hr Hrs]; subst.
  cbn [process_rules filter]. unfold IsEnabled at 1 2.
  destruct (Enabled r) eqn:He; cbn [negb]; [|now apply IH].
  rewrite apply_all_cons. fold (gated_Apply r content).
  rewrite gated_Apply_is_Apply by now apply Hr.
  destruct (Apply r content) as [c|]; cbn [bind]; [now apply IH | reflexivity].
Qed.

Lemma Process_unfold (e : Engine) (content : string) :
  Process e content = process_rules (ctx_done e) (rules e) content.
Proof. unfold Process. now destruct (rules e). Qed.

End ProcessFacts.

(** C2 (the code departs from it).  [Apply] runs the JSON walk of a
    delete_json_field rule without consulting [Match], but the loop
    of [Process] calls [Apply] only on content that [Match] accepts.
    With a prefix rule for [secret] the body does not start with the
    pattern: [Process] returns the document unchanged, where [Apply]
    removes the member [a]. *)
Theorem Process_gates_delete_json_field :
  let r := Examples.mk_delete_json ModePrefix "secret" in
  let e := Examples.engine_of [r] false in
  Enabled r = true
  /\ @Match LiteralRegexp.lib r Examples.secret_doc = false
  /\ @Process LiteralRegexp.lib JsonRef.lib e Examples.secret_doc
     = Ret (Examples.secret_doc, None)
  /\ @Apply LiteralRegexp.lib JsonRef.lib r Examples.secret_doc
     = Ret Examples.secret_doc_result
  /\ Examples.secret_doc_result <> Examples.secret_doc.
Proof.
  cbv zeta. repeat split; try (vm_compute; reflexivity). vm_compute. discriminate.
Qed.

(** C6 as worded fails.  On a stopped engine [Process] reports an
    error after the first enabled rule, where the fold of [Apply]
    gives a content; and a delete_json_field rule is applied by
    [Process] only when [Match] accepts the whole content. *)
Lemma Process_differs_from_fold_of_Apply :
  (@Process LiteralRegexp.lib JsonRef.lib
     (Examples.engine_of [Examples.rule_a_to_b] true) "a"
   = Ret ("", Some ErrEngineStopped)
   /\ @apply_all LiteralRegexp.lib JsonRef.lib [Examples.rule_a_to_b] "a" = Ret "b")
  /\ (let r := Examples.mk_delete_json ModePrefix "secret" in
      @Process LiteralRegexp.lib JsonRef.lib (Examples.engine_of [r] false)
        Examples.secret_doc
      = Ret (Examples.secret_doc, None)
      /\ @apply_all LiteralRegexp.lib JsonRef.lib [r] Examples.secret_doc
         = Ret Examples.secret_doc_result
      /\ Examples.secret_doc_result <> Examples.secret_doc).
Proof.
  cbv zeta. repeat split; try (vm_compute; reflexivity). vm_compute. discriminate.
Qed.

(** C6 (amended).  On an engine that has not been stopped, and when
    no enabled rule has the action delete_json_field, [Process]
    returns without error the left fold of [Apply] over the enabled
    rules in list order, each rule on the output of the one before;
    disabled rules contribute nothing.  For two such enabled rules
    [A] and [B] that is [Apply B] of [Apply A].  On an empty rule list
    [Process] is the identity, stopped or not. *)
Theorem Process_is_fold_of_Apply :
  (forall (RE : RegexpLib) (JS : JsonLib) (e : Engine) (content : string),
      ctx_done e = false ->
      Forall (fun r => Enabled r = true -> Action r <> ActionDeleteJsonField) (rules e) ->
      Process e content
      = (c <- apply_all (filter IsEnabled (rules e)) content ;; Ret (c, None)))
  /\ (forall (RE : RegexpLib) (JS : JsonLib) (e : Engine) (A B : Rule) (content : string),
        ctx_done e = false ->
        rules e = [A; B] ->
        Enabled A = true -> Enabled B = true ->
        Action A <> ActionDeleteJsonField -> Action B <> ActionDeleteJsonField ->
        Process e content
        = (a <- Apply A content ;; b <- Apply B a ;; Ret (b, None)))
  /\ (forall (RE : RegexpLib) (JS : JsonLib) (e : Engine) (content : string),
        rules e = [] -> Process e content = Ret (content, None)).
Proof.
  split; [|split].
  - intros RE JS e content Hrun Hall.
    rewrite Process_unfold, Hrun. now apply process_rules_fold.
  - intros RE JS e A B content Hrun Hrules HA HB HaA HaB.
    rewrite Process_unfold, Hrun, Hrules.
    rewrite process_rules_fold by (repeat constructor; trivial).
    cbn [filter]. unfold IsEnabled. rewrite HA, HB.
    rewrite apply_all_cons. destruct (Apply A content) as [a|]; cbn [bind]; [|reflexivity].
    rewrite apply_all_cons. destruct (Apply B a) as [b|]; reflexivity.
  - intros RE JS e content Hrules. unfold Process. now rewrite Hrules.
Qed.

(** C6 (amended) on a replace rule followed by a delete rule, with a
    disabled rule between them. *)
Lemma Process_is_fold_of_Apply_two_rules :
  let off := {| Name := "off"; Enabled := false; Mode := ModeContains; Pattern := "b";
                Action := ActionReplace; Value := "zzz" |} in
  let e := Examples.engine_of [Examples.rule_a_to_b; off; Examples.rule_drop_b] false in
  @Process LiteralRegexp.lib JsonRef.lib e "abc" = Ret ("c", None)
  /\ @Process LiteralRegexp.lib JsonRef.lib
       (Examples.engine_of [Examples.rule_drop_b; Examples.rule_a_to_b] false) "abc"
     = Ret ("bc", None).
Proof.
  cbv zeta. split.
  - refine (eq_trans
              (proj1 Process_is_fold_of_Apply LiteralRegexp.lib JsonRef.lib
                 (Examples.engine_of
                    [Examples.rule_a_to_b;
                     {| Name := "off"; Enabled := false; Mode := ModeContains;
                        Pattern := "b"; Action := ActionReplace; Value := "zzz" |};
                     Examples.rule_drop_b] false)
                 "abc" eq_refl _) _).
    + repeat constructor; discriminate.
    + reflexivity.
  - refine (eq_trans
              (proj1 (proj2 Process_is_fold_of_Apply) LiteralRegexp.lib JsonRef.lib
                 (Examples.engine_of [Examples.rule_drop_b; Examples.rule_a_to_b] false)
                 Examples.rule_drop_b Examples.rule_a_to_b "abc"
                 eq_refl eq_refl eq_refl eq_refl _ _) _).
    + discriminate.
    + discriminate.
    + reflexivity.
Defined.

(** ** Engine: loading rules *)

Section LoadFacts.

Context `{RE : RegexpLib} `{FS : RuleFiles}.

Lemma rule_defective_rejected (r : Rule) (index : nat) :
  rule_defective r -> validateRule r index <> None.
Proof.
  unfold rule_defective, validateRule.
  intros [H | [H | [H | [H | [[Ha Hv] | [Hm Hc]]]]]];
    try rewrite H; try rewrite Ha; try rewrite Hv; try rewrite Hm; try rewrite Hc;
    repeat match goal with
           | |- (if ?b then _ else _) <> None =>
               let E := fresh "E" in
               destruct b eqn:E; try discriminate; try (vm_compute in E; discriminate E)
           end.
Qed.

Lemma validateRules_from_rejects (rs : list Rule) (r : Rule) :
  In r rs -> rule_defective r ->
  forall i, validateRules_from i rs <> None.
Proof.
  intros Hin Hbad. induction rs as [|r' rs IH]; intro i; [contradiction|].
  cbn [validateRules_from].
  destruct (validateRule r' i) as [err|] eqn:Hv; [discriminate|].
  destruct Hin as [-> | Hin].
  - exfalso. exact (rule_defective_rejected i Hbad Hv).
  - now apply IH.
Qed.

Lemma load_paths_missing (paths : list string) (p : string) (err : error) :
  In p paths -> loadSingleRulesFile p = inr err ->
  forall allRules, exists err', load_paths paths allRules = inr err'.
Proof.
  intros Hin Hp. induction paths as [|q paths IH]; intro acc; [contradiction|].
  cbn [load_paths].
  destruct (loadSingleRulesFile q) as [rs|e] eqn:Hq; [|now eexists].
  destruct Hin as [-> | Hin]; [congruence | now apply IH].
Qed.

Lemma unusable_file_fails (p : string) :
  file_unusable p -> exists err, loadSingleRulesFile p = inr err.
Proof.
  unfold file_unusable, loadSingleRulesFile.
  intros [-> | [Hr | (data & err & Hr & Hd)]]; [now eexists | |].
  - rewrite Hr. destruct (negb (os_exists p)); now eexists.
  - rewrite Hr, Hd. destruct (negb (os_exists p)); now eexists.
Qed.

Lemma LoadRules_reads (e : Engine) :
  LoadRules e
  = match LoadRulesFromPaths (paths_read e) with
    | inr err => (e, Some (ErrLoadRules err))
    | inl newRules => (UpdateRules e newRules, None)
    end.
Proof.
  unfold LoadRules, paths_read, config_LoadRules.
  now destruct (1 <? List.length (rulesPaths e))%nat.
Qed.

(** C8.  A load that reports an error leaves the engine, and so
    what [GetRules] returns, as it was.  The load reports an error
    when a rule file is missing, cannot be read or does not decode,
    and when the files are read but hold a rule that validation
    rejects (an empty name, mode, pattern or action, a replace rule
    with an empty value, a regex that does not compile). *)
Theorem LoadRules_all_or_nothing (e : Engine) :
  (forall e' err, LoadRules e = (e', Some err) -> e' = e /\ GetRules e' = GetRules e)
  /\ (forall p,
        In p (paths_read e) -> file_unusable p ->
        exists err, LoadRules e = (e, Some err))
  /\ (forall allRules r,
        load_paths (paths_read e) [] = inl allRules ->
        In r allRules -> rule_defective r ->
        exists err, LoadRules e = (e, Some err)).
Proof.
  rewrite LoadRules_reads. split; [|split].
  - intros e' err H.
    destruct (LoadRulesFromPaths (paths_read e)); [discriminate|].
    injection H as <- _. now split.
  - intros p Hin Hbad. unfold LoadRulesFromPaths.
    destruct (unusable_file_fails Hbad) as [err Hp].
    destruct (load_paths_missing (paths_read e) p Hin Hp []) as [err' ->]. now eexists.
  - intros allRules r Hload Hin Hbad. unfold LoadRulesFromPaths, validateRules.
    rewrite Hload.
    destruct (validateRules_from 0 allRules) as [verr|] eqn:Hv; [now eexists|].
    exfalso. exact (validateRules_from_rejects allRules Hin Hbad 0 Hv).
Qed.

End LoadFacts.

(** C8 on an engine whose rule file now holds a regex that does not
    compile, on one whose rule file is gone and on one whose rule
    file does not decode; a load of a good file replaces the rules. *)
Lemma LoadRules_all_or_nothing_examples :
  let e := Examples.engine_of [Examples.rule_drop_b] false in
  (exists err, @LoadRules LiteralRegexp.lib Examples.bad_regex_files e = (e, Some err))
  /\ (exists err, @LoadRules LiteralRegexp.lib Examples.no_files e = (e, Some err))
  /\ (exists err, @LoadRules LiteralRegexp.lib Examples.malformed_files e = (e, Some err))
  /\ GetRules (fst (@LoadRules LiteralRegexp.lib Examples.good_files e))
     = [Examples.rule_a_to_b].
Proof.
  cbv zeta. split; [|split; [|split]].
  - apply (proj2 (proj2 (@LoadRules_all_or_nothing LiteralRegexp.lib
                           Examples.bad_regex_files
                           (Examples.engine_of [Examples.rule_drop_b] false)))
             [Examples.rule_a_to_b; Examples.rule_regex "(unclosed"]
             (Examples.rule_regex "(unclosed") eq_refl).
    + right. now left.
    + unfold rule_defective. do 5 right. split; reflexivity.
  - apply (proj1 (proj2 (@LoadRules_all_or_nothing LiteralRegexp.lib Examples.no_files
                           (Examples.engine_of [Examples.rule_drop_b] false)))
             "configs/rules.yaml").
    + now left.
    + left. reflexivity.
  - apply (proj1 (proj2 (@LoadRules_all_or_nothing LiteralRegexp.lib
                           Examples.malformed_files
                           (Examples.engine_of [Examples.rule_drop_b] false)))
             "configs/rules.yaml").
    + now left.
    + right. right. exists "rules: [", (ErrDecode "rules: ["). split; reflexivity.
  - reflexivity.
Defined.

(** * Further properties *)

(** ** Engine: disabled rules, stopping, panics *)

Section EngineMoreFacts.

Context `{RE : RegexpLib} `{JS : JsonLib} `{FS : RuleFiles}.

Lemma process_rules_enabled_only (done : bool) (rs : list Rule) :
  forall content,
    process_rules done rs content = process_rules done (filter IsEnabled rs) content.
Proof.
  induction rs as [|r rs IH]; intro content; [reflexivity|].
  cbn [process_rules filter]. destruct (IsEnabled r) eqn:He; cbn [negb]; [|apply IH].
  cbn [process_rules]. rewrite He. cbn [negb].
  destruct (if Match r content then Apply r content else Ret content) as [c|];
    cbn [bind]; [|reflexivity].
  destruct done; [reflexivity | apply IH].
Qed.

(** X1.  What [Process] returns depends on the enabled rules only:
    it is what [Process] returns on the engine whose rule list is
    [GetEnabledRules], for every rule list, every content, stopped
    or not. *)
Theorem Process_ignores_disabled_rules (e : Engine) (content : string) :
  Process e content = Process (UpdateRules e (GetEnabledRules e)) content.
Proof.
  rewrite !Process_unfold. cbn [UpdateRules rules ctx_done]. unfold GetEnabledRules.
  apply process_rules_enabled_only.
Qed.

Lemma gated_returns (r : Rule) (content : string) :
  exists out, (if Match r content then Apply r content else Ret content) = Ret out.
Proof.
  destruct (Match r content); [apply Apply_returns | now eexists].
Qed.

Lemma process_rules_running (rs : list Rule) :
  forall content, exists out, process_rules false rs content = Ret (out, None).
Proof.
  induction rs as [|r rs IH]; intro content; [now eexists|].
  cbn [process_rules]. destruct (IsEnabled r); cbn [negb]; [|apply IH].
  destruct (gated_returns r content) as [out ->]. cbn [bind]. apply IH.
Qed.

Lemma process_rules_stopped (rs : list Rule) (content : string) :
  process_rules true rs content
  = if existsb IsEnabled rs then Ret ("", Some ErrEngineStopped) else Ret (content, None).
Proof.
  induction rs as [|r rs IH]; [reflexivity|].
  cbn [process_rules existsb]. destruct (IsEnabled r); cbn [negb orb]; [|exact IH].
  now destruct (gated_returns r content) as [out ->].
Qed.

(** X2.  [Process] never panics, whatever the rules (validated or
    not).  On an engine that has not been stopped it reports no
    error.  On a stopped engine it reports the stop error with an
    empty content as soon as one rule is enabled, and returns the
    content unchanged when none is. *)
Theorem Process_returns (e : Engine) (content : string) :
  if ctx_done e
  then Process e content
       = (if existsb IsEnabled (rules e) then Ret ("", Some ErrEngineStopped)
          else Ret (content, None))
  else exists out, Process e content = Ret (out, None).
Proof.
  rewrite Process_unfold. destruct (ctx_done e).
  - apply process_rules_stopped.
  - apply process_rules_running.
Qed.

Lemma set_enabled_first_spec (name : string) (rs : list Rule) :
  match find_rule name rs with
  | None => forall enabled, set_enabled_first name enabled rs = None
  | Some r =>
      exists before after,
        rs = (before ++ r :: after)%list
        /\ Forall (fun x => Name x <> name) before
        /\ forall enabled,
             set_enabled_first name enabled rs
             = Some (before ++ SetEnabled r enabled :: after)%list
  end.
Proof.
  induction rs as [|x rs IH]; [intro; reflexivity|].
  cbn [find_rule set_enabled_first].
  destruct (String.eqb_spec (Name x) name) as [Hx|Hx].
  - exists [], rs. split; [reflexivity|]. split; [constructor | reflexivity].
  - destruct (find_rule name rs) as [r|].
    + destruct IH as (before & after & -> & Hb & Hset).
      exists (x :: before), after. split; [reflexivity|].
      split; [now constructor|].
      intro enabled. now rewrite Hset.
    + intro enabled. now rewrite IH.
Qed.

(** X3.  [EnableRule] and [DisableRule] act on the first rule of the
    given name and on nothing else: its flag is set, every other
    rule, the order and the rest of the engine stay as they were.
    When no rule has the name they report an error and leave the
    engine unchanged. *)
Theorem EnableRule_DisableRule_first_match (e : Engine) (name : string) :
  match GetRuleByName e name with
  | None =>
      EnableRule e name = (e, Some (ErrRuleNotFound name))
      /\ DisableRule e name = (e, Some (ErrRuleNotFound name))
  | Some r =>
      exists before after,
        rules e = (before ++ r :: after)%list
        /\ Forall (fun x => Name x <> name) before
        /\ EnableRule e name
           = (UpdateRules e (before ++ SetEnabled r true :: after), None)
        /\ DisableRule e name
           = (UpdateRules e (before ++ SetEnabled r false :: after), None)
  end.
Proof.
  unfold GetRuleByName, EnableRule, DisableRule, set_rule_enabled.
  pose proof (set_enabled_first_spec name (rules e)) as H.
  destruct (find_rule name (rules e)) as [r|].
  - destruct H as (before & after & Hrs & Hb & Hset).
    exists before, after. rewrite !Hset. repeat split; assumption.
  - rewrite !H. now split.
Qed.

End EngineMoreFacts.

(** ** Engine: switching rules, statistics, construction *)

Section EngineStateFacts.

Context `{RE : RegexpLib} `{JS : JsonLib} `{FS : RuleFiles}.

Lemma find_rule_name (name : string) (rs : list Rule) (r : Rule) :
  find_rule name rs = Some r -> Name r = name.
Proof.
  induction rs as [|x rs IH]; [discriminate|]. cbn [find_rule].
  destruct (String.eqb_spec (Name x) name) as [Hx|_]; [|exact IH].
  now intros [= <-].
Qed.

Lemma find_rule_split (name : string) (rs : list Rule) (r : Rule) :
  find_rule name rs = Some r ->
  exists before after,
    rs = (before ++ r :: after)%list /\ Forall (fun x => Name x <> name) before.
Proof.
  induction rs as [|x rs IH]; [discriminate|]. cbn [find_rule].
  destruct (String.eqb_spec (Name x) name) as [Hx|Hx].
  - intros [= <-]. exists [], rs. split; [reflexivity | constructor].
  - intro H. destruct (IH H) as (before & after & -> & Hb).
    exists (x :: before), after. split; [reflexivity | now constructor].
Qed.

Lemma find_rule_at (name : string) (before after : list Rule) (x : Rule) :
  Forall (fun y => Name y <> name) before -> Name x = name ->
  find_rule name (before ++ x :: after) = Some x.
Proof.
  intros Hb Hx. induction Hb as [|y before Hy _ IH]; cbn [app find_rule].
  - apply String.eqb_eq in Hx. now rewrite Hx.
  - apply String.eqb_neq in Hy. now rewrite Hy.
Qed.

Lemma set_enabled_first_at (name : string) (enabled : bool)
      (before after : list Rule) (x : Rule) :
  Forall (fun y => Name y <> name) before -> Name x = name ->
  set_enabled_first name enabled (before ++ x :: after)
  = Some (before ++ SetEnabled x enabled :: after)%list.
Proof.
  intros Hb Hx. induction Hb as [|y before Hy _ IH]; cbn [app set_enabled_first].
  - apply String.eqb_eq in Hx. now rewrite Hx.
  - apply String.eqb_neq in Hy. now rewrite Hy, IH.
Qed.

(** X4.  Disabling an enabled rule and enabling it again gives the
    engine back; in between [GetRuleByName] reports the rule
    disabled, and disabling it a second time changes nothing. *)
Theorem DisableRule_EnableRule_round_trip (e : Engine) (name : string) (r : Rule) :
  GetRuleByName e name = Some r ->
  Enabled r = true ->
  fst (EnableRule (fst (DisableRule e name)) name) = e
  /\ GetRuleByName (fst (DisableRule e name)) name = Some (SetEnabled r false)
  /\ fst (DisableRule (fst (DisableRule e name)) name) = fst (DisableRule e name).
Proof.
  unfold GetRuleByName, EnableRule, DisableRule, set_rule_enabled.
  intros Hfind Hen. pose proof (find_rule_name _ _ Hfind) as Hname.
  destruct (find_rule_split _ _ Hfind) as (before & after & Hrs & Hb).
  destruct e as [rs rp rps done]. cbn [rules rulesPath rulesPaths ctx_done] in *.
  subst rs. rewrite (@set_enabled_first_at name false before after r Hb Hname).
  cbn [fst rules rulesPath rulesPaths ctx_done].
  rewrite (@set_enabled_first_at name true before after (SetEnabled r false) Hb Hname).
  rewrite (@set_enabled_first_at name false before after (SetEnabled r false) Hb Hname).
  rewrite (@find_rule_at name before after (SetEnabled r false) Hb Hname).
  cbn [fst]. repeat split.
  destruct r as [n en m p a v]. cbn in Hen. subst en. reflexivity.
Qed.

Lemma count_rules_spec (rs : list Rule) :
  forall enabled disabled,
    (0 <= enabled)%Z -> (0 <= disabled)%Z ->
    (enabled + disabled + Z.of_nat (List.length rs) <= max_int)%Z ->
    count_rules rs enabled disabled
    = ((enabled + Z.of_nat (List.length (filter IsEnabled rs)))%Z,
       (disabled + Z.of_nat (List.length rs)
        - Z.of_nat (List.length (filter IsEnabled rs)))%Z).
Proof.
  induction rs as [|r rs IH]; intros a b Ha Hb Hmax.
  - cbn. f_equal; lia.
  - cbn [count_rules filter List.length] in *.
    pose proof (filter_length_le IsEnabled rs) as Hle.
    destruct (IsEnabled r); rewrite wrap_int_small by lia;
      rewrite IH by lia; cbn [List.length]; f_equal; lia.
Qed.

(** X5.  The counters of [GetStats] (on a rule list whose length
    fits Go's [int]): [enabled_rules] is the length of
    [GetEnabledRules], [total_rules] is the length of [GetRules],
    and the enabled and the disabled rules add up to the total. *)
Theorem GetStats_counts (e : Engine) :
  (Z.of_nat (List.length (rules e)) <= max_int)%Z ->
  enabled_rules (GetStats e) = Z.of_nat (List.length (GetEnabledRules e))
  /\ total_rules (GetStats e) = Z.of_nat (List.length (GetRules e))
  /\ (enabled_rules (GetStats e) + disabled_rules (GetStats e)
      = total_rules (GetStats e))%Z.
Proof.
  intro Hmax. unfold GetStats, GetEnabledRules, GetRules.
  rewrite count_rules_spec by lia.
  cbn [enabled_rules disabled_rules total_rules]. repeat split; lia.
Qed.

Lemma paths_read_new (first : string) (rest : list string) (rs : list Rule) (done : bool) :
  paths_read {| rules := rs; rulesPath := first;
                rulesPaths := first :: rest; ctx_done := done |}
  = first :: rest.
Proof.
  unfold paths_read. cbn [rulesPaths rulesPath List.length].
  now destruct rest.
Qed.

(** X6.  [NewEngineFromPaths] panics on an empty path list.  On any
    other list it returns an engine that is not stopped, keeps the
    paths, and reloads from exactly those paths; its rules are the
    loaded ones, or, when the first load fails, none at all, and
    then [Process] returns every content unchanged. *)
Theorem NewEngineFromPaths_result :
  NewEngineFromPaths [] = Panic
  /\ forall first rest,
       exists e,
         NewEngineFromPaths (first :: rest) = Ret e
         /\ ctx_done e = false
         /\ rulesPaths e = first :: rest
         /\ paths_read e = first :: rest
         /\ match LoadRulesFromPaths (first :: rest) with
            | inl loaded => rules e = loaded
            | inr _ => rules e = [] /\ forall content, Process e content = Ret (content, None)
            end.
Proof.
  split; [reflexivity|]. intros first rest.
  unfold NewEngineFromPaths. cbn [go_index List.length bind]. eexists.
  replace ((0 <=? 0)%Z && (0 <? Z.of_nat (S (List.length rest)))%Z) with true
    by (symmetry; apply andb_true_iff; split; [reflexivity | apply Z.ltb_lt; lia]).
  cbn [Z.to_nat nth_error bind]. split; [reflexivity|].
  rewrite LoadRules_reads, paths_read_new.
  destruct (LoadRulesFromPaths (first :: rest)) as [loaded|err];
    unfold UpdateRules; cbn [fst ctx_done rulesPaths rules rulesPath];
    rewrite ?paths_read_new; repeat split.
Qed.

Lemma load_paths_inl (paths : list string) :
  forall acc allRules,
    load_paths paths acc = inl allRules
    <-> exists files,
          Forall2 (fun p rs => loadSingleRulesFile p = inl rs) paths files
          /\ allRules = (acc ++ concat files)%list.
Proof.
  induction paths as [|p paths IH]; intros acc allRules; cbn [load_paths].
  - split.
    + intros [= <-]. exists []. split; [constructor | now rewrite app_nil_r].
    + intros (files & Hf & ->). inversion Hf; subst. cbn. now rewrite app_nil_r.
  - destruct (loadSingleRulesFile p) as [rs|err] eqn:Hp.
    + rewrite IH. split.
      * intros (files & Hf & ->). exists (rs :: files).
        split; [now constructor | cbn; now rewrite app_assoc].
      * intros (files & Hf & ->). inversion Hf as [|? rs' ? files' Hrs Hrest]; subst.
        rewrite Hp in Hrs. injection Hrs as <-.
        exists files'. split; [exact Hrest | cbn; now rewrite app_assoc].
    + split; [discriminate|].
      intros (files & Hf & _). inversion Hf as [|? rs' ? files' Hrs Hrest]; subst.
      rewrite Hp in Hrs. discriminate.
Qed.

(** X7.  [LoadRulesFromPaths] succeeds exactly when every file
    loads and the rules of all files, concatenated in the order of
    the paths, pass [validateRules] as one list; it then returns
    that concatenation. *)
Theorem LoadRulesFromPaths_success (paths : list string) (allRules : list Rule) :
  LoadRulesFromPaths paths = inl allRules
  <-> (exists files,
          Forall2 (fun p rs => loadSingleRulesFile p = inl rs) paths files
          /\ allRules = concat files)
      /\ validateRules allRules = None.
Proof.
  unfold LoadRulesFromPaths. split.
  - destruct (load_paths paths []) as [loaded|err] eqn:Hl; [|discriminate].
    destruct (validateRules loaded) eqn:Hv; [discriminate|].
    intros [= <-]. split; [|exact Hv]. now apply load_paths_inl in Hl.
  - intros [Hfiles Hv].
    assert (Hl : load_paths paths [] = inl allRules) by now apply load_paths_inl.
    now rewrite Hl, Hv.
Qed.

(** X8.  A reload of the watcher with the callback that [main]
    registers.  When a watched file is missing, unreadable or does
    not decode, or when the files hold a rule that validation
    rejects, the rules of the watcher and the engine are both left
    as they were.  When loading succeeds both hold the loaded rules
    and the engine is otherwise unchanged. *)
Theorem Watcher_reloadRules_all_or_nothing (w : Watcher) (e : Engine) :
  (forall p,
      In p (w_rulesPath w) -> file_unusable p ->
      Watcher_reloadRules (Some main_callback) w e = (w, e))
  /\ (forall allRules r,
        load_paths (w_rulesPath w) [] = inl allRules ->
        In r allRules -> rule_defective r ->
        Watcher_reloadRules (Some main_callback) w e = (w, e))
  /\ (forall loaded,
        LoadRulesFromPaths (w_rulesPath w) = inl loaded ->
        Watcher_reloadRules (Some main_callback) w e
        = ({| w_rules := loaded; w_rulesPath := w_rulesPath w |}, UpdateRules e loaded)
        /\ GetRules (snd (Watcher_reloadRules (Some main_callback) w e)) = loaded).
Proof.
  unfold Watcher_reloadRules, Watcher_loadRules, main_callback.
  split; [|split].
  - intros p Hin Hbad. unfold LoadRulesFromPaths.
    destruct (unusable_file_fails Hbad) as [err Hp].
    now destruct (load_paths_missing (w_rulesPath w) p Hin Hp []) as [err' ->].
  - intros allRules r Hload Hin Hbad. unfold LoadRulesFromPaths, validateRules.
    rewrite Hload.
    destruct (validateRules_from 0 allRules) as [verr|] eqn:Hv; [reflexivity|].
    exfalso. exact (validateRules_from_rejects allRules Hin Hbad 0 Hv).
  - intros loaded ->. now split.
Qed.

End EngineStateFacts.

(** X4 on an engine with two rules. *)
Lemma DisableRule_EnableRule_round_trip_example :
  let e := Examples.engine_of [Examples.rule_a_to_b; Examples.rule_drop_b] false in
  GetRuleByName e "drop-b" = Some Examples.rule_drop_b
  /\ fst (EnableRule (fst (DisableRule e "drop-b")) "drop-b") = e
  /\ @Process LiteralRegexp.lib JsonRef.lib (fst (DisableRule e "drop-b")) "abc"
     = Ret ("bbc", None).
Proof.
  cbv zeta. split; [reflexivity|]. split; [|reflexivity].
  exact (proj1 (@DisableRule_EnableRule_round_trip
                  (Examples.engine_of [Examples.rule_a_to_b; Examples.rule_drop_b] false)
                  "drop-b" Examples.rule_drop_b eq_refl eq_refl)).
Defined.

(** X5 on an engine with one enabled and one disabled rule. *)
Lemma GetStats_counts_example :
  let e := Examples.engine_of
             [Examples.rule_a_to_b; SetEnabled Examples.rule_drop_b false] false in
  GetStats e = {| total_rules := 2; enabled_rules := 1; disabled_rules := 1 |}
  /\ enabled_rules (GetStats e) = Z.of_nat (List.length (GetEnabledRules e)).
Proof.
  cbv zeta. split; [reflexivity|].
  refine (proj1 (@GetStats_counts _ _)). vm_compute. discriminate.
Defined.

(** X8 on a watcher whose file has gone and on one whose file holds
    a regex that does not compile. *)
Lemma Watcher_reloadRules_examples :
  let w := {| w_rules := [Examples.rule_drop_b]; w_rulesPath := ["configs/rules.yaml"] |} in
  let e := Examples.engine_of [Examples.rule_drop_b] false in
  @Watcher_reloadRules LiteralRegexp.lib Examples.no_files _ (Some main_callback) w e
  = (w, e)
  /\ @Watcher_reloadRules LiteralRegexp.lib Examples.bad_regex_files _
       (Some main_callback) w e
     = (w, e)
  /\ GetRules (snd (@Watcher_reloadRules LiteralRegexp.lib Examples.good_files _
                      (Some main_callback) w e))
     = [Examples.rule_a_to_b].
Proof.
  cbv zeta.
  pose (w := {| w_rules := [Examples.rule_drop_b]; w_rulesPath := ["configs/rules.yaml"] |}).
  pose (e := Examples.engine_of [Examples.rule_drop_b] false).
  split; [|split].
  - apply (proj1 (@Watcher_reloadRules_all_or_nothing LiteralRegexp.lib Examples.no_files
                    w e) "configs/rules.yaml").
    + now left.
    + left. reflexivity.
  - apply (proj1 (proj2 (@Watcher_reloadRules_all_or_nothing LiteralRegexp.lib
                           Examples.bad_regex_files w e))
             [Examples.rule_a_to_b; Examples.rule_regex "(unclosed"]
             (Examples.rule_regex "(unclosed") eq_refl).
    + right. now left.
    + unfold rule_defective. do 5 right. split; reflexivity.
  - apply (proj2 (proj2 (proj2 (@Watcher_reloadRules_all_or_nothing LiteralRegexp.lib
                                  Examples.good_files w e))
                    [Examples.rule_a_to_b] eq_refl)).
Defined.

(** X9.  With both [rules.file] and [rules.files] configured, the
    server builds its engine from [files] alone while the watcher
    reloads from [files] followed by [file].  The two path lists are
    the same exactly when one of the two settings is empty and the
    other is not. *)
Theorem watcher_and_server_rule_paths (c : RulesConfig) :
  (watcher_rule_paths c = server_rule_paths c
   <-> (File c = "" /\ Files c <> []) \/ (File c <> "" /\ Files c = []))
  /\ (File c <> "" -> Files c <> [] ->
      watcher_rule_paths c = (server_rule_paths c ++ [File c])%list).
Proof.
  unfold watcher_rule_paths, server_rule_paths.
  destruct (String.eqb_spec (File c) "") as [Hf|Hf]; cbn [negb];
    destruct (Files c) as [|p ps] eqn:HF; cbn [List.length Nat.ltb Nat.leb app].
  - split; [|contradiction]. split; [discriminate|].
    intros [[_ H] | [H _]]; contradiction.
  - split; [|contradiction]. split; [intros _; left; split; [assumption | discriminate]|].
    reflexivity.
  - split; [|intros _ H; now contradiction H].
    split; [intros _; right; now split | reflexivity].
  - split; [|reflexivity]. split.
    + intro H. apply (f_equal (@List.length string)) in H.
      cbn [List.length] in H. rewrite length_app in H. cbn in H. lia.
    + intros [[H _] | [_ H]]; [contradiction | discriminate].
Qed.

(** X9 on a configuration with both settings. *)
Lemma watcher_and_server_rule_paths_example :
  let c := {| File := "configs/rules.yaml"; Files := ["a.yaml"; "b.yaml"];
              AutoReload := true |} in
  server_rule_paths c = ["a.yaml"; "b.yaml"]
  /\ watcher_rule_paths c = ["a.yaml"; "b.yaml"; "configs/rules.yaml"].
Proof.
  cbv zeta. split; [reflexivity|].
  refine (proj2 (watcher_and_server_rule_paths _) _ _); discriminate.
Defined.

(** ** Rules: validation and the boundary modes *)

Section RuleMoreFacts.

Context `{RE : RegexpLib} `{JS : JsonLib}.

Lemma mode_test_iff (m : string) :
  String.eqb m ModePrefix || String.eqb m ModeSuffix
  || String.eqb m ModeContains || String.eqb m ModeRegex = true
  <-> In m [ModePrefix; ModeSuffix; ModeContains; ModeRegex].
Proof.
  rewrite !orb_true_iff, !String.eqb_eq. cbn [In]. intuition congruence.
Qed.

Lemma action_test_iff (a : string) :
  String.eqb a ActionReplace || String.eqb a ActionDelete
  || String.eqb a ActionDeleteJsonField = true
  <-> In a [ActionReplace; ActionDelete; ActionDeleteJsonField].
Proof.
  rewrite !orb_true_iff, !String.eqb_eq. cbn [In]. intuition congruence.
Qed.

Lemma validateRule_iff (r : Rule) (index : nat) :
  validateRule r index = None
  <-> Name r <> ""
      /\ In (Mode r) [ModePrefix; ModeSuffix; ModeContains; ModeRegex]
      /\ Pattern r <> ""
      /\ In (Action r) [ActionReplace; ActionDelete; ActionDeleteJsonField]
      /\ (Action r = ActionReplace -> Value r <> "")
      /\ (Mode r = ModeRegex -> regexp_Compile (Pattern r) <> None).
Proof.
  unfold validateRule.
  destruct (String.eqb_spec (Name r) "") as [Hn|Hn];
    [split; [discriminate | intros (H & _); contradiction]|].
  destruct (String.eqb_spec (Mode r) "") as [Hm0|Hm0].
  { split; [discriminate|]. intros (_ & Hin & _). rewrite Hm0 in Hin.
    cbn in Hin. intuition discriminate. }
  pose proof (mode_test_iff (Mode r)) as Hmode.
  destruct (String.eqb (Mode r) ModePrefix || String.eqb (Mode r) ModeSuffix
            || String.eqb (Mode r) ModeContains || String.eqb (Mode r) ModeRegex);
    cbn [negb].
  2:{ split; [discriminate|]. intros (_ & Hin & _). apply Hmode in Hin. discriminate. }
  destruct (String.eqb_spec (Pattern r) "") as [Hp|Hp];
    [split; [discriminate | intros (_ & _ & H & _); contradiction]|].
  destruct (String.eqb_spec (Action r) "") as [Ha0|Ha0].
  { split; [discriminate|]. intros (_ & _ & _ & Hin & _). rewrite Ha0 in Hin.
    cbn in Hin. intuition discriminate. }
  pose proof (action_test_iff (Action r)) as Haction.
  destruct (String.eqb (Action r) ActionReplace || String.eqb (Action r) ActionDelete
            || String.eqb (Action r) ActionDeleteJsonField); cbn [negb].
  2:{ split; [discriminate|]. intros (_ & _ & _ & Hin & _). apply Haction in Hin.
      discriminate. }
  assert (Hmode' : In (Mode r) [ModePrefix; ModeSuffix; ModeContains; ModeRegex])
    by now apply Hmode.
  assert (Haction' : In (Action r) [ActionReplace; ActionDelete; ActionDeleteJsonField])
    by now apply Haction.
  assert (Hrest :
            (if String.eqb (Action r) ActionReplace && String.eqb (Value r) ""
             then True else False)
            <-> ~ (Action r = ActionReplace -> Value r <> "")).
  { destruct (String.eqb_spec (Action r) ActionReplace) as [Har|Har];
      destruct (String.eqb_spec (Value r) "") as [Hv|Hv]; cbn [andb]; intuition. }
  destruct (String.eqb (Action r) ActionReplace && String.eqb (Value r) "").
  { split; [discriminate|]. intros (_ & _ & _ & _ & H & _).
    exfalso. exact (proj1 Hrest I H). }
  assert (Hvalue : Action r = ActionReplace -> Value r <> "").
  { intros Har Hv. apply (proj2 Hrest). intro H. exact (H Har Hv). }
  destruct (String.eqb_spec (Mode r) ModeRegex) as [Hre|Hre].
  - destruct (regexp_Compile (Pattern r)) as [re|].
    + split; [intros _ | reflexivity].
      refine (conj Hn (conj Hmode' (conj Hp (conj Haction' (conj Hvalue _))))).
      intros _. discriminate.
    + split; [discriminate|]. intros (_ & _ & _ & _ & _ & H). now contradiction H.
  - split; [intros _ | reflexivity].
    refine (conj Hn (conj Hmode' (conj Hp (conj Haction' (conj Hvalue _))))).
    intro. contradiction.
Qed.

(** X10.  [validateRule] accepts a rule exactly when its name and
    pattern are not empty, its mode is one of the four modes, its
    action is one of the three actions, a replace rule has a value
    that is not empty, and the pattern of a regex rule compiles. *)
Theorem validateRule_accepts_iff (r : Rule) (index : nat) :
  validateRule r index = None
  <-> Name r <> ""
      /\ In (Mode r) [ModePrefix; ModeSuffix; ModeContains; ModeRegex]
      /\ Pattern r <> ""
      /\ In (Action r) [ActionReplace; ActionDelete; ActionDeleteJsonField]
      /\ (Action r = ActionReplace -> Value r <> "")
      /\ (Mode r = ModeRegex -> regexp_Compile (Pattern r) <> None).
Proof. apply validateRule_iff. Qed.

Lemma validateRule_error_number (r : Rule) (index : nat) (err : error) :
  validateRule r index = Some err ->
  exists name why, err = ErrRule (index + 1) name why.
Proof.
  unfold validateRule.
  repeat match goal with
         | |- (if ?b then _ else _) = Some _ -> _ => destruct b
         | |- match ?x with Some _ => _ | None => _ end = Some _ -> _ => destruct x
         end;
    intro H; try discriminate; injection H as <-; now eexists _, _.
Qed.

Lemma validateRules_from_spec (rs : list Rule) :
  forall i,
    match validateRules_from i rs with
    | None => forall j r, nth_error rs j = Some r -> validateRule r (i + j) = None
    | Some err =>
        exists j r,
          nth_error rs j = Some r
          /\ validateRule r (i + j) = Some err
          /\ forall k r', k < j -> nth_error rs k = Some r' ->
                          validateRule r' (i + k) = None
    end.
Proof.
  induction rs as [|x rs IH]; intro i; cbn [validateRules_from].
  - intros [|j] r H; discriminate.
  - destruct (validateRule x i) as [err|] eqn:Hx.
    + exists 0, x. rewrite Nat.add_0_r. repeat split; trivial. intros k r' Hk. lia.
    + specialize (IH (S i)). destruct (validateRules_from (S i) rs) as [err|].
      * destruct IH as (j & r & Hj & Hr & Hbefore). exists (S j), r.
        rewrite Nat.add_succ_r. repeat split; trivial.
        intros [|k] r' Hk Hr'; cbn in Hr'.
        -- injection Hr' as <-. now rewrite Nat.add_0_r.
        -- rewrite Nat.add_succ_r. apply (Hbefore k r'); [lia | exact Hr'].
      * intros [|j] r Hj; cbn in Hj.
        -- injection Hj as <-. now rewrite Nat.add_0_r.
        -- rewrite Nat.add_succ_r. now apply (IH j r).
Qed.

(** X11.  [validateRules] accepts a list exactly when it accepts
    every rule at its position; otherwise its error is the error of
    the first rule that [validateRule] rejects, and it carries the
    position of that rule counted from 1. *)
Theorem validateRules_first_error (rs : list Rule) :
  match validateRules rs with
  | None => forall j r, nth_error rs j = Some r -> validateRule r j = None
  | Some err =>
      exists j r name why,
        nth_error rs j = Some r
        /\ validateRule r j = Some err
        /\ err = ErrRule (j + 1) name why
        /\ forall k r', k < j -> nth_error rs k = Some r' -> validateRule r' k = None
  end.
Proof.
  unfold validateRules. pose proof (validateRules_from_spec rs 0) as H.
  destruct (validateRules_from 0 rs) as [err|]; [|exact H].
  destruct H as (j & r & Hj & Hr & Hbefore). cbn [Nat.add] in Hr.
  destruct (validateRule_error_number _ _ Hr) as (name & why & Herr).
  exists j, r, name, why. repeat split; trivial.
Qed.

End RuleMoreFacts.

Section BoundaryFacts.

Context `{RE : RegexpLib} `{JS : JsonLib}.

Lemma HasPrefix_app (p rest : string) : HasPrefix (p ++ rest) p = true.
Proof.
  unfold HasPrefix. induction p as [|c p IH]; cbn; [now destruct rest|].
  destruct (ascii_dec c c) as [_|Hc]; [exact IH | contradiction].
Qed.

Lemma slice_from_app (p rest : string) : slice_from (String.length p) (p ++ rest) = rest.
Proof. induction p as [|c p IH]; [reflexivity | exact IH]. Qed.

Lemma slice_to_app (a b : string) : slice_to (String.length a) (a ++ b) = a.
Proof.
  induction a as [|c a IH]; cbn; [now destruct b | now rewrite IH].
Qed.

Lemma length_app_string (a b : string) :
  String.length (a ++ b) = String.length a + String.length b.
Proof. induction a as [|c a IH]; cbn; [reflexivity | now rewrite IH]. Qed.

Lemma HasSuffix_app (rest p : string) : HasSuffix (rest ++ p) p = true.
Proof.
  unfold HasSuffix. rewrite length_app_string.
  replace (String.length rest + String.length p - String.length p)
    with (String.length rest) by lia.
  rewrite slice_from_app, String.eqb_refl.
  apply andb_true_iff. split; [apply Nat.leb_le; lia | reflexivity].
Qed.

Ltac eval_eqb :=
  repeat match goal with
         | |- context [String.eqb ?a ?b] =>
             let v := eval vm_compute in (String.eqb a b) in
             match v with
             | true => change (String.eqb a b) with true
             | false => change (String.eqb a b) with false
             end
         end.

(** X12.  The prefix and suffix modes of an enabled rule touch the
    boundary occurrence only.  On content that starts with the
    pattern, delete returns exactly what follows it and replace puts
    the value in front of what follows it; on content that ends with
    the pattern, delete returns what precedes it and replace appends
    the value to what precedes it.  The rest of the content is kept
    as it is, also where the pattern occurs in it again. *)
Theorem Apply_boundary_modes (r : Rule) (rest : string) :
  Enabled r = true ->
  (Mode r = ModePrefix ->
   (Action r = ActionDelete -> Apply r (Pattern r ++ rest) = Ret rest)
   /\ (Action r = ActionReplace -> Apply r (Pattern r ++ rest) = Ret (Value r ++ rest)))
  /\ (Mode r = ModeSuffix ->
      (Action r = ActionDelete -> Apply r (rest ++ Pattern r) = Ret rest)
      /\ (Action r = ActionReplace -> Apply r (rest ++ Pattern r) = Ret (rest ++ Value r))).
Proof.
  intro Hen. unfold Apply, Match, matchString, deleteContent, replaceContent.
  rewrite Hen. cbn [negb].
  split; intro Hmode; rewrite Hmode; split; intro Haction; rewrite Haction; eval_eqb;
    cbn [negb andb];
    rewrite ?HasPrefix_app, ?HasSuffix_app; cbn [negb];
    rewrite ?slice_from_app, ?length_app_string;
    try replace (String.length rest + String.length (Pattern r) - String.length (Pattern r))
      with (String.length rest) by lia;
    rewrite ?slice_to_app; reflexivity.
Qed.

End BoundaryFacts.

(** X12 on the rule that strips a prefix, where the prefix occurs
    a second time. *)
Lemma Apply_boundary_modes_example :
  let r := {| Name := "strip"; Enabled := true; Mode := ModePrefix; Pattern := "ab";
              Action := ActionDelete; Value := "" |} in
  @Apply LiteralRegexp.lib JsonRef.lib r "abcab" = Ret "cab".
Proof.
  cbv zeta.
  exact (proj1 (proj1 (@Apply_boundary_modes LiteralRegexp.lib JsonRef.lib
                         {| Name := "strip"; Enabled := true; Mode := ModePrefix;
                            Pattern := "ab"; Action := ActionDelete; Value := "" |}
                         "cab" eq_refl) eq_refl) eq_refl).
Defined.

(** ** Rules: what the JSON walk leaves behind *)

Section GoValInduction.

Context {F : Type} (P : GoVal F -> Prop).

Hypothesis Hnil : P VNil.
Hypothesis Hbool : forall b, P (VBool b).
Hypothesis Hnum : forall f, P (VNum f).
Hypothesis Hstr : forall s, P (VStr s).
Hypothesis Hnilslice : P (VSlice None).
Hypothesis Hslice : forall l, Forall P l -> P (VSlice (Some l)).
Hypothesis Hmap : forall m, Forall (fun kv => P (snd kv)) m -> P (VMap m).

Lemma GoVal_ind_nested : forall v, P v.
Proof.
  fix IH 1. intros [| b | f | s | [l|] | m].
  - exact Hnil.
  - apply Hbool.
  - apply Hnum.
  - apply Hstr.
  - apply Hslice. revert l. fix IHl 1. intros [|x l].
    + constructor.
    + constructor; [apply IH | apply IHl].
  - exact Hnilslice.
  - apply Hmap. revert m. fix IHm 1. intros [|[k x] m].
    + constructor.
    + constructor; [apply IH | apply IHm].
Qed.

End GoValInduction.

Section WalkResultFacts.

Context `{RE : RegexpLib} `{JS : JsonLib}.

Lemma clean_map_iff (r : Rule) (m : list (string * GoVal Float64)) :
  clean r (VMap m) = true
  <-> has_matching_member r m = false
      /\ Forall (fun kv => clean r (snd kv) = true) m.
Proof.
  cbn [clean]. rewrite andb_true_iff, negb_true_iff.
  apply and_iff_compat_l.
  induction m as [|[k x] m IH].
  - split; [constructor | reflexivity].
  - rewrite andb_true_iff, IH. split.
    + intros [Hx Hm]. now constructor.
    + intro H. inversion H; subst. now split.
Qed.

Lemma clean_slice_iff (r : Rule) (l : list (GoVal Float64)) :
  clean r (VSlice (Some l)) = true <-> Forall (fun x => clean r x = true) l.
Proof.
  cbn [clean]. induction l as [|x l IH].
  - split; [constructor | reflexivity].
  - rewrite andb_true_iff, IH. split.
    + intros [Hx Hl]. now constructor.
    + intro H. inversion H; subst. now split.
Qed.

Lemma map_set_In {A : Type} (m : list (string * A)) (k0 : string) (v0 : A) (kv : string * A) :
  In kv (map_set m k0 v0) -> kv = (k0, v0) \/ In kv m.
Proof.
  induction m as [|[k' v'] m IH]; cbn [map_set In].
  - intros [<- | []]. now left.
  - destruct (String.eqb k' k0); cbn [In]; intuition.
Qed.

Lemma visit_members_In (r : Rule) (n : list (string * GoVal Float64)) :
  forall acc kv,
    In kv (visit_members (recursiveDelete r) n acc) ->
    In kv acc
    \/ exists v, In (fst kv, v) n /\ recursiveDelete r v = (snd kv, false).
Proof.
  induction n as [|[k v] n IH]; intros acc kv Hin; cbn [visit_members] in Hin.
  - now left.
  - destruct (recursiveDelete r v) as [mv del] eqn:Hv.
    apply IH in Hin as [Hacc | (v1 & Hv1 & Hr)].
    + destruct del.
      * now left.
      * apply map_set_In in Hacc as [-> | Hacc]; [|now left].
        right. exists v. split; [now left | exact Hv].
    + right. exists v1. split; [now right | exact Hr].
Qed.

Lemma kept_items_In (r : Rule) (l : list (GoVal Float64)) (x : GoVal Float64) :
  In x (kept_items r l) ->
  exists item, In item l /\ recursiveDelete r item = (x, false).
Proof.
  induction l as [|item l IH]; cbn [kept_items]; [contradiction|].
  destruct (recursiveDelete r item) as [mi del] eqn:Hi. cbn [fst snd].
  destruct del.
  - intro H. destruct (IH H) as (it & Hit & Hr). exists it. split; [now right | exact Hr].
  - intros [<- | H].
    + exists item. split; [now left | exact Hi].
    + destruct (IH H) as (it & Hit & Hr). exists it. split; [now right | exact Hr].
Qed.

Lemma recursiveDelete_string_inv (r : Rule) (v : GoVal Float64) (s : string) :
  recursiveDelete r v = (VStr s, false) -> v = VStr s.
Proof.
  destruct v as [| b | f | s' | [l|] | m]; cbn [recursiveDelete]; try congruence.
  destruct (has_matching_member r m); discriminate.
Qed.

Lemma recursiveDelete_clean (r : Rule) :
  forall v, clean r (fst (recursiveDelete r v)) = true.
Proof.
  induction v as [| b | f | s | | l IH | m IH] using GoVal_ind_nested; try reflexivity.
  - rewrite recursiveDelete_slice. cbn [fst].
    destruct (kept_items r l) as [|k ks] eqn:Hk; [reflexivity|].
    apply clean_slice_iff. rewrite <- Hk. apply Forall_forall. intros x Hx.
    apply kept_items_In in Hx as (item & Hitem & Hr).
    rewrite Forall_forall in IH. specialize (IH item Hitem). now rewrite Hr in IH.
  - cbn [recursiveDelete]. destruct (has_matching_member r m) eqn:Hm; [reflexivity|].
    cbn [fst]. apply clean_map_iff. split.
    + destruct (has_matching_member r (visit_members (recursiveDelete r) m []))
        eqn:Hres; [|reflexivity].
      apply has_matching_member_iff in Hres as (k & s & Hin & Hmatch).
      apply visit_members_In in Hin as [[] | (v & Hv & Hr)].
      cbn [fst snd] in *. apply recursiveDelete_string_inv in Hr. subst v.
      assert (has_matching_member r m = true)
        by (apply has_matching_member_iff; now exists k, s).
      congruence.
    + apply Forall_forall. intros [k x] Hin.
      apply visit_members_In in Hin as [[] | (v & Hv & Hr)].
      cbn [fst snd] in *. rewrite Forall_forall in IH.
      specialize (IH (k, v) Hv). cbn [snd] in IH. now rewrite Hr in IH.
Qed.

(** X13.  What the walk returns is clean: whatever the input tree,
    no object of the result has a direct member that is a string the
    rule matches. *)
Theorem recursiveDelete_leaves_no_match (r : Rule) (v : GoVal Float64) :
  clean r (fst (recursiveDelete r v)) = true.
Proof. apply recursiveDelete_clean. Qed.

End WalkResultFacts.

Section WalkFixpointFacts.

Context `{RE : RegexpLib} `{JS : JsonLib}.

Lemma nil_empty_map_eq (m : list (string * GoVal Float64)) :
  nil_empty (VMap m) = VMap (map (fun kv => (fst kv, nil_empty (snd kv))) m).
Proof.
  cbn [nil_empty]. f_equal. induction m as [|[k x] m IH]; [reflexivity|].
  cbn [map fst snd]. now rewrite IH.
Qed.

Lemma nil_empty_slice_eq (l : list (GoVal Float64)) :
  nil_empty (VSlice (Some l))
  = match l with
    | [] => VSlice None
    | _ => VSlice (Some (map nil_empty l))
    end.
Proof.
  destruct l as [|x l]; reflexivity.
Qed.

Lemma keys_distinct_map_iff (m : list (string * GoVal Float64)) :
  keys_distinct (VMap m)
  <-> NoDup (map fst m) /\ Forall (fun kv => keys_distinct (snd kv)) m.
Proof.
  cbn [keys_distinct]. apply and_iff_compat_l.
  induction m as [|[k x] m IH].
  - split; [constructor | trivial].
  - rewrite IH. split.
    + intros [Hx Hm]. now constructor.
    + intro H. inversion H; subst. now split.
Qed.

Lemma keys_distinct_slice_iff (l : list (GoVal Float64)) :
  keys_distinct (VSlice (Some l)) <-> Forall keys_distinct l.
Proof.
  cbn [keys_distinct]. induction l as [|x l IH].
  - split; [constructor | trivial].
  - rewrite IH. split.
    + intros [Hx Hl]. now constructor.
    + intro H. inversion H; subst. now split.
Qed.

Lemma recursiveDelete_no_match (r : Rule) :
  forall v,
    clean r v = true -> keys_distinct v ->
    recursiveDelete r v = (nil_empty v, false).
Proof.
  induction v as [| b | f | s | | l IH | m IH] using GoVal_ind_nested;
    intros Hc Hk; try reflexivity.
  - rewrite recursiveDelete_slice, nil_empty_slice_eq.
    apply clean_slice_iff in Hc. apply keys_distinct_slice_iff in Hk.
    assert (Hkept : kept_items r l = map nil_empty l).
    { clear - IH Hc Hk. induction l as [|x l IHl]; [reflexivity|].
      inversion IH; inversion Hc; inversion Hk; subst.
      cbn [kept_items map].
      rewrite (H1 H5 H9). cbn [fst snd]. now rewrite IHl. }
    rewrite Hkept. now destruct l.
  - apply clean_map_iff in Hc as [Hm Hc]. apply keys_distinct_map_iff in Hk as [Hnd Hk].
    cbn [recursiveDelete]. rewrite Hm.
    rewrite visit_members_kept by (trivial; intros k _ []).
    rewrite nil_empty_map_eq. cbn [app]. do 2 f_equal.
    clear - IH Hc Hk. induction m as [|[k x] m IHm]; [reflexivity|].
    inversion IH; inversion Hc; inversion Hk; subst. cbn [snd] in *.
    cbn [kept_members map fst snd].
    rewrite (H1 H5 H9). cbn [fst snd]. now rewrite IHm.
Qed.

(** X14.  On a tree in which nothing matches (and whose objects have
    distinct keys, as decoded JSON has) the walk changes one thing
    only: every empty array becomes the nil slice, which the encoder
    writes as [null].  Nothing is deleted and the root does not
    signal deleteSelf. *)
Theorem recursiveDelete_without_match (r : Rule) (v : GoVal Float64) :
  clean r v = true -> keys_distinct v ->
  recursiveDelete r v = (nil_empty v, false).
Proof. apply recursiveDelete_no_match. Qed.

Lemma map_set_keys {A : Type} (m : list (string * A)) (k : string) (v : A) (k1 : string) :
  In k1 (map fst (map_set m k v)) -> k1 = k \/ In k1 (map fst m).
Proof.
  rewrite in_map_iff. intros ([k2 v2] & <- & Hin).
  apply map_set_In in Hin as [[= -> ->] | Hin]; [now left|].
  right. apply in_map_iff. now exists (k2, v2).
Qed.

Lemma map_set_NoDup {A : Type} (m : list (string * A)) (k : string) (v : A) :
  NoDup (map fst m) -> NoDup (map fst (map_set m k v)).
Proof.
  induction m as [|[k' v'] m IH]; cbn [map_set map fst]; intro Hnd.
  - repeat constructor. intros [].
  - inversion Hnd as [|? ? Hk' Hm]; subst.
    destruct (String.eqb_spec k' k) as [->|Hne]; cbn [map fst].
    + now constructor.
    + constructor; [|now apply IH].
      intro Hin. apply map_set_keys in Hin as [-> | Hin]; contradiction.
Qed.

Lemma visit_members_NoDup (r : Rule) (n : list (string * GoVal Float64)) :
  forall acc,
    NoDup (map fst acc) ->
    NoDup (map fst (visit_members (recursiveDelete r) n acc)).
Proof.
  induction n as [|[k v] n IH]; intros acc Hacc; cbn [visit_members]; [exact Hacc|].
  destruct (recursiveDelete r v) as [mv del]. apply IH.
  destruct del; [exact Hacc | now apply map_set_NoDup].
Qed.

Lemma recursiveDelete_keys_distinct (r : Rule) :
  forall v, keys_distinct (fst (recursiveDelete r v)).
Proof.
  induction v as [| b | f | s | | l IH | m IH] using GoVal_ind_nested;
    try exact I.
  - rewrite recursiveDelete_slice. cbn [fst].
    destruct (kept_items r l) as [|k ks] eqn:Hk; [exact I|].
    apply keys_distinct_slice_iff. rewrite <- Hk. apply Forall_forall. intros x Hx.
    apply kept_items_In in Hx as (item & Hitem & Hr).
    rewrite Forall_forall in IH. specialize (IH item Hitem). now rewrite Hr in IH.
  - cbn [recursiveDelete]. destruct (has_matching_member r m); [exact I|].
    cbn [fst]. apply keys_distinct_map_iff. split.
    + apply visit_members_NoDup. constructor.
    + apply Forall_forall. intros [k x] Hin.
      apply visit_members_In in Hin as [[] | (v & Hv & Hr)].
      cbn [fst snd] in *. rewrite Forall_forall in IH.
      specialize (IH (k, v) Hv). cbn [snd] in IH. now rewrite Hr in IH.
Qed.

Lemma recursiveDelete_no_empty_array (r : Rule) :
  forall v, nil_empty (fst (recursiveDelete r v)) = fst (recursiveDelete r v).
Proof.
  induction v as [| b | f | s | | l IH | m IH] using GoVal_ind_nested;
    try reflexivity.
  - rewrite recursiveDelete_slice. cbn [fst].
    destruct (kept_items r l) as [|k ks] eqn:Hk; [reflexivity|].
    rewrite nil_empty_slice_eq. do 2 f_equal. rewrite <- Hk.
    assert (Hall : Forall (fun x => nil_empty x = x) (kept_items r l)).
    { apply Forall_forall. intros x Hx.
      apply kept_items_In in Hx as (item & Hitem & Hr).
      rewrite Forall_forall in IH. specialize (IH item Hitem). now rewrite Hr in IH. }
    clear - Hall. induction Hall as [|x xs Hx _ IHx]; [reflexivity|].
    cbn [map]. now rewrite Hx, IHx.
  - cbn [recursiveDelete]. destruct (has_matching_member r m); [reflexivity|].
    cbn [fst]. rewrite nil_empty_map_eq. f_equal.
    assert (Hall : Forall (fun kv => nil_empty (snd kv) = snd kv)
                     (visit_members (recursiveDelete r) m [])).
    { apply Forall_forall. intros [k x] Hin.
      apply visit_members_In in Hin as [[] | (v & Hv & Hr)].
      cbn [fst snd] in *. rewrite Forall_forall in IH.
      specialize (IH (k, v) Hv). cbn [snd] in IH. now rewrite Hr in IH. }
    clear - Hall. induction Hall as [|[k x] xs Hx _ IHx]; [reflexivity|].
    cbn [map fst snd] in *. now rewrite Hx, IHx.
Qed.

(** X15.  The walk is idempotent: walking the tree it returned
    changes nothing more and deletes nothing more, for every input
    tree and every rule. *)
Theorem recursiveDelete_idempotent (r : Rule) (v : GoVal Float64) :
  recursiveDelete r (fst (recursiveDelete r v)) = (fst (recursiveDelete r v), false).
Proof.
  rewrite recursiveDelete_no_match.
  - now rewrite recursiveDelete_no_empty_array.
  - apply recursiveDelete_clean.
  - apply recursiveDelete_keys_distinct.
Qed.

End WalkFixpointFacts.

(** X14 on a document without a match: only the empty array
    changes. *)
Lemma recursiveDelete_without_match_example :
  let r := Examples.mk_delete_json ModeContains "secret" in
  let doc := VMap [("a", VSlice (Some [])); ("b", VStr "public"); ("c", VNum 1%Z)] in
  @recursiveDelete LiteralRegexp.lib JsonRef.lib r doc
  = (VMap [("a", VSlice None); ("b", VStr "public"); ("c", VNum 1%Z)], false)
  /\ @deleteJsonField LiteralRegexp.lib JsonRef.lib r
       (JsonRef.json_text "{'a':[],'b':'public','c':1}")
     = JsonRef.json_text "{|  'a': null,|  'b': 'public',|  'c': 1|}".
Proof.
  cbv zeta. split; [|reflexivity].
  refine (eq_trans
            (@recursiveDelete_without_match LiteralRegexp.lib JsonRef.lib
               (Examples.mk_delete_json ModeContains "secret")
               (VMap [("a", VSlice (Some [])); ("b", VStr "public"); ("c", VNum 1%Z)])
               eq_refl _) eq_refl).
  cbn. repeat split; repeat constructor; cbn; intuition discriminate.
Defined.

(** ** Rules: the short form *)

Section EasyRuleFacts.

Context `{RE : RegexpLib}.

Lemma delete_rules_length (name : string) (mode : RuleMode) (patterns : list string) :
  forall i, List.length (delete_rules name mode i patterns) = List.length patterns.
Proof.
  induction patterns as [|p ps IH]; intro i; cbn; [reflexivity | now rewrite IH].
Qed.

Lemma replace_rules_length (name : string) (mode : RuleMode)
      (entries : list (string * string)) :
  List.length (replace_rules name mode entries) = List.length entries.
Proof.
  induction entries as [|[p v] es IH]; cbn; [reflexivity | now rewrite IH].
Qed.

Lemma append_nonempty (a b : string) : a <> "" -> (a ++ b)%string <> "".
Proof. destruct a; [contradiction | discriminate]. Qed.

Lemma delete_rules_shaped (name : string) (mode : RuleMode) (patterns : list string) :
  name <> "" -> In mode [ModePrefix; ModeSuffix; ModeContains; ModeRegex] ->
  forall i, Forall easy_shaped (delete_rules name mode i patterns).
Proof.
  intros Hn Hm. induction patterns as [|p ps IH]; intro i; cbn [delete_rules];
    constructor; [|apply IH].
  unfold easy_shaped. cbn. repeat split; trivial; [now apply append_nonempty | now left].
Qed.

Lemma replace_rules_shaped (name : string) (mode : RuleMode)
      (entries : list (string * string)) :
  name <> "" -> In mode [ModePrefix; ModeSuffix; ModeContains; ModeRegex] ->
  Forall easy_shaped (replace_rules name mode entries).
Proof.
  intros Hn Hm. induction entries as [|[p v] es IH]; cbn [replace_rules];
    constructor; [|exact IH].
  unfold easy_shaped. cbn. repeat split; trivial; [now apply append_nonempty | now right].
Qed.

Lemma ltb_add (n m : nat) : ((0 <? n) || (0 <? m) = (0 <? n + m))%nat.
Proof. now destruct n, m. Qed.

Lemma convertEasyRules_length (easy : EasyRules) :
  List.length (convertEasyRules easy) = easy_entries easy.
Proof.
  unfold convertEasyRules, easy_entries, section_rules, convertDeleteRules,
    convertReplaceRules, convertPrefixRules, convertSuffixRules, convertRegexRules.
  destruct (easy_Delete easy), (easy_Replace easy), (easy_Prefix easy),
    (easy_Suffix easy), (easy_Regex easy);
    repeat rewrite ?length_app, ?delete_rules_length, ?replace_rules_length;
    cbn [List.length]; lia.
Qed.

(** X16.  [convertEasyRules] makes one rule per entry of the short
    form, and [hasEasyRules] holds exactly when it makes at least
    one rule. *)
Theorem hasEasyRules_iff_converted (easy : EasyRules) :
  List.length (convertEasyRules easy) = easy_entries easy
  /\ hasEasyRules (Some easy) = negb (List.length (convertEasyRules easy) =? 0)%nat
  /\ hasEasyRules None = false.
Proof.
  split; [apply convertEasyRules_length|]. split; [|reflexivity].
  rewrite convertEasyRules_length.
  assert (Hpos : forall n, negb (n =? 0)%nat = (0 <? n)%nat) by (now intros []).
  rewrite Hpos. unfold hasEasyRules, easy_entries, nonempty.
  change false with (0 <? 0)%nat.
  destruct (easy_Delete easy), (easy_Replace easy), (easy_Prefix easy),
    (easy_Suffix easy), (easy_Regex easy);
    rewrite !ltb_add; reflexivity.
Qed.

Lemma convertEasyRules_shaped (easy : EasyRules) :
  Forall easy_shaped (convertEasyRules easy).
Proof.
  assert (Hmodes : forall m, In m [ModePrefix; ModeSuffix; ModeContains; ModeRegex] ->
                             In m [ModePrefix; ModeSuffix; ModeContains; ModeRegex])
    by trivial.
  unfold convertEasyRules, section_rules, convertDeleteRules,
    convertReplaceRules, convertPrefixRules, convertSuffixRules, convertRegexRules.
  destruct (easy_Delete easy), (easy_Replace easy), (easy_Prefix easy),
    (easy_Suffix easy), (easy_Regex easy);
    repeat (apply Forall_app; split);
    try (apply delete_rules_shaped; [discriminate | cbn; tauto]);
    try (apply replace_rules_shaped; [discriminate | cbn; tauto]);
    constructor.
Qed.

(** X17.  Every rule made from the short form is enabled, has a
    name that is not empty, one of the four modes, and is a delete
    rule without value or a replace rule.  So [validateRule] accepts
    it exactly when its pattern is not empty, its value is not empty
    if it is a replace rule, and its pattern compiles if it is a
    regex rule: an entry with an empty replacement is rejected. *)
Theorem convertEasyRules_rules (easy : EasyRules) (r : Rule) (index : nat) :
  In r (convertEasyRules easy) ->
  easy_shaped r
  /\ (validateRule r index = None
      <-> Pattern r <> ""
          /\ (Action r = ActionReplace -> Value r <> "")
          /\ (Mode r = ModeRegex -> regexp_Compile (Pattern r) <> None)).
Proof.
  intro Hin. pose proof (convertEasyRules_shaped easy) as Hall.
  rewrite Forall_forall in Hall. specialize (Hall r Hin). split; [exact Hall|].
  destruct Hall as (_ & Hn & Hm & Ha). rewrite validateRule_iff. split.
  - intros (_ & _ & Hp & _ & Hv & Hre). now repeat split.
  - intros (Hp & Hv & Hre). repeat split; trivial.
    destruct Ha as [[-> _] | ->]; cbn; tauto.
Qed.

End EasyRuleFacts.

(** X17 on a short form with one delete entry and one replace entry
    whose replacement is empty. *)
Lemma convertEasyRules_rules_example :
  let easy := {| easy_Delete := Some {| ed_Contains := ["noise"]; ed_Prefix := [];
                                        ed_Suffix := []; ed_Regex := [] |};
                 easy_Replace := Some {| er_Contains := [("old", "")]; er_Prefix := [];
                                         er_Suffix := []; er_Regex := [] |};
                 easy_Prefix := None; easy_Suffix := None; easy_Regex := None |} in
  List.length (convertEasyRules easy) = 2
  /\ (forall r, nth_error (convertEasyRules easy) 0 = Some r ->
                 @validateRule LiteralRegexp.lib r 0 = None)
  /\ @validateRules LiteralRegexp.lib (convertEasyRules easy) <> None.
Proof.
  cbv zeta. split; [reflexivity|]. split; [|vm_compute; discriminate].
  intros r Hr.
  refine (proj2 (proj2 (@convertEasyRules_rules LiteralRegexp.lib _ r 0
                          (nth_error_In _ 0 Hr))) _).
  injection Hr as <-. repeat split; discriminate.
Defined.

(** ** Load balancer: construction and schedule *)

Section BalancerMoreFacts.

Context `{UL : UrlLib}.

Lemma parse_targets_good (targetURLs : list string) :
  Forall (fun s => url_Parse s <> None) targetURLs ->
  forall parsed,
    parse_targets targetURLs parsed = inl (parsed ++ map url_Parse targetURLs)%list.
Proof.
  induction 1 as [|u us Hu _ IH]; intro parsed; cbn [parse_targets map].
  - now rewrite app_nil_r.
  - destruct (url_Parse u) as [p|]; [|contradiction].
    rewrite IH, <- app_assoc. reflexivity.
Qed.

Lemma parse_targets_bad (before after : list string) (bad : string) :
  Forall (fun s => url_Parse s <> None) before ->
  url_Parse bad = None ->
  forall parsed, parse_targets (before ++ bad :: after) parsed = inr (ErrURL bad).
Proof.
  intros Hb Hbad. induction Hb as [|u us Hu _ IH]; intro parsed; cbn [app parse_targets].
  - now rewrite Hbad.
  - destruct (url_Parse u) as [p|]; [apply IH | contradiction].
Qed.

Lemma NewLoadBalancer_good (u : string) (us : list string) :
  Forall (fun s => url_Parse s <> None) (u :: us) ->
  NewLoadBalancer (u :: us)
  = (Some {| targets := map url_Parse (u :: us); currentIndex := 0 |}, None).
Proof.
  intro Hall. unfold NewLoadBalancer. cbn [List.length Nat.eqb].
  now rewrite (parse_targets_good Hall).
Qed.

(** X18.  [NewLoadBalancer] returns neither a balancer nor an error
    on an empty list.  When every URL parses it returns a balancer
    with the parsed URLs in configured order and the cursor at 0.
    Otherwise it returns no balancer and the error of the first URL
    that does not parse. *)
Theorem NewLoadBalancer_result :
  NewLoadBalancer [] = (None, None)
  /\ (forall u us,
        Forall (fun s => url_Parse s <> None) (u :: us) ->
        NewLoadBalancer (u :: us)
        = (Some {| targets := map url_Parse (u :: us); currentIndex := 0 |}, None))
  /\ (forall before bad after,
        Forall (fun s => url_Parse s <> None) before ->
        url_Parse bad = None ->
        NewLoadBalancer (before ++ bad :: after) = (None, Some (ErrURL bad))).
Proof.
  split; [reflexivity|]. split.
  - apply NewLoadBalancer_good.
  - intros before bad after Hb Hbad. unfold NewLoadBalancer.
    rewrite (@parse_targets_bad before after bad Hb Hbad).
    now destruct before.
Qed.

Lemma succ_mod_Z (k N : nat) :
  N <> 0 ->
  ((Z.of_nat (k mod N) + 1) mod Z.of_nat N)%Z = Z.of_nat (S k mod N).
Proof.
  intro HN. rewrite !Nat2Z.inj_mod, Nat2Z.inj_succ, <- Z.add_1_r.
  apply Z.add_mod_idemp_l. lia.
Qed.

(** From a balancer at cursor 0, call number [j] (counted from 0)
    returns the target at position [j mod N]. *)
Lemma GetNext_times_schedule (targetURLs : list string) (lb : LoadBalancer) :
  (Z.of_nat (List.length targetURLs) <= max_int)%Z ->
  balancer_inv targetURLs lb ->
  currentIndex lb = 0%Z ->
  forall k,
    GetNext_times k (Some lb)
    = Ret (map (fun j => nth (j mod List.length targetURLs) (targets lb) None) (seq 0 k),
           Some {| targets := targets lb;
                   currentIndex := Z.of_nat (k mod List.length targetURLs) |}).
Proof.
  intros Hmax Hinv Hzero.
  assert (HN : List.length targetURLs <> 0) by (destruct Hinv as (_ & _ & Hi); lia).
  induction k as [|k IH].
  - cbn [GetNext_times seq map]. rewrite Nat.Div0.mod_0_l.
    destruct lb as [ts idx]. cbn in Hzero. now subst idx.
  - rewrite GetNext_times_succ_r, IH. cbn [bind fst snd].
    assert (Hinv' : balancer_inv targetURLs
                      {| targets := targets lb;
                         currentIndex := Z.of_nat (k mod List.length targetURLs) |}).
    { destruct Hinv as (Ht & Hall & _). repeat split; cbn [targets currentIndex]; trivial.
      - lia.
      - apply Nat2Z.inj_lt. now apply Nat.mod_upper_bound. }
    destruct (GetNext_step Hmax Hinv') as [Hstep _]. rewrite Hstep.
    cbn [bind fst snd targets currentIndex].
    rewrite succ_mod_Z by exact HN. rewrite Nat2Z.id.
    rewrite seq_S, map_app. reflexivity.
Qed.

(** X19.  The schedule of a balancer built by [NewLoadBalancer] from
    N URLs, for any number of calls: call number [j] (counted from
    0) returns the target at position [j mod N]; after [k] calls the
    cursor is [k mod N] and the number of targets is still N. *)
Theorem GetNext_schedule (targetURLs : list string) (lb : LoadBalancer) (k : nat) :
  NewLoadBalancer targetURLs = (Some lb, None) ->
  (Z.of_nat (List.length targetURLs) <= max_int)%Z ->
  let N := List.length targetURLs in
  exists lb',
    GetNext_times k (Some lb)
    = Ret (map (fun j => nth (j mod N) (map url_Parse targetURLs) None) (seq 0 k), Some lb')
    /\ currentIndex lb' = Z.of_nat (k mod N)
    /\ GetTargetCount (Some lb') = N
    /\ GetTargetCount (Some lb) = N.
Proof.
  intros Hnew Hmax N. destruct (NewLoadBalancer_inv _ Hnew) as [Hinv Hzero].
  rewrite (GetNext_times_schedule Hmax Hinv Hzero k).
  destruct Hinv as (Ht & _ & _). rewrite Ht. eexists. split; [reflexivity|].
  cbn [currentIndex GetTargetCount targets]. rewrite Ht, length_map. now repeat split.
Qed.

End BalancerMoreFacts.

(** X18 on a list whose second URL has a control byte. *)
Lemma NewLoadBalancer_result_example :
  let bad := String (ascii_of_N 10) "http://two:8080" in
  @NewLoadBalancer PlainUrl.lib ["http://one:8080"; bad; "http://three:8080"]
  = (None, Some (ErrURL bad))
  /\ GetTargetCount (fst (@NewLoadBalancer PlainUrl.lib Examples.three_urls)) = 3.
Proof.
  cbv zeta. split; [|reflexivity].
  apply (proj2 (proj2 (@NewLoadBalancer_result PlainUrl.lib)) ["http://one:8080"]).
  - repeat constructor. discriminate.
  - reflexivity.
Defined.

(** X19 on three URLs and seven calls. *)
Lemma GetNext_schedule_example :
  exists lb',
    GetNext_times 7 (fst (@NewLoadBalancer PlainUrl.lib Examples.three_urls))
    = Ret ([Some "http://one:8080"; Some "http://two:8080"; Some "http://three:8080";
            Some "http://one:8080"; Some "http://two:8080"; Some "http://three:8080";
            Some "http://one:8080"], Some lb')
    /\ currentIndex lb' = 1%Z.
Proof.
  assert (Hmax : (Z.of_nat (List.length Examples.three_urls) <= max_int)%Z)
    by (vm_compute; discriminate).
  destruct (@GetNext_schedule PlainUrl.lib Examples.three_urls _ 7 eq_refl Hmax)
    as (lb' & Hrun & Hidx & _).
  exists lb'. split; [exact Hrun | exact Hidx].
Defined.

(** ** Target configuration and forwarder *)

Section TargetFacts.

Context `{UL : UrlLib}.

Lemma validate_urls_None (urls : list string) :
  forall i, validate_urls i urls = None <-> Forall (fun s => url_Parse s <> None) urls.
Proof.
  induction urls as [|u us IH]; intro i; cbn [validate_urls].
  - split; [constructor | reflexivity].
  - destruct (url_Parse u) as [p|] eqn:Hu.
    + rewrite IH. split.
      * intro H. constructor; [congruence | exact H].
      * intro H. now inversion H.
    + split; [discriminate|]. intro H. inversion H. congruence.
Qed.

Lemma validateTargetConfig_iff (t : TargetConfig) :
  validateTargetConfig t = None
  <-> (BaseURL t <> "" \/ URLs t <> [])
      /\ (BaseURL t <> "" -> url_Parse (BaseURL t) <> None)
      /\ Forall (fun s => url_Parse s <> None) (URLs t)
      /\ In (Strategy t) ["round_robin"; "weighted_round_robin"; "least_connections"].
Proof.
  unfold validateTargetConfig.
  destruct (String.eqb_spec (BaseURL t) "") as [Hb|Hb]; cbn [andb negb].
  - destruct (URLs t) as [|u us] eqn:Hurls; cbn [List.length Nat.eqb].
    + split; [discriminate|]. intros ([H|H] & _); congruence.
    + rewrite <- Hurls.
      destruct (validate_urls 0 (URLs t)) as [err|] eqn:Hv.
      * split; [discriminate|]. intros (_ & _ & Hall & _).
        apply (validate_urls_None (URLs t) 0) in Hall. congruence.
      * apply validate_urls_None in Hv.
        destruct (String.eqb_spec (Strategy t) "round_robin") as [H1|H1];
          [|destruct (String.eqb_spec (Strategy t) "weighted_round_robin") as [H2|H2];
            [|destruct (String.eqb_spec (Strategy t) "least_connections") as [H3|H3]]];
          cbn [orb].
        -- split; [|reflexivity]. intros _. repeat split; trivial.
           ++ right. rewrite Hurls. discriminate.
           ++ intro. contradiction.
           ++ rewrite H1. cbn. tauto.
        -- split; [|reflexivity]. intros _. repeat split; trivial.
           ++ right. rewrite Hurls. discriminate.
           ++ intro. contradiction.
           ++ rewrite H2. cbn. tauto.
        -- split; [|reflexivity]. intros _. repeat split; trivial.
           ++ right. rewrite Hurls. discriminate.
           ++ intro. contradiction.
           ++ rewrite H3. cbn. tauto.
        -- split; [discriminate|]. intros (_ & _ & _ & Hin). cbn in Hin.
           intuition congruence.
  - destruct (url_Parse (BaseURL t)) as [p|] eqn:Hp.
    + destruct (validate_urls 0 (URLs t)) as [err|] eqn:Hv.
      * split; [discriminate|]. intros (_ & _ & Hall & _).
        apply (validate_urls_None (URLs t) 0) in Hall. congruence.
      * apply validate_urls_None in Hv.
        destruct (String.eqb_spec (Strategy t) "round_robin") as [H1|H1];
          [|destruct (String.eqb_spec (Strategy t) "weighted_round_robin") as [H2|H2];
            [|destruct (String.eqb_spec (Strategy t) "least_connections") as [H3|H3]]];
          cbn [orb].
        -- split; [|reflexivity]. intros _. repeat split; trivial.
           ++ now left.
           ++ discriminate.
           ++ rewrite H1. cbn. tauto.
        -- split; [|reflexivity]. intros _. repeat split; trivial.
           ++ now left.
           ++ discriminate.
           ++ rewrite H2. cbn. tauto.
        -- split; [|reflexivity]. intros _. repeat split; trivial.
           ++ now left.
           ++ discriminate.
           ++ rewrite H3. cbn. tauto.
        -- split; [discriminate|]. intros (_ & _ & _ & Hin). cbn in Hin.
           intuition congruence.
    + split; [discriminate|]. intros (_ & Hbase & _). now apply Hbase in Hb.
Qed.

(** X20.  [validateTargetConfig] accepts a target configuration
    exactly when a base URL or at least one list URL is given, the
    base URL (when given) and every list URL parse, and the strategy
    is one of [round_robin], [weighted_round_robin] and
    [least_connections]; an empty strategy is rejected. *)
Theorem validateTargetConfig_accepts_iff (t : TargetConfig) :
  validateTargetConfig t = None
  <-> (BaseURL t <> "" \/ URLs t <> [])
      /\ (BaseURL t <> "" -> url_Parse (BaseURL t) <> None)
      /\ Forall (fun s => url_Parse s <> None) (URLs t)
      /\ In (Strategy t) ["round_robin"; "weighted_round_robin"; "least_connections"].
Proof. apply validateTargetConfig_iff. Qed.

Lemma GetTargetURLs_multi (t : TargetConfig) :
  IsMultiTarget t = true -> GetTargetURLs t = URLs t.
Proof.
  unfold IsMultiTarget, GetTargetURLs. intro H.
  destruct (URLs t) as [|u us]; [discriminate | reflexivity].
Qed.

Lemma GetTargetURLs_single (t : TargetConfig) :
  IsMultiTarget t = false -> (1 <? List.length (GetTargetURLs t))%nat = false.
Proof.
  unfold IsMultiTarget, GetTargetURLs. intro H.
  destruct (URLs t) as [|u us]; cbn [List.length Nat.ltb Nat.leb].
  - now destruct (negb (String.eqb (BaseURL t) "")).
  - exact H.
Qed.

End TargetFacts.

Section ForwarderFacts.

Context `{UP : UrlParts}.


Lemma baseURLs_of_GetNext_times (n : nat) :
  forall (f : Forwarder) rs lb',
    isMultiTarget f = true ->
    GetNext_times n (loadBalancer f) = Ret (rs, lb') ->
    Forall (fun r => r <> None) rs ->
    exists us,
      map Some us = rs
      /\ ForwardRequest_baseURLs n f
         = Ret (us, {| targetURL := targetURL f; loadBalancer := lb';
                       f_config := f_config f; isMultiTarget := true |}).
Proof.
  induction n as [|n IH]; intros f rs lb' Hm Hrun Hall.
  - cbn in Hrun. injection Hrun as <- <-. exists []. split; [reflexivity|].
    destruct f as [tu lb c m]. cbn in Hm |- *. now subst m.
  - cbn [GetNext_times] in Hrun. cbn [ForwardRequest_baseURLs].
    unfold ForwardRequest_baseURL. rewrite Hm.
    destruct (GetNext (loadBalancer f)) as [[r lb1]|] eqn:Hnext; [|discriminate].
    cbn [bind fst snd] in Hrun |- *.
    destruct (GetNext_times n lb1) as [[rs1 lb2]|] eqn:Hrest; [|discriminate].
    cbn [bind fst snd] in Hrun. injection Hrun as <- <-.
    inversion Hall as [|? ? Hr Hall1]; subst.
    destruct r as [u|]; [|congruence].
    destruct (IH {| targetURL := targetURL f; loadBalancer := lb1;
                    f_config := f_config f; isMultiTarget := true |} rs1 lb2
                 eq_refl Hrest Hall1) as (us & Hus & Hgo).
    exists (u :: us). split; [cbn; now rewrite Hus|].
    cbn [bind fst snd]. rewrite Hgo. reflexivity.
Qed.

Lemma baseURLs_single (f : Forwarder) (u : URL) :
  isMultiTarget f = false -> targetURL f = Some u ->
  forall n, ForwardRequest_baseURLs n f = Ret (repeat u n, f).
Proof.
  intros Hm Hu. induction n as [|n IH]; [reflexivity|].
  cbn [ForwardRequest_baseURLs]. unfold ForwardRequest_baseURL.
  rewrite Hm, Hu. cbn [bind fst snd]. rewrite IH. reflexivity.
Qed.

Lemma schedule_not_nil (targetURLs : list string) (k : nat) :
  Forall (fun s => url_Parse s <> None) targetURLs ->
  targetURLs <> [] ->
  Forall (fun r => r <> None)
    (map (fun j => nth (j mod List.length targetURLs) (map url_Parse targetURLs) None)
       (seq 0 k)).
Proof.
  intros Hall Hne. apply Forall_forall. intros r Hin.
  apply in_map_iff in Hin. destruct Hin as (j & <- & _).
  assert (Hlt : (j mod List.length targetURLs < List.length targetURLs)%nat).
  { apply Nat.mod_upper_bound. destruct targetURLs; [contradiction | discriminate]. }
  destruct (nth_parsed_not_nil Hall Hlt) as (u & -> & _). discriminate.
Qed.

(** X22.  A forwarder built by [NewForwarder] never dereferences a
    nil URL, however many requests it forwards.  In multi-target
    mode request number [j] (counted from 0) goes to the parsed list
    URL at position [j mod N]; in single-target mode every request
    goes to the one parsed URL, whose scheme and host are not empty,
    and the forwarder is unchanged. *)
Theorem NewForwarder_targets (cfg : Config) (f : Forwarder) (n : nat) :
  NewForwarder cfg = (Some f, None) ->
  (Z.of_nat (List.length (URLs (Target cfg))) <= max_int)%Z ->
  let t := Target cfg in
  isMultiTarget f = IsMultiTarget t
  /\ exists us f',
       ForwardRequest_baseURLs n f = Ret (us, f')
       /\ if IsMultiTarget t then
            map Some us
            = map (fun j => nth (j mod List.length (URLs t)) (map url_Parse (URLs t)) None)
                (seq 0 n)
          else
            exists u text,
              GetTargetURLs t = [text] /\ url_Parse text = Some u
              /\ us = repeat u n /\ f' = f
              /\ url_Scheme u <> "" /\ url_Host u <> "".
Proof.
  intros Hnew Hmax t. unfold NewForwarder in Hnew. fold t in Hnew, Hmax.
  destruct (IsMultiTarget t) eqn:Hm.
  - rewrite (GetTargetURLs_multi _ Hm) in Hnew. unfold IsMultiTarget in Hm.
    rewrite Hm in Hnew.
    destruct (URLs t) as [|u0 us0] eqn:Hurls; [discriminate|]. rewrite <- Hurls in *.
    destruct (NewLoadBalancer (URLs t)) as [lb [err|]] eqn:Hlb; [discriminate|].
    injection Hnew as <-. cbn [isMultiTarget]. split; [reflexivity|].
    destruct lb as [lb|];
      [|exfalso; rewrite Hurls in Hlb; unfold NewLoadBalancer in Hlb;
        cbn [List.length Nat.eqb] in Hlb; destruct (parse_targets _ _); discriminate].
    destruct (NewLoadBalancer_inv _ Hlb) as [Hinv Hzero].
    pose proof (GetNext_times_schedule Hmax Hinv Hzero n) as Hrun.
    destruct Hinv as (Ht & Hall & _). rewrite Ht in Hrun.
    assert (Hne : URLs t <> []) by (rewrite Hurls; discriminate).
    destruct (@baseURLs_of_GetNext_times n
                {| targetURL := None; loadBalancer := Some lb;
                   f_config := cfg; isMultiTarget := true |} _ _
                eq_refl Hrun (schedule_not_nil n Hall Hne)) as (us & Hus & Hgo).
    exists us. eexists. split; [exact Hgo | exact Hus].
  - pose proof (GetTargetURLs_single _ Hm) as Hlen.
    destruct (GetTargetURLs t) as [|text rest] eqn:Hurls; [discriminate|].
    rewrite Hlen in Hnew.
    assert (rest = []) as ->.
    { destruct rest; [reflexivity | discriminate]. }
    destruct (String.eqb text ""); [discriminate|].
    destruct (url_Parse text) as [u|] eqn:Hp; [|discriminate].
    destruct (String.eqb_spec (url_Scheme u) "") as [|Hs]; [discriminate|].
    destruct (String.eqb_spec (url_Host u) "") as [|Hh]; [discriminate|].
    injection Hnew as <-. cbn [isMultiTarget]. split; [reflexivity|].
    exists (repeat u n). eexists. split.
    + now apply baseURLs_single.
    + exists u, text. repeat split; trivial.
Qed.

End ForwarderFacts.


(** X22 on three list URLs and four requests. *)
Lemma NewForwarder_targets_example :
  exists f us f',
    @NewForwarder _ PlainUrlParts.parts (PlainUrlParts.config_of "" Examples.three_urls "round_robin")
    = (Some f, None)
    /\ ForwardRequest_baseURLs 4 f = Ret (us, f')
    /\ us = ["http://one:8080"; "http://two:8080"; "http://three:8080"; "http://one:8080"].
Proof.
  destruct (@NewForwarder _ PlainUrlParts.parts
              (PlainUrlParts.config_of "" Examples.three_urls "round_robin"))
    as [[f|] [err|]] eqn:Hnew; try (vm_compute in Hnew; discriminate Hnew).
  assert (Hmax : (Z.of_nat (List.length
                    (URLs (Target (PlainUrlParts.config_of "" Examples.three_urls
                                     "round_robin")))) <= max_int)%Z)
    by (vm_compute; discriminate).
  destruct (@NewForwarder_targets _ PlainUrlParts.parts _ f 4 Hnew Hmax)
    as (_ & us & f' & Hrun & Hus).
  exists f, us, f'. split; [reflexivity|]. split; [exact Hrun|].
  change (IsMultiTarget _) with true in Hus. cbv iota in Hus.
  vm_compute in Hus.
  destruct us as [|a [|b [|c [|d [|? ?]]]]]; try discriminate Hus.
  now injection Hus as -> -> -> ->.
Defined.

(** ** Headers: what is copied, on requests and on responses *)

Module HeaderMoreFacts.

Import Headers ResponseHeaders.

Lemma lower_upper_byte (c : ascii) : lower_byte (upper_byte c) = lower_byte c.
Proof. destruct c as [[] [] [] [] [] [] [] []]; reflexivity. Qed.

Lemma lower_lower_byte (c : ascii) : lower_byte (lower_byte c) = lower_byte c.
Proof. destruct c as [[] [] [] [] [] [] [] []]; reflexivity. Qed.

Lemma ToLower_canonical_case (s : string) :
  forall upper, ToLower (canonical_case upper s) = ToLower s.
Proof.
  induction s as [|c s IH]; intro upper; [reflexivity|].
  cbn [canonical_case ToLower]. rewrite IH. f_equal.
  destruct upper; [apply lower_upper_byte | apply lower_lower_byte].
Qed.

(** Canonical form changes the case of letters only. *)
Lemma ToLower_canonical (key : string) :
  ToLower (CanonicalMIMEHeaderKey key) = ToLower key.
Proof.
  unfold CanonicalMIMEHeaderKey.
  destruct (forallb _ _); [apply ToLower_canonical_case | reflexivity].
Qed.

Lemma shouldSkipHeader_canonical (key : string) :
  shouldSkipHeader (CanonicalMIMEHeaderKey key) = shouldSkipHeader key.
Proof.
  now rewrite !HeaderFacts.shouldSkipHeader_is_prefix_test, ToLower_canonical.
Qed.

Lemma skipResponseHeaders_never_hit (key : string) :
  lookup_bool skipResponseHeaders (ToLower key) = false.
Proof.
  unfold skipResponseHeaders. cbn [lookup_bool].
  repeat (rewrite HeaderFacts.eqb_ToLower_upper by reflexivity). reflexivity.
Qed.

Lemma shouldSkipResponseHeader_eq (key : string) :
  shouldSkipResponseHeader key = shouldSkipHeader key.
Proof.
  rewrite HeaderFacts.shouldSkipHeader_is_prefix_test.
  unfold shouldSkipResponseHeader. now rewrite skipResponseHeaders_never_hit.
Qed.

Lemma copyResponseHeaders_eq (src : Header) :
  forall dst, copyResponseHeaders src dst = copyHeaders src dst.
Proof.
  induction src as [|[key values] rest IH]; intro dst; [reflexivity|].
  cbn [copyResponseHeaders copyHeaders].
  rewrite shouldSkipResponseHeader_eq, !IH. reflexivity.
Qed.

Lemma Values_add_value (h : Header) (k value key : string) :
  Header_Values (add_value h k value) key
  = if String.eqb k (CanonicalMIMEHeaderKey key)
    then (Header_Values h key ++ [value])%list
    else Header_Values h key.
Proof.
  induction h as [|[k' vs] rest IH]; cbn [add_value Header_Values].
  - now destruct (String.eqb k (CanonicalMIMEHeaderKey key)).
  - destruct (String.eqb_spec k' k) as [->|Hk]; cbn [Header_Values].
    + now destruct (String.eqb k (CanonicalMIMEHeaderKey key)).
    + destruct (String.eqb_spec k' (CanonicalMIMEHeaderKey key)) as [->|Hk'].
      * apply String.eqb_neq in Hk. rewrite String.eqb_sym in Hk. now rewrite Hk.
      * exact IH.
Qed.

Lemma Values_fold_add (values : list string) (k key : string) :
  forall dst,
    Header_Values (fold_left (fun d value => Header_Add d k value) values dst) key
    = if String.eqb (CanonicalMIMEHeaderKey k) (CanonicalMIMEHeaderKey key)
      then (Header_Values dst key ++ values)%list
      else Header_Values dst key.
Proof.
  induction values as [|v vs IH]; intro dst; cbn [fold_left].
  - rewrite app_nil_r. now destruct (String.eqb _ _).
  - rewrite IH. unfold Header_Add. rewrite Values_add_value.
    destruct (String.eqb _ _); [now rewrite <- app_assoc | reflexivity].
Qed.

Lemma Values_absent (h : Header) (key : string) :
  ~ In (CanonicalMIMEHeaderKey key) (map fst h) -> Header_Values h key = [].
Proof.
  induction h as [|[k vs] rest IH]; intro Hnot; [reflexivity|].
  cbn [Header_Values]. cbn [map fst In] in Hnot.
  destruct (String.eqb_spec k (CanonicalMIMEHeaderKey key)) as [->|_].
  - exfalso. apply Hnot. now left.
  - apply IH. intro Hin. apply Hnot. now right.
Qed.

(** The values under a name after [copyHeaders], for a source
    whose names are distinct and in canonical form. *)
Lemma copyHeaders_values (src : Header) (key : string) :
  NoDup (map fst src) ->
  Forall (fun kv => CanonicalMIMEHeaderKey (fst kv) = fst kv) src ->
  forall dst,
    Header_Values (copyHeaders src dst) key
    = (Header_Values dst key
       ++ (if shouldSkipHeader key then [] else Header_Values src key))%list.
Proof.
  intros Hnd Hcan. induction src as [|[k vs] rest IH]; intro dst.
  - cbn [copyHeaders Header_Values]. destruct (shouldSkipHeader key); now rewrite app_nil_r.
  - cbn [map fst] in Hnd. inversion Hnd as [|? ? Hnotin Hnd']; subst.
    inversion Hcan as [|? ? Hk Hcan']; subst. cbn [fst] in Hk.
    specialize (IH Hnd' Hcan').
    cbn [copyHeaders Header_Values].
    destruct (shouldSkipHeader k) eqn:Hskip.
    + rewrite IH.
      destruct (String.eqb_spec k (CanonicalMIMEHeaderKey key)) as [->|_]; [|reflexivity].
      rewrite shouldSkipHeader_canonical in Hskip. now rewrite Hskip.
    + rewrite IH, Values_fold_add, Hk.
      destruct (String.eqb_spec k (CanonicalMIMEHeaderKey key)) as [->|_]; [|reflexivity].
      rewrite shouldSkipHeader_canonical in Hskip. rewrite Hskip.
      rewrite (Values_absent rest key Hnotin), app_nil_r. reflexivity.
Qed.

Lemma Values_Del (h : Header) (del key : string) :
  Header_Values (Header_Del h del) key
  = if String.eqb (CanonicalMIMEHeaderKey del) (CanonicalMIMEHeaderKey key)
    then [] else Header_Values h key.
Proof.
  unfold Header_Del. induction h as [|[k vs] rest IH]; cbn [filter Header_Values fst].
  - now destruct (String.eqb _ _).
  - destruct (String.eqb_spec k (CanonicalMIMEHeaderKey del)) as [->|Hk]; cbn [negb].
    + rewrite IH. now destruct (String.eqb _ _).
    + cbn [Header_Values]. rewrite IH.
      destruct (String.eqb_spec k (CanonicalMIMEHeaderKey key)) as [->|_]; [|reflexivity].
      apply String.eqb_neq in Hk. rewrite String.eqb_sym in Hk. now rewrite Hk.
Qed.

Lemma keys_add_value (h : Header) (k value k' : string) :
  In k' (map fst (add_value h k value)) -> In k' (map fst h) \/ k' = k.
Proof.
  induction h as [|[k0 vs] rest IH]; cbn [add_value map fst In].
  - intros [<-|[]]. now right.
  - destruct (String.eqb k0 k); cbn [map fst In]; [tauto|].
    intros [H|H]; [tauto|]. apply IH in H. tauto.
Qed.

Lemma keys_fold_add (values : list string) (k k' : string) :
  forall dst,
    In k' (map fst (fold_left (fun d value => Header_Add d k value) values dst)) ->
    In k' (map fst dst) \/ k' = CanonicalMIMEHeaderKey k.
Proof.
  induction values as [|v vs IH]; intro dst; cbn [fold_left]; [tauto|].
  intro H. apply IH in H. destruct H as [H|H]; [|tauto].
  unfold Header_Add in H. now apply keys_add_value in H.
Qed.

(** Every name that [copyHeaders] adds is the canonical form of a
    source name that [shouldSkipHeader] lets through. *)
Lemma keys_copyHeaders (src : Header) (k' : string) :
  forall dst,
    In k' (map fst (copyHeaders src dst)) ->
    In k' (map fst dst)
    \/ exists k, In k (map fst src) /\ shouldSkipHeader k = false
                 /\ k' = CanonicalMIMEHeaderKey k.
Proof.
  induction src as [|[k vs] rest IH]; intro dst; cbn [copyHeaders]; [tauto|].
  destruct (shouldSkipHeader k) eqn:Hskip; intro H; apply IH in H.
  - destruct H as [H|(k0 & Hin & Hs & ->)]; [tauto|].
    right. exists k0. cbn [map fst In]. tauto.
  - destruct H as [H|(k0 & Hin & Hs & ->)].
    + apply keys_fold_add in H. destruct H as [H| ->]; [tauto|].
      right. exists k. cbn [map fst In]. tauto.
    + right. exists k0. cbn [map fst In]. tauto.
Qed.

Lemma copyHeaders_proxy_prefix (src : Header) (key : string) :
  HasPrefix (ToLower key) "proxy-" = true ->
  Header_Values (copyHeaders src []) key = [].
Proof.
  intro Hp. apply Values_absent. intro Hin.
  apply keys_copyHeaders in Hin. destruct Hin as [[]|(k & _ & Hskip & Heq)].
  rewrite <- shouldSkipHeader_canonical, <- Heq, shouldSkipHeader_canonical in Hskip.
  rewrite HeaderFacts.shouldSkipHeader_is_prefix_test in Hskip. congruence.
Qed.

(** X23.  [shouldSkipResponseHeader] is the prefix test alone: its
    table has capitalised names and is looked up with a lower-cased
    one.  So for a response whose header names are distinct and
    canonical, [copyResponseHeaders] appends to the client's header
    the values of every name that does not start with [proxy-] (in
    any case of letters), [Connection] and [Transfer-Encoding]
    included, and nothing under the names that do. *)
Theorem copyResponseHeaders_values (src dst : Header) (key : string) :
  NoDup (map fst src) ->
  Forall (fun kv => CanonicalMIMEHeaderKey (fst kv) = fst kv) src ->
  shouldSkipResponseHeader key = HasPrefix (ToLower key) "proxy-"
  /\ Header_Values (copyResponseHeaders src dst) key
     = (Header_Values dst key
        ++ (if HasPrefix (ToLower key) "proxy-" then [] else Header_Values src key))%list.
Proof.
  intros Hnd Hcan.
  rewrite shouldSkipResponseHeader_eq, copyResponseHeaders_eq,
    (copyHeaders_values key Hnd Hcan), HeaderFacts.shouldSkipHeader_is_prefix_test.
  split; reflexivity.
Qed.

(** X24.  The header of the outbound request, for an inbound
    request whose header names are distinct and canonical (as the
    server stores them): a name has no value when it starts with
    [proxy-] (in any case of letters) or is [Content-Length], and
    the inbound values in their order otherwise. *)
Theorem ForwardRequest_headers_values (inbound : Header) (key : string) :
  NoDup (map fst inbound) ->
  Forall (fun kv => CanonicalMIMEHeaderKey (fst kv) = fst kv) inbound ->
  Header_Values (ForwardRequest_headers inbound) key
  = if HasPrefix (ToLower key) "proxy-"
       || String.eqb (CanonicalMIMEHeaderKey key) "Content-Length"
    then [] else Header_Values inbound key.
Proof.
  intros Hnd Hcan. unfold ForwardRequest_headers, removeProblematicHeaders.
  cbn [fold_left]. rewrite Values_Del, (copyHeaders_values key Hnd Hcan).
  rewrite HeaderFacts.shouldSkipHeader_is_prefix_test. cbn [Header_Values app].
  change (CanonicalMIMEHeaderKey "Content-Length") with "Content-Length".
  rewrite (String.eqb_sym "Content-Length").
  destruct (HasPrefix (ToLower key) "proxy-"); cbn [orb];
    now destruct (String.eqb _ _).
Qed.

(** X25.  Whatever the inbound header holds (any names, in any
    order), the outbound request has no value under a name that
    starts with [proxy-] in any case of letters, and none under
    [Content-Length] in any case of letters. *)
Theorem ForwardRequest_headers_never (inbound : Header) (key : string) :
  HasPrefix (ToLower key) "proxy-" = true
  \/ CanonicalMIMEHeaderKey key = "Content-Length" ->
  Header_Values (ForwardRequest_headers inbound) key = [].
Proof.
  intro H. unfold ForwardRequest_headers, removeProblematicHeaders.
  cbn [fold_left]. rewrite Values_Del.
  change (CanonicalMIMEHeaderKey "Content-Length") with "Content-Length".
  destruct H as [Hp| ->].
  - rewrite (copyHeaders_proxy_prefix _ _ Hp). now destruct (String.eqb _ _).
  - reflexivity.
Qed.

End HeaderMoreFacts.

(** X23 on a response with hop-by-hop headers. *)
Lemma copyResponseHeaders_values_example :
  let resp := [ ("Transfer-Encoding", ["chunked"]); ("Set-Cookie", ["a=1"; "b=2"]);
                ("Proxy-Authenticate", ["Basic"]) ] in
  Headers.Header_Values (ResponseHeaders.copyResponseHeaders resp []) "transfer-encoding"
  = ["chunked"]
  /\ Headers.Header_Values (ResponseHeaders.copyResponseHeaders resp []) "Set-Cookie"
     = ["a=1"; "b=2"]
  /\ Headers.Header_Values (ResponseHeaders.copyResponseHeaders resp [])
       "Proxy-Authenticate" = [].
Proof.
  cbv zeta.
  assert (Hnd : NoDup (map fst [ ("Transfer-Encoding", ["chunked"]);
                                 ("Set-Cookie", ["a=1"; "b=2"]);
                                 ("Proxy-Authenticate", ["Basic"]) ]))
    by (cbn; repeat constructor; cbn; intuition discriminate).
  assert (Hcan : Forall (fun kv => Headers.CanonicalMIMEHeaderKey (fst kv) = fst kv)
                   [ ("Transfer-Encoding", ["chunked"]); ("Set-Cookie", ["a=1"; "b=2"]);
                     ("Proxy-Authenticate", ["Basic"]) ])
    by (repeat constructor).
  split; [|split].
  - exact (proj2 (HeaderMoreFacts.copyResponseHeaders_values [] "transfer-encoding"
                    Hnd Hcan)).
  - exact (proj2 (HeaderMoreFacts.copyResponseHeaders_values [] "Set-Cookie" Hnd Hcan)).
  - exact (proj2 (HeaderMoreFacts.copyResponseHeaders_values [] "Proxy-Authenticate"
                    Hnd Hcan)).
Defined.

(** X24 on the inbound header of the examples. *)
Lemma ForwardRequest_headers_values_example :
  Headers.Header_Values (Headers.ForwardRequest_headers Examples.inbound_headers)
    "content-type" = ["application/json"]
  /\ Headers.Header_Values (Headers.ForwardRequest_headers Examples.inbound_headers)
       "Content-Length" = [].
Proof.
  assert (Hnd : NoDup (map fst Examples.inbound_headers))
    by (cbn; repeat constructor; cbn; intuition discriminate).
  assert (Hcan : Forall (fun kv => Headers.CanonicalMIMEHeaderKey (fst kv) = fst kv)
                   Examples.inbound_headers)
    by (repeat constructor).
  split.
  - exact (HeaderMoreFacts.ForwardRequest_headers_values "content-type" Hnd Hcan).
  - exact (HeaderMoreFacts.ForwardRequest_headers_values "Content-Length" Hnd Hcan).
Defined.

(** X25 on an inbound header with names in lower case, one of them
    twice in different cases. *)
Lemma ForwardRequest_headers_never_example :
  let inbound := [ ("proxy-connection", ["keep-alive"]); ("content-length", ["17"]);
                   ("Content-Length", ["17"]); ("Accept", ["*/*"]) ] in
  Headers.Header_Values (Headers.ForwardRequest_headers inbound) "Proxy-Connection" = []
  /\ Headers.Header_Values (Headers.ForwardRequest_headers inbound) "content-length" = [].
Proof.
  cbv zeta. split.
  - apply HeaderMoreFacts.ForwardRequest_headers_never. left. reflexivity.
  - apply HeaderMoreFacts.ForwardRequest_headers_never. right. reflexivity.
Defined.

(** ** The request handler *)

Section HandlerFacts.

Context `{RE : RegexpLib} `{JS : JsonLib}.


End HandlerFacts.

(** ** The logger: truncation *)

Section TruncateFacts.

Lemma length_append (a b : string) :
  String.length (a ++ b) = (String.length a + String.length b)%nat.
Proof. induction a as [|c a IH]; cbn; [reflexivity | now rewrite IH]. Qed.

Lemma length_slice_to (s : string) :
  forall n, (n <= String.length s)%nat -> String.length (slice_to n s) = n.
Proof.
  induction s as [|c s IH]; intros [|n] Hn; cbn in *; try reflexivity; try lia.
  rewrite IH; [reflexivity | lia].
Qed.

Lemma HasPrefix_slice_to (s : string) : forall n, HasPrefix s (slice_to n s) = true.
Proof.
  unfold HasPrefix. induction s as [|c s IH]; intros [|n]; cbn; try reflexivity.
  destruct (ascii_dec c c) as [_|Hc]; [apply IH | contradiction].
Qed.

(** X27.  [truncateString] panics exactly when [maxLength] is
    negative.  Otherwise the result has at most [maxLength] bytes;
    it is [s] when [s] has at most [maxLength] bytes; for a longer
    [s] it is the first [maxLength] bytes of [s] when [maxLength]
    is at most 30, and the first [maxLength - 30] bytes followed by
    three dots when it is more. *)
Theorem truncateString_result (s : string) (maxLength : Z) :
  (truncateString s maxLength = Panic <-> (maxLength < 0)%Z)
  /\ forall out,
       truncateString s maxLength = Ret out ->
       (Z.of_nat (String.length out) <= maxLength)%Z
       /\ ((Z.of_nat (String.length s) <= maxLength)%Z -> out = s)
       /\ ((maxLength < Z.of_nat (String.length s))%Z ->
           exists cut,
             HasPrefix s cut = true
             /\ if (maxLength <=? 30)%Z
                then out = cut /\ Z.of_nat (String.length cut) = maxLength
                else out = cut ++ "..."
                     /\ Z.of_nat (String.length cut) = (maxLength - 30)%Z).
Proof.
  unfold truncateString, go_slice_to.
  destruct (Z.leb_spec (Z.of_nat (String.length s)) maxLength) as [Hle|Hgt].
  - split; [split; [discriminate | lia]|].
    intros out [= <-]. repeat split; trivial. lia.
  - destruct (Z.leb_spec maxLength 30) as [H30|H30].
    + destruct (Z.leb_spec 0 maxLength) as [H0|H0]; cbn [andb].
      * destruct (Z.leb_spec maxLength (Z.of_nat (String.length s))); [|lia].
        split; [split; [discriminate | lia]|].
        intros out [= <-].
        assert (Hlen : Z.of_nat (String.length (slice_to (Z.to_nat maxLength) s))
                       = maxLength)
          by (rewrite length_slice_to; lia).
        repeat split; try lia.
        intros _. exists (slice_to (Z.to_nat maxLength) s).
        split; [apply HasPrefix_slice_to | split; [reflexivity | exact Hlen]].
      * split; [split; [intros _; lia | reflexivity]|]. discriminate.
    + destruct (Z.leb_spec 0 (maxLength - 30)) as [_|]; [|lia].
      destruct (Z.leb_spec (maxLength - 30) (Z.of_nat (String.length s))); [|lia].
      cbn [andb bind].
      split; [split; [discriminate | lia]|].
      intros out [= <-].
      assert (Hlen : Z.of_nat (String.length (slice_to (Z.to_nat (maxLength - 30)) s))
                     = (maxLength - 30)%Z)
        by (rewrite length_slice_to; lia).
      repeat split.
      * rewrite length_append. cbn [String.length]. lia.
      * lia.
      * intros _. exists (slice_to (Z.to_nat (maxLength - 30)) s).
        split; [apply HasPrefix_slice_to | split; [reflexivity | exact Hlen]].
Qed.

End TruncateFacts.

(** ** Configuration: defaults and validation *)

Section ConfigFacts.

Context `{UL : UrlLib} `{FS : RuleFiles}.

(** X28.  [setDefaults] changes nothing when applied a second
    time.  The strategy it leaves is the one [GetStrategy] reports
    for the original configuration and is never empty; the port it
    leaves is never 0; the target URLs and the rule files are as
    configured. *)
Theorem setDefaults_result (config : Config) :
  setDefaults (setDefaults config) = setDefaults config
  /\ Strategy (Target (setDefaults config)) = GetStrategy (Target config)
  /\ Strategy (Target (setDefaults config)) <> ""
  /\ Port (Server (setDefaults config)) <> 0%Z
  /\ GetTargetURLs (Target (setDefaults config)) = GetTargetURLs (Target config)
  /\ Rules (setDefaults config) = Rules config.
Proof.
  destruct config as [[host port] [base urls timeout strategy [hce hci hcp hct]]
                        [level file] rules debug].
  unfold setDefaults, GetStrategy, GetTargetURLs, Second.
  cbn [Server Target Logging Rules Debug Host Port BaseURL URLs Timeout Strategy
       HealthCheck hc_Enabled hc_Interval hc_Path hc_Timeout Level LogFile].
  repeat split.
  - destruct (String.eqb_spec host "") as [->|Hh];
      [|apply String.eqb_neq in Hh; rewrite Hh];
    destruct (Z.eqb_spec port 0) as [->|Hp];
      [|apply Z.eqb_neq in Hp; rewrite Hp| |apply Z.eqb_neq in Hp; rewrite Hp];
    destruct (Z.eqb_spec timeout 0) as [->|Ht];
      try (apply Z.eqb_neq in Ht; rewrite Ht);
    destruct (String.eqb_spec strategy "") as [->|Hs];
      try (apply String.eqb_neq in Hs; rewrite Hs);
    destruct (Z.eqb_spec hci 0) as [->|Hi];
      try (apply Z.eqb_neq in Hi; rewrite Hi);
    destruct (String.eqb_spec hcp "") as [->|Hc];
      try (apply String.eqb_neq in Hc; rewrite Hc);
    destruct (Z.eqb_spec hct 0) as [->|Hd];
      try (apply Z.eqb_neq in Hd; rewrite Hd);
    destruct (String.eqb_spec level "") as [->|Hl];
      try (apply String.eqb_neq in Hl; rewrite Hl);
    destruct (String.eqb_spec file "") as [->|Hf];
      try (apply String.eqb_neq in Hf; rewrite Hf);
    reflexivity.
  - destruct (String.eqb_spec strategy ""); [discriminate | assumption].
  - destruct (Z.eqb_spec port 0); [discriminate | assumption].
Qed.

Lemma first_missing_None (files : list string) :
  first_missing files = None <-> Forall (fun p => os_exists p = true) files.
Proof.
  induction files as [|f rest IH]; cbn [first_missing].
  - split; [constructor | reflexivity].
  - destruct (os_exists f) eqn:Hf; cbn [negb].
    + rewrite IH. split; [now constructor | intro H; now inversion H].
    + split; [discriminate|]. intro H. inversion H. congruence.
Qed.

(** X29.  On a configuration that [validate] accepts, the port is
    between 1 and 65535, the target configuration passes
    [validateTargetConfig], and every rule file that the server
    loads and every rule file that the watcher is given exists;
    the server loads at least one. *)
Theorem validate_accepts (config : Config) :
  validate config = None ->
  (1 <= Port (Server config) <= 65535)%Z
  /\ validateTargetConfig (Target config) = None
  /\ server_rule_paths (Rules config) <> []
  /\ Forall (fun p => os_exists p = true) (server_rule_paths (Rules config))
  /\ Forall (fun p => os_exists p = true) (watcher_rule_paths (Rules config)).
Proof.
  unfold validate, server_rule_paths, watcher_rule_paths.
  destruct (Z.ltb_spec (Port (Server config)) 1) as [|Hlo]; [discriminate|].
  destruct (Z.ltb_spec 65535 (Port (Server config))) as [|Hhi]; [discriminate|].
  cbn [orb]. destruct (validateTargetConfig (Target config)); [discriminate|].
  destruct (String.eqb_spec (File (Rules config)) "") as [Hf|Hf]; cbn [andb negb].
  - destruct (Files (Rules config)) as [|p ps] eqn:Hfiles; [discriminate|].
    cbn [List.length Nat.eqb Nat.ltb Nat.leb]. rewrite <- Hfiles.
    intro Hall. apply first_missing_None in Hall.
    repeat split; trivial; try lia. rewrite Hfiles. discriminate.
  - destruct (os_exists (File (Rules config))) eqn:Hex; [|discriminate]. cbn [negb].
    destruct (Files (Rules config)) as [|p ps] eqn:Hfiles.
    + intros _. cbn [List.length Nat.ltb Nat.leb app].
      repeat split; trivial; try lia; try discriminate; repeat constructor; exact Hex.
    + cbn [List.length Nat.ltb Nat.leb]. rewrite <- Hfiles.
      intro Hall. apply first_missing_None in Hall.
      repeat split; trivial; try lia.
      * rewrite Hfiles. discriminate.
      * apply Forall_app. split; [exact Hall | repeat constructor; exact Hex].
Qed.

End ConfigFacts.

(** X29 on the configuration of the examples, after [setDefaults]. *)
Lemma validate_accepts_example :
  let config := setDefaults (PlainUrlParts.config_of "http://localhost:3000" [] "") in
  @validate PlainUrl.lib Examples.good_files config = None
  /\ Forall (fun p => @os_exists Examples.good_files p = true)
       (server_rule_paths (Rules config)).
Proof.
  cbv zeta. split; [reflexivity|].
  exact (proj1 (proj2 (proj2 (proj2
           (@validate_accepts PlainUrl.lib Examples.good_files
              (setDefaults (PlainUrlParts.config_of "http://localhost:3000" [] ""))
              eq_refl))))).
Defined.
